(** * Orbit: the synchronous record cache

    A shallow embedding of the record cache of Orbit
    ([@orbit/data] records, the [SyncRecordCache] patch pipeline, its patch,
    inverse-patch and query operators, and the cache integrity processor),
    followed by the properties proved about it.

    JavaScript values are modelled as follows.
    - Attribute and key values are [value]s: the primitives and arrays.
      Numbers are integers ([Z]); arrays stand for every non-primitive value
      and carry the identity of the JavaScript object ([ref]), which is what
      [===] compares.  Plain-object values are not modelled.
    - A JavaScript object used as a dictionary is a [gmap string _]; its
      iteration goes by the map's key order where JavaScript goes by
      insertion order.
    - An exception is an [outcome] [Throw e]; the cache, the event log, the
      key map and the allocator of object identities are threaded explicitly
      (type [M]). *)

From Stdlib Require Import ZArith String Ascii List Bool.
From stdpp Require Import base option list gmap strings fin_maps.

Local Open Scope string_scope.
Local Open Scope Z_scope.
Local Open Scope list_scope.

(* ===================================================================== *)
(** ** Values and the helpers of [@orbit/utils] *)
(* ===================================================================== *)

(** Identity of a JavaScript object: [Given n] for an object built by the
    caller, [Copied n] for the [n]-th copy allocated by [clone]. *)
Inductive ref : Type :=
| Given (n : positive)
| Copied (n : positive).

#[warnings="-register-all"]
Inductive value : Type :=
| VUndefined
| VNull
| VBool (b : bool)
| VNum (n : Z)
| VStr (s : string)
| VArr (r : ref) (items : list value).

Module Utils.

Definition ref_eqb (a b : ref) : bool :=
  match a, b with
  | Given n, Given m => Pos.eqb n m
  | Copied n, Copied m => Pos.eqb n m
  | _, _ => false
  end.

(** The array with every object identity forgotten. *)
Fixpoint erase (v : value) : value :=
  match v with
  | VArr _ items => VArr (Given 1) (map erase items)
  | _ => v
  end.

(** Structure of two values compared, identities ignored. *)
Fixpoint same_structure (a b : value) {struct a} : bool :=
  match a, b with
  | VUndefined, VUndefined => true
  | VNull, VNull => true
  | VBool x, VBool y => Bool.eqb x y
  | VNum x, VNum y => Z.eqb x y
  | VStr x, VStr y => String.eqb x y
  | VArr _ xs, VArr _ ys =>
      (fix go (xs ys : list value) {struct xs} : bool :=
         match xs, ys with
         | [], [] => true
         | x :: xs', y :: ys' => same_structure x y && go xs' ys'
         | _, _ => false
         end) xs ys
  | _, _ => false
  end.

(** Modelled from the spec: [eq] of [@orbit/utils] is not in the sources;
    the inverse operators use it where the spec says "equals exactly" and
    "differs": deep structural equality. *)
Definition eq (a b : value) : bool := same_structure a b.

(** JavaScript's [===]: primitives by value, objects by identity. *)
Definition strict_eq (a b : value) : bool :=
  match a, b with
  | VUndefined, VUndefined => true
  | VNull, VNull => true
  | VBool x, VBool y => Bool.eqb x y
  | VNum x, VNum y => Z.eqb x y
  | VStr x, VStr y => String.eqb x y
  | VArr r _, VArr s _ => ref_eqb r s
  | _, _ => false
  end.

(** Modelled from the spec: [isNone] of [@orbit/utils] ("null/undefined
    values"). *)
Definition isNone (v : value) : bool :=
  match v with
  | VUndefined | VNull => true
  | _ => false
  end.

(** Modelled from the spec: [clone] of [@orbit/utils], a deep copy.  The
    copy of an array is a new object: it takes the next identity of the
    allocator [n], and so do the arrays inside it. *)
Fixpoint clone (v : value) (n : positive) {struct v} : value * positive :=
  match v with
  | VArr _ items =>
      let '(items', n') :=
        (fix go (xs : list value) (n : positive) {struct xs}
           : list value * positive :=
           match xs with
           | [] => ([], n)
           | x :: xs' =>
               let '(x', n1) := clone x n in
               let '(xs'', n2) := go xs' n1 in
               (x' :: xs'', n2)
           end) items (Pos.succ n) in
      (VArr (Copied n) items', n')
  | _ => (v, n)
  end.

(** [clone] over the values of a dictionary, in key order. *)
Definition clone_dict (d : gmap string value) (n : positive)
  : gmap string value * positive :=
  fold_right
    (fun '(k, v) '(acc, n) =>
       let '(v', n') := clone v n in (<[k := v']> acc, n'))
    (∅, n) (map_to_list d).

End Utils.

Arguments Utils.eq : simpl never.

(* ===================================================================== *)
(** ** Records ([@orbit/data], record.ts) *)
(* ===================================================================== *)

Inductive error : Type :=
| TypeError
| ModelNotFound
| SchemaValidationError
| RecordNotFoundException
| QueryExpressionParseError
| OperatorNotFound.

(** What a call produces: a value, an exception, or no answer within the
    recursion budget of the model (see [_applyOperation]). *)
Inductive outcome (A : Type) : Type :=
| Ok (a : A)
| Throw (e : error)
| OutOfFuel.
Arguments Ok {A} a.
Arguments Throw {A} e.
Arguments OutOfFuel {A}.

Definition obind {A B} (x : outcome A) (f : A -> outcome B) : outcome B :=
  match x with
  | Ok a => f a
  | Throw e => Throw e
  | OutOfFuel => OutOfFuel
  end.

#[global] Instance outcome_ret : MRet outcome := @Ok.
#[global] Instance outcome_bind : MBind outcome := fun A B f x => obind x f.

(** [forEach] with an accumulator, stopping at the first exception. *)
Fixpoint foldM {A B} (f : B -> A -> outcome B) (l : list A) (b : B) : outcome B :=
  match l with
  | [] => Ok b
  | a :: l' => b' ← f b a; foldM f l' b'
  end.

Record RecordIdentity : Type := mkIdentity {
  type : string;
  id : string
}.

(** The [data] of a relationship as it can be at run time: [null], one
    identity (hasOne) or an array of identities (hasMany).  A missing
    relationship or [data] ([undefined]) is [None] of [option RelData]. *)
Inductive RelData : Type :=
| DataNull
| DataOne (r : RecordIdentity)
| DataMany (rs : list RecordIdentity).

(** A record: [Record extends RecordIdentity] with its three optional
    groupings. *)
Record Record_ : Type := mkRecord {
  identity : RecordIdentity;
  keys : option (gmap string value);
  attributes : option (gmap string value);
  relationships : option (gmap string RelData)
}.

#[global] Instance RecordIdentity_eq_dec : EqDecision RecordIdentity.
Proof. solve_decision. Defined.
#[global] Instance RelData_eq_dec : EqDecision RelData.
Proof. solve_decision. Defined.

Definition cloneRecordIdentity (identity : RecordIdentity) : RecordIdentity :=
  {| type := type identity; id := id identity |}.

(** [isNone] and [isObject] on relationship data. *)
Definition data_isNone (d : option RelData) : bool :=
  match d with
  | None | Some DataNull => true
  | _ => false
  end.

Definition data_isObject (d : option RelData) : bool :=
  match d with
  | Some (DataOne _) | Some (DataMany _) => true
  | _ => false
  end.

(** [record.type === record2.type && record1.id === record2.id] on two
    objects; an array has neither property, so both read [undefined]. *)
Definition same_type_and_id (d1 d2 : option RelData) : bool :=
  match d1, d2 with
  | Some (DataOne a), Some (DataOne b) =>
      String.eqb (type a) (type b) && String.eqb (id a) (id b)
  | Some (DataMany _), Some (DataMany _) => true
  | _, _ => false
  end.

Definition equalRecordIdentities (record1 record2 : option RelData) : bool :=
  (data_isNone record1 && data_isNone record2)
  || (data_isObject record1 && data_isObject record2
      && same_type_and_id record1 record2).

Definition serializeRecordIdentity (record : RecordIdentity) : string :=
  type record +:+ ":" +:+ id record.

(** [String.prototype.split] on the separator [c]. *)
Fixpoint split (c : Ascii.ascii) (s : string) : list string :=
  match s with
  | EmptyString => [EmptyString]
  | String a s' =>
      if Ascii.eqb a c then EmptyString :: split c s'
      else match split c s' with
           | h :: t => String a h :: t
           | [] => [String a EmptyString]
           end
  end.

(** [const [type, id] = identity.split(':')].  A serialized identity always
    has a [":"]; without one [id] would be [undefined], given as the empty
    string here. *)
Definition deserializeRecordIdentity (identity : string) : RecordIdentity :=
  match split ":"%char identity with
  | t :: i :: _ => {| type := t; id := i |}
  | t :: [] => {| type := t; id := "" |}
  | [] => {| type := ""; id := "" |}
  end.

(** [recordIdentities.map(...)]: an array is needed, anything else has no
    [map]. *)
Definition serializeRecordIdentities (recordIdentities : option RelData)
  : outcome (list string) :=
  match recordIdentities with
  | Some (DataMany rs) => Ok (map serializeRecordIdentity rs)
  | _ => Throw TypeError
  end.

Definition includes (l : list string) (s : string) : bool :=
  existsb (String.eqb s) l.

Definition exclusiveIdentities (identities1 identities2 : list string)
  : list string :=
  List.filter (fun i => negb (includes identities2 i)) identities1.

(** [set.length]: [undefined] and [null] have no properties, an identity
    object has no [length] ([None]). *)
Definition data_length (d : option RelData) : outcome (option nat) :=
  match d with
  | None | Some DataNull => Throw TypeError
  | Some (DataOne _) => Ok None
  | Some (DataMany rs) => Ok (Some (length rs))
  end.

Definition equalRecordIdentitySets (set1 set2 : option RelData) : outcome bool :=
  l1 ← data_length set1;
  l2 ← data_length set2;
  if decide (l1 = l2) then
    if decide (l1 = Some 0%nat) then Ok true
    else
      serialized1 ← serializeRecordIdentities set1;
      serialized2 ← serializeRecordIdentities set2;
      Ok (bool_decide (exclusiveIdentities serialized1 serialized2 = [])
          && bool_decide (exclusiveIdentities serialized2 serialized1 = []))
  else Ok false.

Definition exclusiveOfRecordIdentitySet (set1 set2 : option RelData)
  : outcome (list RecordIdentity) :=
  s1 ← serializeRecordIdentities set1;
  s2 ← serializeRecordIdentities set2;
  Ok (map deserializeRecordIdentity (exclusiveIdentities s1 s2)).

(** [for (let r of set)]: only an array can be iterated. *)
Definition recordIdentitySetIncludes (set : option RelData)
  (record : RecordIdentity) : outcome bool :=
  match set with
  | Some (DataMany rs) =>
      Ok (existsb
            (fun r => equalRecordIdentities (Some (DataOne r)) (Some (DataOne record)))
            rs)
  | _ => Throw TypeError
  end.

(** Modelled from the spec: [merge] of [@orbit/utils] is not in the sources;
    "shallow-merge the incoming mapping into the existing mapping
    (field-level override, other fields preserved)". *)
Definition merge {V} (sources : list (gmap string V)) : gmap string V :=
  fold_left (fun object source => source ∪ object) sources ∅.

Definition mergeGrouping {V} (current updates : option (gmap string V))
  : option (gmap string V) :=
  match current, updates with
  | Some c, Some u => Some (merge [c; u])
  | Some c, None => Some (merge [c])
  | None, Some u => Some (merge [u])
  | None, None => None
  end.

Definition mergeRecords (current : option Record_) (updates : Record_) : Record_ :=
  match current with
  | Some current =>
      {| identity := cloneRecordIdentity (identity current);
         attributes := mergeGrouping (attributes current) (attributes updates);
         keys := mergeGrouping (keys current) (keys updates);
         relationships := mergeGrouping (relationships current) (relationships updates) |}
  | None => updates
  end.

Example equalRecordIdentitySets_out_of_order :
  equalRecordIdentitySets
    (Some (DataMany [mkIdentity "planet" "p1"; mkIdentity "moon" "m1"]))
    (Some (DataMany [mkIdentity "moon" "m1"; mkIdentity "planet" "p1"]))
  = Ok true.
Proof. reflexivity. Qed.

Example exclusiveOfRecordIdentitySet_unequal :
  exclusiveOfRecordIdentitySet
    (Some (DataMany [mkIdentity "planet" "p1"; mkIdentity "moon" "m1"]))
    (Some (DataMany [mkIdentity "moon" "m1"]))
  = Ok [mkIdentity "planet" "p1"].
Proof. reflexivity. Qed.

(* ===================================================================== *)
(** ** Schema, operations and the cache state *)
(* ===================================================================== *)

Module Schema.

Inductive RelationshipKind : Type := hasOne | hasMany.

(** [{ type: 'hasOne' | 'hasMany', model, inverse? }] *)
Record RelationshipDefinition : Type := mkRelationship {
  type : RelationshipKind;
  model : string;
  inverse : option string
}.

Record ModelDefinition : Type := mkModel {
  keys : list string;
  attributes : list string;
  relationships : gmap string RelationshipDefinition
}.

Record t : Type := mkSchema { models : gmap string ModelDefinition }.

(** Modelled from the spec: [Schema.getModel] is not in the sources
    ("getModel(type) -> { attributes, keys, relationships }"); an undeclared
    type is taken to raise. *)
Definition getModel (schema : t) (type : string) : outcome ModelDefinition :=
  match models schema !! type with
  | Some m => Ok m
  | None => Throw ModelNotFound
  end.

(** [schema.getModel(type).relationships[relationship]]; reading a property
    of the result when the relationship is not declared is a [TypeError],
    so the definition is returned only when there is one. *)
Definition relationshipDef (schema : t) (type relationship : string)
  : outcome RelationshipDefinition :=
  m ← getModel schema type;
  match relationships m !! relationship with
  | Some def => Ok def
  | None => Throw TypeError
  end.

End Schema.

Inductive RecordOperation : Type :=
| AddRecord (record : Record_)
| ReplaceRecord (record : Record_)
| RemoveRecord (record : RecordIdentity)
| ReplaceKey (record : RecordIdentity) (key : string) (value : value)
| ReplaceAttribute (record : RecordIdentity) (attribute : string) (value : value)
| AddToRelatedRecords (record : RecordIdentity) (relationship : string)
    (relatedRecord : RecordIdentity)
| RemoveFromRelatedRecords (record : RecordIdentity) (relationship : string)
    (relatedRecord : RecordIdentity)
| ReplaceRelatedRecords (record : RecordIdentity) (relationship : string)
    (relatedRecords : RelData)
| ReplaceRelatedRecord (record : RecordIdentity) (relationship : string)
    (relatedRecord : RelData).

(** [Record | RecordIdentity | null]; [null] is [None]. *)
Definition PatchResultData : Type := option Record_.

Record PatchResult : Type := mkPatchResult {
  inverse : list RecordOperation;
  data : list PatchResultData
}.

Record RelatedRecordIdentity : Type := mkRelated {
  record : RecordIdentity;
  relationship : string
}.

#[global] Instance RelatedRecordIdentity_eq_dec : EqDecision RelatedRecordIdentity.
Proof. solve_decision. Defined.

(** The state a call works on: the two maps of [Cache], its schema, and,
    outside the class, what the calls do to the rest of the program: the
    records pushed to the key map (when there is one), the [patch] events
    emitted, and the next object identity [clone] will allocate. *)
Record Cache : Type := mkCache {
  _schema : Schema.t;
  _keyMap : option (list Record_);
  _records : gmap string (gmap string Record_);
  _inverseRelationships : gmap string (gmap string (list RelatedRecordIdentity));
  emitted : list (RecordOperation * PatchResultData);
  allocator : positive
}.

Definition M (A : Type) : Type := Cache -> outcome (A * Cache).

#[global] Instance M_ret : MRet M := fun A a c => Ok (a, c).
#[global] Instance M_bind : MBind M :=
  fun A B f x c =>
    match x c with
    | Ok (a, c') => f a c'
    | Throw e => Throw e
    | OutOfFuel => OutOfFuel
    end.

(** A read of the cache, which may raise. *)
Definition read {A} (f : Cache -> outcome A) : M A :=
  fun c => match f c with
           | Ok a => Ok (a, c)
           | Throw e => Throw e
           | OutOfFuel => OutOfFuel
           end.

Definition throw {A} (e : error) : M A := fun _ => Throw e.

Definition set_records (f : gmap string (gmap string Record_) ->
                            gmap string (gmap string Record_)) (c : Cache) : Cache :=
  {| _schema := _schema c; _keyMap := _keyMap c; _records := f (_records c);
     _inverseRelationships := _inverseRelationships c;
     emitted := emitted c; allocator := allocator c |}.

Definition set_inverseRelationships
  (f : gmap string (gmap string (list RelatedRecordIdentity)) ->
       gmap string (gmap string (list RelatedRecordIdentity))) (c : Cache) : Cache :=
  {| _schema := _schema c; _keyMap := _keyMap c; _records := _records c;
     _inverseRelationships := f (_inverseRelationships c);
     emitted := emitted c; allocator := allocator c |}.

(** *** The methods of [Cache] *)

Definition getRecord (c : Cache) (identity : RecordIdentity)
  : outcome (option Record_) :=
  match _records c !! type identity with
  | Some bucket => Ok (bucket !! id identity)
  | None => Throw TypeError
  end.

Definition getRecords (c : Cache) (type : string) : outcome (list Record_) :=
  match _records c !! type with
  | Some bucket => Ok (map snd (map_to_list bucket))
  | None => Throw TypeError
  end.

Definition getInverselyRelatedRecords (c : Cache) (recordIdentity : RecordIdentity)
  : outcome (list RelatedRecordIdentity) :=
  match _inverseRelationships c !! type recordIdentity with
  | Some bucket => Ok (default [] (bucket !! id recordIdentity))
  | None => Throw TypeError
  end.

Definition setRecord (record : Record_) : M unit :=
  fun c =>
    match _records c !! type (identity record) with
    | Some bucket =>
        Ok (tt, set_records
                  <[type (identity record) := <[id (identity record) := record]> bucket]> c)
    | None => Throw TypeError
    end.

Definition setRecords (type : string) (records : list Record_) : M unit :=
  fold_right (fun record rest => _ ← setRecord record; rest) (mret tt) records.

Definition removeRecord (recordIdentity : RecordIdentity) : M PatchResultData :=
  fun c =>
    match _records c !! type recordIdentity with
    | Some recordMap =>
        match recordMap !! id recordIdentity with
        | Some record =>
            Ok (Some record,
                set_records
                  <[type recordIdentity := delete (id recordIdentity) recordMap]> c)
        | None => Ok (None, c)
        end
    | None => Throw TypeError
    end.

Definition removeRecords (type : string) (recordIdentities : list RecordIdentity)
  : M (list Record_) :=
  fun c =>
    match _records c !! type with
    | Some recordMap =>
        let found :=
          omap (fun i => (fun r => (id i, r)) <$> recordMap !! id i) recordIdentities in
        Ok (map snd found,
            set_records
              <[type := fold_right (fun k m => delete k m) recordMap (map fst found)]> c)
    | None => Throw TypeError
    end.

Definition addInverselyRelatedRecord (recordIdentity : RecordIdentity)
  (inverseRelationship : RelatedRecordIdentity) : M unit :=
  fun c =>
    match _inverseRelationships c !! type recordIdentity with
    | Some bucket =>
        let rels := default [] (bucket !! id recordIdentity) in
        Ok (tt, set_inverseRelationships
                  <[type recordIdentity :=
                      <[id recordIdentity := rels ++ [inverseRelationship]]> bucket]> c)
    | None => Throw TypeError
    end.

Definition same_related (r inverseRelationship : RelatedRecordIdentity) : bool :=
  String.eqb (type (record r)) (type (record inverseRelationship))
  && String.eqb (id (record r)) (id (record inverseRelationship))
  && String.eqb (relationship r) (relationship inverseRelationship).

Definition removeInverselyRelatedRecord (recordIdentity : RecordIdentity)
  (inverseRelationship : RelatedRecordIdentity) : M unit :=
  fun c =>
    match _inverseRelationships c !! type recordIdentity with
    | Some bucket =>
        match bucket !! id recordIdentity with
        | Some rels =>
            let newRels :=
              List.filter (fun r => negb (same_related r inverseRelationship)) rels in
            Ok (tt, set_inverseRelationships
                      <[type recordIdentity := <[id recordIdentity := newRels]> bucket]> c)
        | None => Ok (tt, c)
        end
    | None => Throw TypeError
    end.

Definition removeInverseRelationships (recordIdentity : RecordIdentity) : M unit :=
  fun c =>
    match _inverseRelationships c !! type recordIdentity with
    | Some bucket =>
        Ok (tt, set_inverseRelationships
                  <[type recordIdentity := delete (id recordIdentity) bucket]> c)
    | None => Throw TypeError
    end.

(** [cache.keyMap.pushRecord(record)] when the cache has a key map. *)
Definition pushRecord (record : Record_) : M unit :=
  fun c =>
    Ok (tt, {| _schema := _schema c;
               _keyMap := (fun pushed => pushed ++ [record]) <$> _keyMap c;
               _records := _records c;
               _inverseRelationships := _inverseRelationships c;
               emitted := emitted c; allocator := allocator c |}).

(** [this.emit('patch', operation, data)] *)
Definition emit (operation : RecordOperation) (data : PatchResultData) : M unit :=
  fun c =>
    Ok (tt, {| _schema := _schema c; _keyMap := _keyMap c; _records := _records c;
               _inverseRelationships := _inverseRelationships c;
               emitted := emitted c ++ [(operation, data)];
               allocator := allocator c |}).

(** *** The derived reads of [SyncRecordAccessor] *)

(** Modelled from the spec: [deepGet] of [@orbit/utils] is not in the
    sources; it reads the value at a path, [undefined] when a segment is
    missing. *)
Definition deepGet_data (record : Record_) (relationship : string) : option RelData :=
  relationships record ≫= (fun rels => rels !! relationship).

Definition deepGet_value (grouping : option (gmap string value)) (field : string)
  : value :=
  default VUndefined (grouping ≫= (fun g => g !! field)).

(** [record && deepGet(record, ['relationships', relationship, 'data'])] *)
Definition currentData (c : Cache) (identity : RecordIdentity) (relationship : string)
  : outcome (option RelData) :=
  record ← getRecord c identity;
  Ok (record ≫= (fun r => deepGet_data r relationship)).

(** [relatedRecord || null] *)
Definition getRelatedRecord (c : Cache) (identity : RecordIdentity)
  (relationship : string) : outcome RelData :=
  relatedRecord ← currentData c identity relationship;
  Ok (default DataNull relatedRecord).

(** [relatedRecords || []]: [undefined] and [null] are the falsy ones. *)
Definition getRelatedRecords (c : Cache) (identity : RecordIdentity)
  (relationship : string) : outcome RelData :=
  relatedRecords ← currentData c identity relationship;
  Ok (match relatedRecords with
      | None | Some DataNull => DataMany []
      | Some d => d
      end).

Definition relatedRecordEquals (c : Cache) (identity : RecordIdentity)
  (relationship : string) (match_ : RelData) : outcome bool :=
  related ← getRelatedRecord c identity relationship;
  Ok (equalRecordIdentities (Some related) (Some match_)).

(** [match] is one identity or an array of identities ([isArray(match)]). *)
Definition relatedRecordsInclude (c : Cache) (identity : RecordIdentity)
  (relationship : string) (match_ : RecordIdentity + list RecordIdentity)
  : outcome bool :=
  match match_ with
  | inr matches =>
      related ← getRelatedRecords c identity relationship;
      exclusive ← exclusiveOfRecordIdentitySet (Some (DataMany matches)) (Some related);
      Ok (bool_decide (length exclusive = 0%nat))
  | inl match_ =>
      related ← getRelatedRecords c identity relationship;
      recordIdentitySetIncludes (Some related) match_
  end.

(** Modelled from the spec: [clone] of [@orbit/utils] applied to a record
    (see [Utils.clone]): the keys, then the attributes, are copied; the
    identities in relationships carry no tracked object identity. *)
Definition clone_grouping (g : option (gmap string value)) (n : positive)
  : option (gmap string value) * positive :=
  match g with
  | Some d => let '(d', n') := Utils.clone_dict d n in (Some d', n')
  | None => (None, n)
  end.

Definition clone_record (record : Record_) : M Record_ :=
  fun c =>
    let '(k, n1) := clone_grouping (keys record) (allocator c) in
    let '(a, n2) := clone_grouping (attributes record) n1 in
    Ok ({| identity := identity record; keys := k; attributes := a;
           relationships := relationships record |},
        {| _schema := _schema c; _keyMap := _keyMap c; _records := _records c;
           _inverseRelationships := _inverseRelationships c;
           emitted := emitted c; allocator := n2 |}).

(** The record with only [type] and [id], as [cloneRecordIdentity] gives
    it. *)
Definition bare (identity : RecordIdentity) : Record_ :=
  {| identity := cloneRecordIdentity identity; keys := None; attributes := None;
     relationships := None |}.

(** Modelled from the spec: [deepSet] of [@orbit/utils] is not in the
    sources ("deep-set"): the groupings on the path are created when missing
    and the value is stored at the end of the path. *)
Definition deepSet_key (record : Record_) (key : string) (v : value) : Record_ :=
  {| identity := identity record;
     keys := Some (<[key := v]> (default ∅ (keys record)));
     attributes := attributes record;
     relationships := relationships record |}.

Definition deepSet_attribute (record : Record_) (attribute : string) (v : value)
  : Record_ :=
  {| identity := identity record;
     keys := keys record;
     attributes := Some (<[attribute := v]> (default ∅ (attributes record)));
     relationships := relationships record |}.

(** For relationship data the callers test what [deepSet] returns, whether
    the stored value changed, judged by [===]: [null] is [null]; the data of
    an operation is taken to be another object than the one stored. *)
Definition deepSet_data (record : Record_) (relationship : string) (d : RelData)
  : bool * Record_ :=
  (negb (bool_decide (deepGet_data record relationship = Some DataNull /\ d = DataNull)),
   {| identity := identity record;
      keys := keys record;
      attributes := attributes record;
      relationships := Some (<[relationship := d]> (default ∅ (relationships record))) |}).

(* ===================================================================== *)
(** ** Inverse patch operators (inverse-patch-operators.ts) *)
(* ===================================================================== *)

(** [eq(current, op.record)] on two records. *)
Definition eq_dict (d1 d2 : option (gmap string value)) : bool :=
  match d1, d2 with
  | None, None => true
  | Some a, Some b =>
      bool_decide (dom a = dom b)
      && forallb (fun '(k, v) => Utils.eq v (default VUndefined (b !! k)))
           (map_to_list a)
  | _, _ => false
  end.

Definition eq_record (a b : Record_) : bool :=
  bool_decide (identity a = identity b)
  && eq_dict (keys a) (keys b)
  && eq_dict (attributes a) (attributes b)
  && bool_decide (relationships a = relationships b).

Module InversePatchOperators.

Definition addRecord (c : Cache) (record : Record_) : outcome (option RecordOperation) :=
  current ← getRecord c (identity record);
  match current with
  | None => Ok (Some (RemoveRecord (cloneRecordIdentity (identity record))))
  | Some current =>
      if eq_record current record then Ok None
      else Ok (Some (ReplaceRecord current))
  end.

(** The fields of [replacement[grouping]] whose value differs from the
    current one, each with the current value, or [null] when that is
    [undefined]. *)
Definition changedFields (replacement current : option (gmap string value))
  : option (gmap string value) :=
  match replacement with
  | Some fields =>
      let changed :=
        map_imap
          (fun field value =>
             let currentValue := deepGet_value current field in
             if Utils.eq value currentValue then None
             else Some (match currentValue with
                        | VUndefined => VNull
                        | _ => currentValue
                        end))
          fields in
      if decide (changed = ∅) then None else Some changed
  | None => None
  end.

Definition changedRelationships (replacement current : Record_)
  : outcome (option (gmap string RelData)) :=
  match relationships replacement with
  | Some fields =>
      changed ←
        foldM
          (fun acc '(field, data) =>
             let currentData := deepGet_data current field in
             relationshipMatch ←
               match data with
               | DataMany _ => equalRecordIdentitySets currentData (Some data)
               | _ => Ok (equalRecordIdentities currentData (Some data))
               end;
             if relationshipMatch : bool then Ok acc
             else Ok (<[field := default DataNull currentData]> acc))
          (map_to_list fields) ∅;
      if decide (changed = ∅) then Ok None else Ok (Some changed)
  | None => Ok None
  end.

Definition replaceRecord (c : Cache) (replacement : Record_)
  : outcome (option RecordOperation) :=
  current ← getRecord c (identity replacement);
  match current with
  | None => Ok (Some (RemoveRecord (cloneRecordIdentity (identity replacement))))
  | Some current =>
      let attrs := changedFields (attributes replacement) (attributes current) in
      let ks := changedFields (keys replacement) (keys current) in
      rels ← changedRelationships replacement current;
      let result := {| identity := cloneRecordIdentity (identity replacement);
                       keys := ks; attributes := attrs; relationships := rels |} in
      if bool_decide (is_Some attrs) || bool_decide (is_Some ks)
         || bool_decide (is_Some rels)
      then Ok (Some (ReplaceRecord result))
      else Ok None
  end.

Definition removeRecord (c : Cache) (record : RecordIdentity)
  : outcome (option RecordOperation) :=
  current ← getRecord c record;
  match current with
  | Some current => Ok (Some (AddRecord current))
  | None => Ok None
  end.

Definition replaceKey (c : Cache) (record : RecordIdentity) (key : string) (v : value)
  : outcome (option RecordOperation) :=
  stored ← getRecord c record;
  let current := match stored with
                 | Some r => deepGet_value (keys r) key
                 | None => VUndefined
                 end in
  if negb (Utils.eq current v)
  then Ok (Some (ReplaceKey (cloneRecordIdentity record) key current))
  else Ok None.

(** [const { type, id } = record] reads the stored record, which is
    [undefined] when there is none. *)
Definition replaceAttribute (c : Cache) (record : RecordIdentity)
  (attribute : string) (v : value) : outcome (option RecordOperation) :=
  stored ← getRecord c record;
  let current := match stored with
                 | Some r => deepGet_value (attributes r) attribute
                 | None => VUndefined
                 end in
  if negb (Utils.eq current v)
  then match stored with
       | Some r =>
           Ok (Some (ReplaceAttribute (cloneRecordIdentity (identity r)) attribute current))
       | None => Throw TypeError
       end
  else Ok None.

Definition addToRelatedRecords (c : Cache) (record : RecordIdentity)
  (relationship : string) (relatedRecord : RecordIdentity)
  : outcome (option RecordOperation) :=
  included ← relatedRecordsInclude c record relationship (inr [relatedRecord]);
  if negb included
  then Ok (Some (RemoveFromRelatedRecords record relationship relatedRecord))
  else Ok None.

Definition removeFromRelatedRecords (c : Cache) (record : RecordIdentity)
  (relationship : string) (relatedRecord : RecordIdentity)
  : outcome (option RecordOperation) :=
  included ← relatedRecordsInclude c record relationship (inl relatedRecord);
  if included : bool
  then Ok (Some (AddToRelatedRecords record relationship relatedRecord))
  else Ok None.

Definition replaceRelatedRecords (c : Cache) (record : RecordIdentity)
  (relationship : string) (relatedRecords : RelData)
  : outcome (option RecordOperation) :=
  currentRelatedRecords ← getRelatedRecords c record relationship;
  same ← equalRecordIdentitySets (Some currentRelatedRecords) (Some relatedRecords);
  if negb same
  then Ok (Some (ReplaceRelatedRecords record relationship currentRelatedRecords))
  else Ok None.

Definition replaceRelatedRecord (c : Cache) (record : RecordIdentity)
  (relationship : string) (relatedRecord : RelData)
  : outcome (option RecordOperation) :=
  currentRelatedRecord ← getRelatedRecord c record relationship;
  if negb (equalRecordIdentities (Some currentRelatedRecord) (Some relatedRecord))
  then Ok (Some (ReplaceRelatedRecord record relationship currentRelatedRecord))
  else Ok None.

(** [InversePatchOperators[operation.op]] applied to the operation. *)
Definition apply (c : Cache) (op : RecordOperation) : outcome (option RecordOperation) :=
  match op with
  | AddRecord r => addRecord c r
  | ReplaceRecord r => replaceRecord c r
  | RemoveRecord r => removeRecord c r
  | ReplaceKey r k v => replaceKey c r k v
  | ReplaceAttribute r a v => replaceAttribute c r a v
  | AddToRelatedRecords r rel x => addToRelatedRecords c r rel x
  | RemoveFromRelatedRecords r rel x => removeFromRelatedRecords c r rel x
  | ReplaceRelatedRecords r rel xs => replaceRelatedRecords c r rel xs
  | ReplaceRelatedRecord r rel x => replaceRelatedRecord c r rel x
  end.

End InversePatchOperators.

(* ===================================================================== *)
(** ** Patch operators (patch-operators.ts) *)
(* ===================================================================== *)

Module PatchOperators.

(** [if (cache.keyMap) cache.keyMap.pushRecord(record)]; [pushRecord]
    does nothing when the cache has no key map. *)

Definition addRecord (record : Record_) : M PatchResultData :=
  _ ← setRecord record;
  _ ← pushRecord record;
  mret (Some record).

Definition replaceRecord (record : Record_) : M PatchResultData :=
  currentRecord ← read (fun c => getRecord c (identity record));
  let mergedRecord := mergeRecords currentRecord record in
  _ ← setRecord mergedRecord;
  _ ← pushRecord mergedRecord;
  mret (Some mergedRecord).

Definition removeRecord (record : RecordIdentity) : M PatchResultData :=
  removeRecord record.

(** [record ? clone(record) : cloneRecordIdentity(op.record)] *)
Definition cloneOrBare (stored : option Record_) (identity : RecordIdentity)
  : M Record_ :=
  match stored with
  | Some r => clone_record r
  | None => mret (bare identity)
  end.

Definition replaceKey (identity : RecordIdentity) (key : string) (v : value)
  : M PatchResultData :=
  stored ← read (fun c => getRecord c identity);
  record ← cloneOrBare stored identity;
  let record := deepSet_key record key v in
  _ ← setRecord record;
  _ ← pushRecord record;
  mret (Some record).

Definition replaceAttribute (identity : RecordIdentity) (attribute : string)
  (v : value) : M PatchResultData :=
  stored ← read (fun c => getRecord c identity);
  record ← cloneOrBare stored identity;
  let record := deepSet_attribute record attribute v in
  _ ← setRecord record;
  mret (Some record).

(** [deepGet(...) || []] followed by [push]: an identity object is truthy
    and has no [push]. *)
Definition addToRelatedRecords (identity : RecordIdentity) (relationship : string)
  (relatedRecord : RecordIdentity) : M PatchResultData :=
  stored ← read (fun c => getRecord c identity);
  record ← cloneOrBare stored identity;
  match deepGet_data record relationship with
  | Some (DataOne _) => throw TypeError
  | data =>
      let relatedRecords := match data with
                            | Some (DataMany rs) => rs
                            | _ => []
                            end in
      let record :=
        snd (deepSet_data record relationship (DataMany (relatedRecords ++ [relatedRecord]))) in
      _ ← setRecord record;
      mret (Some record)
  end.

(** [if (relatedRecords)] is taken for an identity object too, which has
    no [filter]. *)
Definition removeFromRelatedRecords (identity : RecordIdentity)
  (relationship : string) (relatedRecord : RecordIdentity) : M PatchResultData :=
  stored ← read (fun c => getRecord c identity);
  match stored with
  | Some record =>
      record ← clone_record record;
      match deepGet_data record relationship with
      | Some (DataMany relatedRecords) =>
          let relatedRecords :=
            List.filter
              (fun r => negb (equalRecordIdentities (Some (DataOne r))
                                (Some (DataOne relatedRecord))))
              relatedRecords in
          let '(changed, record) :=
            deepSet_data record relationship (DataMany relatedRecords) in
          _ ← (if changed then setRecord record else mret tt);
          mret (Some record)
      | Some (DataOne _) => throw TypeError
      | Some DataNull | None => mret (Some record)
      end
  | None => mret None
  end.

Definition replaceRelatedRecords (identity : RecordIdentity) (relationship : string)
  (relatedRecords : RelData) : M PatchResultData :=
  stored ← read (fun c => getRecord c identity);
  record ← cloneOrBare stored identity;
  let '(changed, record) := deepSet_data record relationship relatedRecords in
  _ ← (if changed then setRecord record else mret tt);
  mret (Some record).

Definition replaceRelatedRecord (identity : RecordIdentity) (relationship : string)
  (relatedRecord : RelData) : M PatchResultData :=
  stored ← read (fun c => getRecord c identity);
  record ← cloneOrBare stored identity;
  let '(changed, record) := deepSet_data record relationship relatedRecord in
  _ ← (if changed then setRecord record else mret tt);
  mret (Some record).

(** [PatchOperators[operation.op]] applied to the operation. *)
Definition apply (op : RecordOperation) : M PatchResultData :=
  match op with
  | AddRecord r => addRecord r
  | ReplaceRecord r => replaceRecord r
  | RemoveRecord r => removeRecord r
  | ReplaceKey r k v => replaceKey r k v
  | ReplaceAttribute r a v => replaceAttribute r a v
  | AddToRelatedRecords r rel x => addToRelatedRecords r rel x
  | RemoveFromRelatedRecords r rel x => removeFromRelatedRecords r rel x
  | ReplaceRelatedRecords r rel xs => replaceRelatedRecords r rel xs
  | ReplaceRelatedRecord r rel x => replaceRelatedRecord r rel x
  end.

End PatchOperators.

(* ===================================================================== *)
(** ** Operation processors *)
(* ===================================================================== *)

(** The hooks of a [SyncOperationProcessor].  [validate] checks and may
    raise; [before], [after] and [finally] return operations to apply;
    [immediate] is run for its effect. *)
Record SyncOperationProcessor : Type := mkProcessor {
  validate : Cache -> RecordOperation -> outcome unit;
  before : RecordOperation -> M (list RecordOperation);
  after : RecordOperation -> M (list RecordOperation);
  immediate : RecordOperation -> M unit;
  finally : RecordOperation -> M (list RecordOperation)
}.

(** [forEach] over a list, for its effect. *)
Fixpoint forEach {A} (f : A -> M unit) (l : list A) : M unit :=
  match l with
  | [] => mret tt
  | a :: l' => _ ← f a; forEach f l'
  end.

(** [map] with a function that works on the cache. *)
Fixpoint mapM_ {A B} (f : A -> M B) (l : list A) : M (list B) :=
  match l with
  | [] => mret []
  | a :: l' => b ← f a; bs ← mapM_ f l'; mret (b :: bs)
  end.

(** [relationshipDef.inverse] as a condition: a non-empty name. *)
Definition hasInverse (def : Schema.RelationshipDefinition) : bool :=
  match Schema.inverse def with
  | Some name => negb (String.eqb name "")
  | None => false
  end.

Definition relationshipDef (rec : RecordIdentity) (relationship : string)
  : M Schema.RelationshipDefinition :=
  read (fun c => Schema.relationshipDef (_schema c) (type rec) relationship).

Module CacheIntegrityProcessor.

(** [this.cache.removeInverseRelationships], the method of the cache, as
    opposed to the processor's own [removeInverseRelationships] below. *)
Local Abbreviation cache_removeInverseRelationships := removeInverseRelationships.

(** An inverse relationship is filed under the [type] and [id] of the
    related record; an array has neither, and the bucket looked up for it
    is [undefined]. *)
Definition onRelated (f : RecordIdentity -> M unit) (related : RelData) : M unit :=
  match related with
  | DataOne r => f r
  | DataMany _ => throw TypeError
  | DataNull => mret tt
  end.

Definition addInverseRelationship (rec : RecordIdentity) (relationship : string)
  (relatedRecord : RelData) : M unit :=
  match relatedRecord with
  | DataNull => mret tt
  | _ =>
      def ← relationshipDef rec relationship;
      if hasInverse def then
        onRelated
          (fun r => addInverselyRelatedRecord r
                      (mkRelated (cloneRecordIdentity rec) relationship))
          relatedRecord
      else mret tt
  end.

(** [relatedRecords && relatedRecords.length > 0] *)
Definition addInverseRelationships (rec : RecordIdentity) (relationship : string)
  (relatedRecords : RelData) : M unit :=
  match relatedRecords with
  | DataMany (r :: rs) =>
      def ← relationshipDef rec relationship;
      if hasInverse def then
        forEach
          (fun relatedRecord =>
             addInverselyRelatedRecord relatedRecord
               (mkRelated (cloneRecordIdentity rec) relationship))
          (r :: rs)
      else mret tt
  | _ => mret tt
  end.

(** One relationship of [addAllInverseRelationships] and
    [removeAllInverseRelationships]: the data, when truthy, is an array of
    related records or one related record. *)
Definition eachRelated (f : RecordIdentity -> M unit) (relationshipData : RelData)
  : M unit :=
  match relationshipData with
  | DataNull => mret tt
  | DataMany relatedRecords => forEach f relatedRecords
  | DataOne relatedRecord => f relatedRecord
  end.

Definition addAllInverseRelationships (rec : Record_) : M unit :=
  let recordIdentity := cloneRecordIdentity (identity rec) in
  match relationships rec with
  | Some rels =>
      forEach
        (fun '(relationship, relationshipData) =>
           eachRelated
             (fun relatedRecord =>
                addInverselyRelatedRecord relatedRecord
                  (mkRelated recordIdentity relationship))
             relationshipData)
        (map_to_list rels)
  | None => mret tt
  end.

(** [relatedRecord] absent in the call is [None]; it is then read from the
    cache. *)
Definition removeInverseRelationship (rec : RecordIdentity) (relationship : string)
  (relatedRecord : option RecordIdentity) : M unit :=
  def ← relationshipDef rec relationship;
  if hasInverse def then
    match relatedRecord with
    | Some r => removeInverselyRelatedRecord r (mkRelated rec relationship)
    | None =>
        current ← read (fun c => currentData c rec relationship);
        match current with
        | Some d =>
            onRelated (fun r => removeInverselyRelatedRecord r
                                  (mkRelated rec relationship)) d
        | None => mret tt
        end
    end
  else mret tt.

(** [after] calls it without [relatedRecords], which are then read from
    the cache; a truthy value that is not an array has no [forEach]. *)
Definition removeInverseRelationships (rec : RecordIdentity) (relationship : string)
  : M unit :=
  def ← relationshipDef rec relationship;
  if hasInverse def then
    current ← read (fun c => currentData c rec relationship);
    match current with
    | Some (DataMany relatedRecords) =>
        forEach
          (fun relatedRecord =>
             removeInverselyRelatedRecord relatedRecord (mkRelated rec relationship))
          relatedRecords
    | Some (DataOne _) => throw TypeError
    | Some DataNull | None => mret tt
    end
  else mret tt.

Definition removeAllInverseRelationships (rec : RecordIdentity) : M unit :=
  stored ← read (fun c => rels ← getRecord c rec; Ok (rels ≫= relationships));
  _ ← match stored with
      | Some rels =>
          forEach
            (fun '(relationship, relationshipData) =>
               eachRelated
                 (fun relatedRecord =>
                    removeInverselyRelatedRecord relatedRecord
                      (mkRelated rec relationship))
                 relationshipData)
            (map_to_list rels)
      | None => mret tt
      end;
  cache_removeInverseRelationships rec.

Definition clearInverseRelationshipOps (rec : RecordIdentity)
  : M (list RecordOperation) :=
  inverseRels ← read (fun c => getInverselyRelatedRecords c rec);
  let recordIdentity := cloneRecordIdentity rec in
  mapM_
    (fun rel =>
       def ← relationshipDef (record rel) (relationship rel);
       match Schema.type def with
       | Schema.hasMany =>
           mret (RemoveFromRelatedRecords (record rel) (relationship rel) recordIdentity)
       | Schema.hasOne =>
           mret (ReplaceRelatedRecord (record rel) (relationship rel) DataNull)
       end)
    inverseRels.

Definition after (operation : RecordOperation) : M (list RecordOperation) :=
  match operation with
  | ReplaceRelatedRecord rec relationship _ =>
      _ ← removeInverseRelationship rec relationship None;
      mret []
  | ReplaceRelatedRecords rec relationship _ =>
      _ ← removeInverseRelationships rec relationship;
      mret []
  | RemoveFromRelatedRecords rec relationship relatedRecord =>
      _ ← removeInverseRelationship rec relationship (Some relatedRecord);
      mret []
  | RemoveRecord rec =>
      ops ← clearInverseRelationshipOps rec;
      _ ← removeAllInverseRelationships rec;
      mret ops
  | ReplaceRecord rec =>
      _ ← removeAllInverseRelationships (identity rec);
      mret []
  | _ => mret []
  end.

Definition finally (operation : RecordOperation) : M (list RecordOperation) :=
  match operation with
  | ReplaceRelatedRecord rec relationship relatedRecord =>
      _ ← addInverseRelationship rec relationship relatedRecord;
      mret []
  | ReplaceRelatedRecords rec relationship relatedRecords =>
      _ ← addInverseRelationships rec relationship relatedRecords;
      mret []
  | AddToRelatedRecords rec relationship relatedRecord =>
      _ ← addInverseRelationship rec relationship (DataOne relatedRecord);
      mret []
  | AddRecord rec =>
      _ ← addAllInverseRelationships rec;
      mret []
  | ReplaceRecord rec =>
      _ ← addAllInverseRelationships rec;
      mret []
  | _ => mret []
  end.

(** Modelled from the spec: the base class [SyncOperationProcessor] is not
    in the sources; the hooks a processor does not define do nothing
    ("Other hooks: no-op"). *)
Definition processor : SyncOperationProcessor :=
  mkProcessor (fun _ _ => Ok tt) (fun _ => mret []) after (fun _ => mret tt) finally.

End CacheIntegrityProcessor.

Module SchemaValidationProcessor.

(** Modelled from the spec: schema-validation-processor.ts is not in the
    sources.  "For every identity the op references, verify its type is
    declared.  For replaceRecord/addRecord verify every mentioned
    key/attribute/relationship name is declared on the model.  Violations
    fail with SchemaValidationError."  "Other hooks: no-op." *)

Definition declared (c : Cache) (identity : RecordIdentity) : bool :=
  bool_decide (is_Some (Schema.models (_schema c) !! type identity)).

Definition declaredData (c : Cache) (d : RelData) : bool :=
  match d with
  | DataNull => true
  | DataOne r => declared c r
  | DataMany rs => forallb (declared c) rs
  end.

Definition mentioned {V} (grouping : option (gmap string V)) : list string :=
  match grouping with
  | Some fields => map fst (map_to_list fields)
  | None => []
  end.

Definition declaredFields (c : Cache) (rec : Record_) : bool :=
  match Schema.models (_schema c) !! type (identity rec) with
  | Some m =>
      forallb (fun k => bool_decide (k ∈ Schema.keys m)) (mentioned (keys rec))
      && forallb (fun a => bool_decide (a ∈ Schema.attributes m))
           (mentioned (attributes rec))
      && forallb (fun r => bool_decide (is_Some (Schema.relationships m !! r)))
           (mentioned (relationships rec))
  | None => false
  end.

Definition valid (c : Cache) (operation : RecordOperation) : bool :=
  match operation with
  | AddRecord rec | ReplaceRecord rec => declaredFields c rec
  | RemoveRecord rec | ReplaceKey rec _ _ | ReplaceAttribute rec _ _ => declared c rec
  | AddToRelatedRecords rec _ related | RemoveFromRelatedRecords rec _ related =>
      declared c rec && declared c related
  | ReplaceRelatedRecords rec _ related | ReplaceRelatedRecord rec _ related =>
      declared c rec && declaredData c related
  end.

Definition validate (c : Cache) (operation : RecordOperation) : outcome unit :=
  if valid c operation then Ok tt else Throw SchemaValidationError.

Definition processor : SyncOperationProcessor :=
  mkProcessor validate (fun _ => mret []) (fun _ => mret []) (fun _ => mret tt)
    (fun _ => mret []).

End SchemaValidationProcessor.

Module SchemaConsistencyProcessor.

(** Modelled from the spec: schema-consistency-processor.ts is not in the
    sources.  The processor "maintains inverse-relationship symmetry by
    injecting operations that propagate a change on side A to side B"; the
    operations are computed from the state before the main mutation and
    returned from [after], except the removal for [replaceRelatedRecord],
    which the spec places "before applying". *)

(** The identities of some relationship data, as a list. *)
Definition recordArray (d : option RelData) : list RecordIdentity :=
  match d with
  | Some (DataOne r) => [r]
  | Some (DataMany rs) => rs
  | _ => []
  end.

Definition sameIdentity (a b : RecordIdentity) : bool :=
  equalRecordIdentities (Some (DataOne a)) (Some (DataOne b)).

(** Identity-set difference. *)
Definition difference (xs ys : list RecordIdentity) : list RecordIdentity :=
  List.filter (fun x => negb (existsb (sameIdentity x) ys)) xs.

(** "inject addToRelatedRecords(related, R', record) or
    replaceRelatedRecord(related, R', record) depending on R''s kind" *)
Definition addOp (related : RecordIdentity) (inverseName : string)
  (rec : RecordIdentity) : M RecordOperation :=
  def ← relationshipDef related inverseName;
  match Schema.type def with
  | Schema.hasMany => mret (AddToRelatedRecords related inverseName rec)
  | Schema.hasOne => mret (ReplaceRelatedRecord related inverseName (DataOne rec))
  end.

(** "the dual removal / replaceRelatedRecord(related, R', null)" *)
Definition removeOp (related : RecordIdentity) (inverseName : string)
  (rec : RecordIdentity) : M RecordOperation :=
  def ← relationshipDef related inverseName;
  match Schema.type def with
  | Schema.hasMany => mret (RemoveFromRelatedRecords related inverseName rec)
  | Schema.hasOne => mret (ReplaceRelatedRecord related inverseName DataNull)
  end.

(** The operations for one relationship [R] of [rec] whose related records
    go from [old] to [new]: removals for [old \ new], additions for
    [new \ old]; none when [R] has no declared inverse. *)
Definition removals (rec : RecordIdentity) (relationship : string)
  (old new : list RecordIdentity) : M (list RecordOperation) :=
  def ← relationshipDef rec relationship;
  match Schema.inverse def with
  | Some inverseName =>
      if hasInverse def
      then mapM_ (fun related => removeOp related inverseName rec) (difference old new)
      else mret []
  | None => mret []
  end.

Definition additions (rec : RecordIdentity) (relationship : string)
  (old new : list RecordIdentity) : M (list RecordOperation) :=
  def ← relationshipDef rec relationship;
  match Schema.inverse def with
  | Some inverseName =>
      if hasInverse def
      then mapM_ (fun related => addOp related inverseName rec) (difference new old)
      else mret []
  | None => mret []
  end.

Definition propagate (rec : RecordIdentity) (relationship : string)
  (old new : list RecordIdentity) : M (list RecordOperation) :=
  removed ← removals rec relationship old new;
  added ← additions rec relationship old new;
  mret (removed ++ added).

Definition current (rec : RecordIdentity) (relationship : string)
  : M (list RecordIdentity) :=
  read (fun c => d ← currentData c rec relationship; Ok (recordArray d)).

(** "for each relationship declared on record.type with inverse, compute
    the delta vs prior state": [new] gives the related records the
    operation leaves in a relationship, from the prior ones. *)
Definition recordDelta (rec : RecordIdentity)
  (new : string -> list RecordIdentity -> list RecordIdentity)
  : M (list RecordOperation) :=
  m ← read (fun c => Schema.getModel (_schema c) (type rec));
  opss ← mapM_
           (fun '(relationship, _) =>
              old ← current rec relationship;
              propagate rec relationship old (new relationship old))
           (map_to_list (Schema.relationships m));
  mret (concat opss).

Definition before (operation : RecordOperation) : M (list RecordOperation) :=
  match operation with
  | ReplaceRelatedRecord rec relationship related =>
      old ← current rec relationship;
      removals rec relationship old (recordArray (Some related))
  | _ => mret []
  end.

Definition after (operation : RecordOperation) : M (list RecordOperation) :=
  match operation with
  | AddToRelatedRecords rec relationship related =>
      additions rec relationship [] [related]
  | RemoveFromRelatedRecords rec relationship related =>
      removals rec relationship [related] []
  | ReplaceRelatedRecord rec relationship related =>
      old ← current rec relationship;
      additions rec relationship old (recordArray (Some related))
  | ReplaceRelatedRecords rec relationship related =>
      old ← current rec relationship;
      propagate rec relationship old (recordArray (Some related))
  | AddRecord rec =>
      recordDelta (identity rec)
        (fun relationship _ => recordArray (deepGet_data rec relationship))
  | ReplaceRecord rec =>
      recordDelta (identity rec)
        (fun relationship old =>
           match deepGet_data rec relationship with
           | Some d => recordArray (Some d)
           | None => old
           end)
  | RemoveRecord rec =>
      recordDelta rec (fun _ _ => [])
  | _ => mret []
  end.

Definition processor : SyncOperationProcessor :=
  mkProcessor (fun _ _ => Ok tt) before after (fun _ => mret tt) (fun _ => mret []).

End SchemaConsistencyProcessor.

(* ===================================================================== *)
(** ** The patch pipeline ([SyncRecordCache]) *)
(* ===================================================================== *)

(** [forEach] threading the patch result through the applications. *)
Fixpoint foldlM {A B} (f : B -> A -> M B) (l : list A) (b : B) : M B :=
  match l with
  | [] => mret b
  | a :: l' => b' ← f b a; foldlM f l' b'
  end.

Definition pushInverse (result : PatchResult) (op : RecordOperation) : PatchResult :=
  {| inverse := inverse result ++ [op]; data := data result |}.

Definition pushData (result : PatchResult) (d : PatchResultData) : PatchResult :=
  {| inverse := inverse result; data := data result ++ [d] |}.

Section Pipeline.

(** [this._processors] *)
Variable processors : list SyncOperationProcessor.

(** [_applyOperation] calls itself through [_applyOperations] on the
    operations the processors return; [fuel] bounds the depth of these
    calls, and [OutOfFuel] is the answer when it is used up.  The [result]
    object, which the source updates in place, is passed and returned. *)
Fixpoint _applyOperation (fuel : nat) (operation : RecordOperation)
  (result : PatchResult) (primary : bool) {struct fuel} : M PatchResult :=
  match fuel with
  | O => fun _ => OutOfFuel
  | S fuel =>
      let applyAll (opss : list (list RecordOperation)) (result : PatchResult) :=
        foldlM
          (fun result ops =>
             foldlM (fun result op => _applyOperation fuel op result false) ops result)
          opss result in
      _ ← forEach (fun p => read (fun c => validate p c operation)) processors;
      inverseOp ← read (fun c => InversePatchOperators.apply c operation);
      match inverseOp with
      | Some inverseOp =>
          let result := pushInverse result inverseOp in
          befores ← mapM_ (fun p => before p operation) processors;
          result ← applyAll befores result;
          preparedOps ← mapM_ (fun p => after p operation) processors;
          data ← PatchOperators.apply operation;
          let result := if primary then pushData result data else result in
          _ ← forEach (fun p => immediate p operation) processors;
          _ ← emit operation data;
          result ← applyAll preparedOps result;
          finals ← mapM_ (fun p => finally p operation) processors;
          applyAll finals result
      | None => mret (if primary then pushData result None else result)
      end
  end.

Definition _applyOperations (fuel : nat) (ops : list RecordOperation)
  (result : PatchResult) (primary : bool) : M PatchResult :=
  foldlM (fun result op => _applyOperation fuel op result primary) ops result.

(** [patch] on one operation ([inl]) or an array of operations ([inr]). *)
Definition patch (fuel : nat)
  (operationOrOperations : RecordOperation + list RecordOperation) : M PatchResult :=
  let result := {| inverse := []; data := [] |} in
  result ← match operationOrOperations with
           | inr ops => _applyOperations fuel ops result true
           | inl op => _applyOperation fuel op result true
           end;
  mret {| inverse := reverse (inverse result); data := data result |}.

End Pipeline.

(** The processors of a cache built without the [processors] setting. *)
Definition defaultProcessors : list SyncOperationProcessor :=
  [SchemaValidationProcessor.processor;
   SchemaConsistencyProcessor.processor;
   CacheIntegrityProcessor.processor].

(* ===================================================================== *)
(** ** Query operators (query-operators.ts) *)
(* ===================================================================== *)

Inductive Filter : Type :=
| AttributeFilter (attribute : string) (op : string) (value : value)
| RelatedRecordsFilter (relation : string) (op : string) (records : list RecordIdentity)
| RelatedRecordFilter (relation : string) (op : string) (record : RelData)
| OtherFilter (kind : string).

Record SortSpecifier : Type := mkSort {
  kind : string;
  sortAttribute : string;
  order : string
}.

(** [{ offset?, limit? }] *)
Record PageSpecifier : Type := mkPage {
  offset : option Z;
  limit : option Z
}.

Record FindRecords : Type := mkFindRecords {
  findType : string;
  filter : option (list Filter);
  sort : option (list SortSpecifier);
  page : option PageSpecifier
}.

Inductive QueryExpression : Type :=
| FindRecord (record : RecordIdentity)
| FindRecordsExpression (expression : FindRecords)
| FindRelatedRecord (record : RecordIdentity) (relationship : string)
| FindRelatedRecords (record : RecordIdentity) (relationship : string).

(** What a query returns: one record or [null]/[undefined] ([None]), or a
    sequence whose entries may be [undefined]. *)
Inductive QueryResult : Type :=
| OneRecord (r : option Record_)
| ManyRecords (rs : list (option Record_)).

(** [Array.prototype.slice(start, end)] on integer arguments. *)
Definition slice {A} (l : list A) (start end_ : Z) : list A :=
  let len := Z.of_nat (length l) in
  let k := if start <? 0 then Z.max (len + start) 0 else Z.min start len in
  let final := if end_ <? 0 then Z.max (len + end_) 0 else Z.min end_ len in
  firstn (Z.to_nat (Z.max (final - k) 0)) (skipn (Z.to_nat k) l).

Module QueryOperators.
Section Native.

(** Two primitives of JavaScript are parameters: the Abstract Relational
    Comparison [x < y] of ECMAScript, whose answer is [true], [false] or
    [undefined] ([None], when a [NaN] is involved), and
    [Array.prototype.sort] with a comparison function. *)
Variable lessThan : value -> value -> option bool.
Variable nativeSort : forall A : Type, (A -> A -> Z) -> list A -> list A.

(** The four relational operators, as ECMAScript derives them. *)
Definition lt (a b : value) : bool := default false (lessThan a b).
Definition gt (a b : value) : bool := default false (lessThan b a).
Definition lte (a b : value) : bool :=
  match lessThan b a with
  | Some false => true
  | _ => false
  end.
Definition gte (a b : value) : bool :=
  match lessThan a b with
  | Some false => true
  | _ => false
  end.

Definition findRecord (c : Cache) (rec : RecordIdentity) : outcome Record_ :=
  currentRecord ← getRecord c rec;
  match currentRecord with
  | Some r => Ok r
  | None => Throw RecordNotFoundException
  end.

(** [actual.some(a => a.id === e.id && a.type === e.type)]: [actual] must
    be an array. *)
Definition someMatches (actual : RelData) (e : RecordIdentity) : outcome bool :=
  match actual with
  | DataMany rs =>
      Ok (existsb (fun a => String.eqb (id a) (id e) && String.eqb (type a) (type e)) rs)
  | _ => Throw TypeError
  end.

(** [expected.every(e => ...)] and [expected.some(e => ...)], which stop
    at the first answer that decides. *)
Fixpoint every {A} (f : A -> outcome bool) (l : list A) : outcome bool :=
  match l with
  | [] => Ok true
  | a :: l' => b ← f a; if b : bool then every f l' else Ok false
  end.

Fixpoint some {A} (f : A -> outcome bool) (l : list A) : outcome bool :=
  match l with
  | [] => Ok false
  | a :: l' => b ← f a; if b : bool then Ok true else some f l'
  end.

Definition applyFilter (rec : Record_) (filter : Filter) : outcome bool :=
  match filter with
  | AttributeFilter attribute op expected =>
      let actual := deepGet_value (attributes rec) attribute in
      if String.eqb op "equal" then Ok (Utils.strict_eq actual expected)
      else if String.eqb op "gt" then Ok (gt actual expected)
      else if String.eqb op "gte" then Ok (gte actual expected)
      else if String.eqb op "lt" then Ok (lt actual expected)
      else if String.eqb op "lte" then Ok (lte actual expected)
      else Throw QueryExpressionParseError
  | RelatedRecordsFilter relation op expected =>
      let actual := default (DataMany []) (deepGet_data rec relation) in
      if String.eqb op "equal" then
        len ← data_length (Some actual);
        if decide (len = Some (length expected))
        then every (someMatches actual) expected
        else Ok false
      else if String.eqb op "all" then every (someMatches actual) expected
      else if String.eqb op "some" then some (someMatches actual) expected
      else if String.eqb op "none" then
        found ← some (someMatches actual) expected; Ok (negb found)
      else Throw QueryExpressionParseError
  | RelatedRecordFilter relation op expected =>
      let actual := deepGet_data rec relation in
      if String.eqb op "equal" then
        match actual with
        | None => Ok false
        | Some actual =>
            (* [actual.type === e.type && actual.id === e.id] *)
            let same (e : RecordIdentity) : outcome bool :=
              match actual with
              | DataNull => Throw TypeError
              | DataOne a => Ok (String.eqb (type a) (type e) && String.eqb (id a) (id e))
              | DataMany _ => Ok false
              end in
            match expected with
            | DataMany es => some same es
            | DataOne e => same e
            | DataNull => Throw TypeError
            end
        end
      else Throw QueryExpressionParseError
  | OtherFilter _ => Ok false
  end.

Fixpoint filterRecords (records : list Record_) (filters : list Filter)
  : outcome (list Record_) :=
  match records with
  | [] => Ok []
  | rec :: records' =>
      keep ← every (applyFilter rec) filters;
      rest ← filterRecords records' filters;
      Ok (if keep : bool then rec :: rest else rest)
  end.

(** The values a record is compared by, one per sort specifier. *)
Fixpoint comparisonValues (rec : Record_) (sortSpecifiers : list SortSpecifier)
  : outcome (list value) :=
  match sortSpecifiers with
  | [] => Ok []
  | s :: rest =>
      if String.eqb (kind s) "attribute" then
        vs ← comparisonValues rec rest;
        Ok (deepGet_value (attributes rec) (sortAttribute s) :: vs)
      else Throw QueryExpressionParseError
  end.

Fixpoint withComparisonValues (records : list Record_)
  (sortSpecifiers : list SortSpecifier) : outcome (list (Record_ * list value)) :=
  match records with
  | [] => Ok []
  | rec :: records' =>
      vs ← comparisonValues rec sortSpecifiers;
      rest ← withComparisonValues records' sortSpecifiers;
      Ok ((rec, vs) :: rest)
  end.

Definition comparisonOrders (sortSpecifiers : list SortSpecifier) : list Z :=
  map (fun s => if String.eqb (order s) "descending" then (-1)%Z else 1%Z)
    sortSpecifiers.

(** The comparison function: the first specifier that tells the two
    records apart decides. *)
Fixpoint compareValues (values1 values2 : list value) (orders : list Z) : Z :=
  match values1, values2, orders with
  | v1 :: values1', v2 :: values2', o :: orders' =>
      if lt v1 v2 then (- o)%Z
      else if gt v1 v2 then o
      else if Utils.isNone v1 && negb (Utils.isNone v2) then o
      else if Utils.isNone v2 && negb (Utils.isNone v1) then (- o)%Z
      else compareValues values1' values2' orders'
  | _, _, _ => 0%Z
  end.

Definition sortRecords (records : list Record_) (sortSpecifiers : list SortSpecifier)
  : outcome (list Record_) :=
  keyed ← withComparisonValues records sortSpecifiers;
  let orders := comparisonOrders sortSpecifiers in
  Ok (map fst
        (nativeSort _
           (fun p1 p2 => compareValues (snd p1) (snd p2) orders) keyed)).

Definition paginateRecords (records : list Record_)
  (paginationOptions : PageSpecifier) : outcome (list Record_) :=
  match limit paginationOptions with
  | Some limit =>
      let offset := default 0%Z (offset paginationOptions) in
      Ok (slice records offset (offset + limit))
  | None => Throw QueryExpressionParseError
  end.

Definition findRecords (c : Cache) (expression : FindRecords)
  : outcome (list Record_) :=
  results ← getRecords c (findType expression);
  results ← match filter expression with
            | Some filters => filterRecords results filters
            | None => Ok results
            end;
  results ← match sort expression with
            | Some specifiers => sortRecords results specifiers
            | None => Ok results
            end;
  match page expression with
  | Some p => paginateRecords results p
  | None => Ok results
  end.

Definition findRelatedRecords (c : Cache) (rec : RecordIdentity)
  (relationship : string) : outcome (list (option Record_)) :=
  relatedIds ← getRelatedRecords c rec relationship;
  match relatedIds with
  | DataMany ids => foldM (fun acc i => r ← getRecord c i; Ok (acc ++ [r])) ids []
  | _ => Throw TypeError
  end.

(** [cache.getRecord(relatedId)] on a truthy [relatedId]; an array has no
    [type], and the bucket looked up for it is [undefined]. *)
Definition findRelatedRecord (c : Cache) (rec : RecordIdentity)
  (relationship : string) : outcome (option Record_) :=
  relatedId ← getRelatedRecord c rec relationship;
  match relatedId with
  | DataOne r => getRecord c r
  | DataMany _ => Throw TypeError
  | DataNull => Ok None
  end.

(** [QueryOperators[expression.op]] applied to the expression. *)
Definition _query (c : Cache) (expression : QueryExpression) : outcome QueryResult :=
  match expression with
  | FindRecord rec => r ← findRecord c rec; Ok (OneRecord (Some r))
  | FindRecordsExpression e => rs ← findRecords c e; Ok (ManyRecords (map Some rs))
  | FindRelatedRecord rec rel => r ← findRelatedRecord c rec rel; Ok (OneRecord r)
  | FindRelatedRecords rec rel => rs ← findRelatedRecords c rec rel; Ok (ManyRecords rs)
  end.

End Native.
End QueryOperators.

(* ===================================================================== *)
(** ** An example schema and cache *)
(* ===================================================================== *)

Module Example.

(** The schema of the scenarios: planets with moons and a solar system. *)
Definition planet : Schema.ModelDefinition :=
  Schema.mkModel ["remoteId"] ["name"; "classification"; "revised"; "order"; "tags"]
    (<["moons" := Schema.mkRelationship Schema.hasMany "moon" (Some "planet")]>
       (<["solarSystem" :=
            Schema.mkRelationship Schema.hasOne "solarSystem" (Some "planets")]> ∅)).

Definition moon : Schema.ModelDefinition :=
  Schema.mkModel [] ["name"]
    (<["planet" := Schema.mkRelationship Schema.hasOne "planet" (Some "moons")]> ∅).

Definition solarSystem : Schema.ModelDefinition :=
  Schema.mkModel [] ["name"]
    (<["planets" :=
         Schema.mkRelationship Schema.hasMany "planet" (Some "solarSystem")]> ∅).

Definition schema : Schema.t :=
  Schema.mkSchema
    (<["planet" := planet]> (<["moon" := moon]> (<["solarSystem" := solarSystem]> ∅))).

(** A cache after construction: an empty bucket per model of the schema. *)
Definition emptyCache (schema : Schema.t) : Cache :=
  {| _schema := schema;
     _keyMap := Some [];
     _records := (fun _ => ∅) <$> Schema.models schema;
     _inverseRelationships := (fun _ => ∅) <$> Schema.models schema;
     emitted := [];
     allocator := 1%positive |}.

Definition jupiter : RecordIdentity := mkIdentity "planet" "jupiter".
Definition io : RecordIdentity := mkIdentity "moon" "io".
Definition europa : RecordIdentity := mkIdentity "moon" "europa".

(** The state a call leaves, the starting one if it raises. *)
Definition stateAfter {A} (m : M A) (c : Cache) : Cache :=
  match m c with
  | Ok (_, c') => c'
  | _ => c
  end.

(** The cache of the schema holding the given records. *)
Definition cacheOf (schema : Schema.t) (records : list Record_) : Cache :=
  stateAfter (forEach setRecord records) (emptyCache schema).

(** Comparison of numbers and of strings by [<]; [undefined] and the
    other mixed cases, which convert to numbers, are left without an
    answer here. *)
Definition lessThan (a b : value) : option bool :=
  match a, b with
  | VNum x, VNum y => Some (x <? y)%Z
  | VStr x, VStr y => Some (bool_decide (String.ltb x y = true))
  | _, _ => None
  end.

(** A stable insertion sort for [Array.prototype.sort]: [x] goes before
    the first element that does not compare below it. *)
Fixpoint insert {A} (cmp : A -> A -> Z) (x : A) (l : list A) : list A :=
  match l with
  | [] => [x]
  | y :: l' => if (cmp y x <? 0)%Z then y :: insert cmp x l' else x :: y :: l'
  end.

Definition insertionSort (A : Type) (cmp : A -> A -> Z) (l : list A) : list A :=
  fold_right (insert cmp) [] l.

End Example.

(* ===================================================================== *)
(** * Properties *)
(* ===================================================================== *)

(** ** The derived reads of the accessor *)

Lemma currentData_absent c identity relationship :
  getRecord c identity = Ok None ->
  currentData c identity relationship = Ok None.
Proof. intros H. unfold currentData. rewrite H. reflexivity. Qed.

Lemma currentData_present c identity relationship r :
  getRecord c identity = Ok (Some r) ->
  currentData c identity relationship = Ok (deepGet_data r relationship).
Proof. intros H. unfold currentData. rewrite H. reflexivity. Qed.



(** ** Queries *)

Section QueryProperties.

Variable lessThan : value -> value -> option bool.
Variable nativeSort : forall A : Type, (A -> A -> Z) -> list A -> list A.

(** The record stored for an identity, when its bucket exists. *)
Definition stored (c : Cache) (i : RecordIdentity) : option Record_ :=
  _records c !! type i ≫= (fun bucket => bucket !! id i).

Lemma getRecord_answers c i r : getRecord c i = Ok r -> stored c i = r.
Proof.
  unfold getRecord, stored. destruct (_records c !! type i); cbn; congruence.
Qed.




(** *** Filters *)

(** [===] on two values: primitives of the same type by value, arrays by
    the identity of the object, values of different types never. *)
Lemma strict_eq_spec a b :
  Utils.strict_eq a b = true <->
  match a, b with
  | VArr r _, VArr s _ => r = s
  | VArr _ _, _ | _, VArr _ _ => False
  | _, _ => a = b
  end.
Proof.
  destruct a, b; cbn; try (split; [discriminate | done || discriminate]);
    try (split; [done | done]).
  - rewrite Bool.eqb_true_iff. split; congruence.
  - rewrite Z.eqb_eq. split; congruence.
  - rewrite String.eqb_eq. split; congruence.
  - destruct r, r0; cbn; rewrite ?Pos.eqb_eq; split; congruence.
Qed.

(** C5, amended.  An attribute filter reads the attribute of the record
    and compares it to the expected value: with [equal] by [===], which
    holds for equal primitives and for one and the same object only; with
    [gt], [gte], [lt] and [lte] by the native relational operators; any
    other operator raises [QueryExpressionParseError]. *)
Theorem applyFilter_attribute rec attribute expected :
  let actual := deepGet_value (attributes rec) attribute in
  let apply op :=
    QueryOperators.applyFilter lessThan rec (AttributeFilter attribute op expected) in
  apply "equal" = Ok (Utils.strict_eq actual expected)
  /\ (apply "equal" = Ok true <->
      match actual, expected with
      | VArr r _, VArr s _ => r = s
      | VArr _ _, _ | _, VArr _ _ => False
      | _, _ => actual = expected
      end)
  /\ apply "gt" = Ok (QueryOperators.gt lessThan actual expected)
  /\ apply "gte" = Ok (QueryOperators.gte lessThan actual expected)
  /\ apply "lt" = Ok (QueryOperators.lt lessThan actual expected)
  /\ apply "lte" = Ok (QueryOperators.lte lessThan actual expected)
  /\ forall op, op ∉ ["equal"; "gt"; "gte"; "lt"; "lte"] ->
             apply op = Throw QueryExpressionParseError.
Proof.
  cbn zeta. repeat split; try reflexivity.
  - cbn. intros [= H]. by apply strict_eq_spec.
  - cbn. intros H. f_equal. by apply strict_eq_spec.
  - intros op Hop. cbn.
    repeat match goal with
           | |- context [String.eqb op ?s] =>
               destruct (String.eqb_spec op s) as [->|_];
               [exfalso; apply Hop; set_solver|]
           end.
    reflexivity.
Qed.

(** *** Pagination *)

Definition unpaged (e : FindRecords) : FindRecords :=
  {| findType := findType e; filter := filter e; sort := sort e; page := None |}.

Lemma findRecords_unpaged c e :
  QueryOperators.findRecords lessThan nativeSort c e
  = results ← QueryOperators.findRecords lessThan nativeSort c (unpaged e);
    match page e with
    | Some p => QueryOperators.paginateRecords results p
    | None => Ok results
    end.
Proof.
  unfold QueryOperators.findRecords. cbn.
  destruct (getRecords c (findType e)) as [results| |]; cbn; try reflexivity.
  destruct (match filter e with Some _ => _ | None => _ end) as [filtered| |];
    cbn; try reflexivity.
  destruct (match sort e with Some _ => _ | None => _ end) as [sorted| |];
    cbn; reflexivity.
Qed.

Lemma slice_nonnegative {A} (l : list A) (o n : Z) :
  (0 <= o)%Z -> (0 <= n)%Z ->
  slice l o (o + n) = firstn (Z.to_nat n) (skipn (Z.to_nat o) l).
Proof.
  intros Ho Hn. unfold slice.
  destruct (Z.ltb_spec o 0); [lia|]. destruct (Z.ltb_spec (o + n) 0); [lia|].
  set (len := Z.of_nat (length l)).
  destruct (Z.le_gt_cases len o) as [Hle|Hgt].
  - rewrite !skipn_all2 by lia. by rewrite !firstn_nil.
  - rewrite (Z.min_l o len) by lia.
    destruct (Z.le_gt_cases (o + n) len).
    + rewrite (Z.min_l (o + n) len) by lia. f_equal. lia.
    + rewrite (Z.min_r (o + n) len) by lia.
      rewrite !firstn_all2; [done| |]; rewrite length_skipn; lia.
Qed.

(** C8, amended.  For a [findRecords] expression with a page specifier
    whose filtered and sorted sequence [rs] is computed without error: the
    evaluator raises [QueryExpressionParseError] when the page has no
    limit; with a limit it returns [rs.slice(offset, offset + limit)],
    [offset] being 0 when absent, and for a non-negative offset and limit
    this is the run of at most [limit] records of [rs] that starts at
    position [offset]. *)
Theorem findRecords_page c e p rs :
  page e = Some p ->
  QueryOperators.findRecords lessThan nativeSort c (unpaged e) = Ok rs ->
  match limit p with
  | None =>
      QueryOperators.findRecords lessThan nativeSort c e
      = Throw QueryExpressionParseError
  | Some n =>
      let o := default 0%Z (offset p) in
      QueryOperators.findRecords lessThan nativeSort c e = Ok (slice rs o (o + n))
      /\ ((0 <= o)%Z -> (0 <= n)%Z ->
          slice rs o (o + n) = firstn (Z.to_nat n) (skipn (Z.to_nat o) rs)
          /\ (Z.of_nat (length (slice rs o (o + n))) <= n)%Z)
  end.
Proof.
  intros Hp Hrs. rewrite findRecords_unpaged, Hrs, Hp. cbn.
  unfold QueryOperators.paginateRecords.
  destruct (limit p) as [n|]; [|reflexivity].
  cbn zeta. split; [reflexivity|].
  intros Ho Hn. rewrite (slice_nonnegative _ _ _ Ho Hn). split; [reflexivity|].
  rewrite length_firstn. lia.
Qed.

End QueryProperties.

(** The claim of C5 fails: two arrays with the same items are deeply equal,
    and the [equal] filter does not take one for the other. *)
Lemma equal_filter_is_not_deep_equality :
  let tags := VArr (Given 1) [VNum 1; VNum 2] in
  let expected := VArr (Given 2) [VNum 1; VNum 2] in
  let rec := mkRecord Example.jupiter None (Some {["tags" := tags]}) None in
  Utils.eq (deepGet_value (attributes rec) "tags") expected = true
  /\ QueryOperators.applyFilter Example.lessThan rec
       (AttributeFilter "tags" "equal" expected)
     = Ok false.
Proof. split; reflexivity. Qed.

Module PageExample.

Definition planet (name : string) (order : Z) : Record_ :=
  mkRecord (mkIdentity "planet" name) None (Some {["order" := VNum order]}) None.

Definition cache : Cache :=
  Example.cacheOf Example.schema [planet "a" 5; planet "b" 1; planet "c" 3].

Definition query (o n : option Z) : FindRecords :=
  {| findType := "planet";
     filter := None;
     sort := Some [mkSort "attribute" "order" "ascending"];
     page := Some (mkPage o n) |}.

Definition run (e : FindRecords) : outcome (list Record_) :=
  QueryOperators.findRecords Example.lessThan Example.insertionSort cache e.

End PageExample.

(** Scenario 6: three planets of order 5, 1 and 3, sorted by ascending order
    and paged with offset 1 and limit 1: the planet of order 3. *)
Lemma findRecords_page_witness :
  PageExample.run (PageExample.query (Some 1%Z) (Some 1%Z))
  = Ok [PageExample.planet "c" 3].
Proof.
  pose proof (findRecords_page Example.lessThan Example.insertionSort
                PageExample.cache (PageExample.query (Some 1%Z) (Some 1%Z))
                (mkPage (Some 1%Z) (Some 1%Z))
                [PageExample.planet "b" 1; PageExample.planet "c" 3;
                 PageExample.planet "a" 5]
                eq_refl eq_refl) as [H _].
  exact H.
Defined.

(** The claim of C8 fails for a negative limit: [slice(0, -1)] is the
    sequence without its last record, which is longer than the limit. *)
Lemma page_with_negative_limit :
  PageExample.run (PageExample.query None (Some (-1)%Z))
  = Ok [PageExample.planet "b" 1; PageExample.planet "c" 3]
  /\ ~ (Z.of_nat (length [PageExample.planet "b" 1; PageExample.planet "c" 3])
        <= -1)%Z.
Proof. split; [reflexivity | cbn; lia]. Qed.

(** ** The patch pipeline *)

Lemma bind_Ok {A B} (m : M A) (f : A -> M B) c a c' :
  m c = Ok (a, c') -> (m ≫= f) c = f a c'.
Proof. intros H. unfold mbind, M_bind. by rewrite H. Qed.


Lemma read_Ok {A} (f : Cache -> outcome A) c a : f c = Ok a -> read f c = Ok (a, c).
Proof. intros H. unfold read. by rewrite H. Qed.


Section PipelineProperties.

Variable processors : list SyncOperationProcessor.

(** Every processor accepts the operation in the state [c]. *)
Definition accepted (c : Cache) (op : RecordOperation) : Prop :=
  Forall (fun p => validate p c op = Ok tt) processors.

Lemma validate_accepted c op :
  accepted c op ->
  forEach (fun p => read (fun c => validate p c op)) processors c = Ok (tt, c).
Proof.
  unfold accepted. induction 1 as [|p ps Hp _ IH]; cbn; [reflexivity|].
  by rewrite (bind_Ok _ _ _ _ _ (read_Ok _ _ _ Hp)).
Qed.

(** An operation without an inverse in the current state is skipped: the
    call returns at once, in the same state. *)
Lemma applyOperation_skip fuel op result primary c :
  accepted c op ->
  InversePatchOperators.apply c op = Ok None ->
  _applyOperation processors (S fuel) op result primary c
  = Ok (if primary then pushData result None else result, c).
Proof.
  intros Hvalid Hinverse. cbn.
  rewrite (bind_Ok _ _ _ _ _ (validate_accepted _ _ Hvalid)).
  rewrite (bind_Ok _ _ _ _ _ (read_Ok _ _ _ Hinverse)).
  reflexivity.
Qed.

(** C3.  When the inverse-patch operator returns nothing for an operation
    that the processors accept, [_applyOperation] returns without running
    anything else: whatever the [before], [after], [immediate] and
    [finally] hooks of the processors are, the state is the one before the
    call (the record store, the inverse index, and no [patch] event, which
    the main operator would be followed by), [result.inverse] is as it
    was, and [null] is appended to [result.data] exactly when the
    operation is primary. *)
Theorem operation_without_inverse_is_skipped fuel op result primary c :
  accepted c op ->
  InversePatchOperators.apply c op = Ok None ->
  exists result' c',
    _applyOperation processors (S fuel) op result primary c = Ok (result', c')
    /\ c' = c
    /\ inverse result' = inverse result
    /\ data result' = (if primary then data result ++ [None] else data result).
Proof.
  intros Hvalid Hinverse.
  exists (if primary then pushData result None else result), c.
  split; [by apply applyOperation_skip|].
  destruct primary; repeat split.
Qed.

Lemma inverse_removeFromRelatedRecords_absent c rec relationship relatedRecord :
  getRecord c rec = Ok None ->
  InversePatchOperators.removeFromRelatedRecords c rec relationship relatedRecord
  = Ok None.
Proof.
  intros Habsent.
  unfold InversePatchOperators.removeFromRelatedRecords, relatedRecordsInclude,
    getRelatedRecords.
  rewrite (currentData_absent _ _ _ Habsent). reflexivity.
Qed.

(** C7.  In a state where the record is absent, [patch] with
    [removeFromRelatedRecords(id, rel, related)], which the processors
    accept, raises no error and returns the same state: no record is
    created, the inverse is empty and the data is [null]; [findRecord] of
    the identity then raises [RecordNotFoundException]. *)
Theorem removeFromRelatedRecords_of_absent_record fuel c rec relationship relatedRecord :
  let op := RemoveFromRelatedRecords rec relationship relatedRecord in
  accepted c op ->
  getRecord c rec = Ok None ->
  exists c',
    patch processors (S fuel) (inl op) c = Ok ({| inverse := []; data := [None] |}, c')
    /\ c' = c
    /\ getRecord c' rec = Ok None
    /\ QueryOperators.findRecord c' rec = Throw RecordNotFoundException.
Proof.
  intros op Hvalid Habsent. exists c.
  repeat split; [|done|].
  - unfold patch.
    rewrite (bind_Ok _ _ _ _ _
               (applyOperation_skip fuel op _ true c Hvalid
                  (inverse_removeFromRelatedRecords_absent _ _ _ _ Habsent))).
    reflexivity.
  - unfold QueryOperators.findRecord. by rewrite Habsent.
Qed.

End PipelineProperties.

Lemma operation_without_inverse_is_skipped_witness :
  exists result' c',
    _applyOperation defaultProcessors 1
      (ReplaceKey Example.jupiter "remoteId" VUndefined)
      {| inverse := []; data := [] |} true (Example.emptyCache Example.schema)
    = Ok (result', c')
    /\ c' = Example.emptyCache Example.schema
    /\ inverse result' = []
    /\ data result' = [None].
Proof.
  apply (operation_without_inverse_is_skipped defaultProcessors 0
           (ReplaceKey Example.jupiter "remoteId" VUndefined)
           {| inverse := []; data := [] |} true (Example.emptyCache Example.schema)).
  - repeat constructor.
  - reflexivity.
Defined.

(** Scenario 3: [removeFromRelatedRecords] against an empty store. *)
Lemma removeFromRelatedRecords_of_absent_record_witness :
  exists c',
    patch defaultProcessors 1
      (inl (RemoveFromRelatedRecords Example.jupiter "moons" (mkIdentity "moon" "moon2")))
      (Example.emptyCache Example.schema)
    = Ok ({| inverse := []; data := [None] |}, c')
    /\ c' = Example.emptyCache Example.schema
    /\ getRecord c' Example.jupiter = Ok None
    /\ QueryOperators.findRecord c' Example.jupiter = Throw RecordNotFoundException.
Proof.
  apply (removeFromRelatedRecords_of_absent_record defaultProcessors 0
           (Example.emptyCache Example.schema) Example.jupiter "moons"
           (mkIdentity "moon" "moon2")).
  - repeat constructor.
  - reflexivity.
Defined.

(** ** The inverse of [replaceAttribute] *)

Lemma inverse_replaceAttribute_absent c rec attribute v :
  getRecord c rec = Ok None ->
  Utils.eq VUndefined v = false ->
  InversePatchOperators.replaceAttribute c rec attribute v = Throw TypeError.
Proof.
  intros Habsent Hdiffers. unfold InversePatchOperators.replaceAttribute.
  rewrite Habsent. destruct v; cbn in *; done.
Qed.

(** C6.  [replaceAttribute] on a record that is absent, with a value other
    than [undefined]: the inverse operator does not return, it raises
    [TypeError] where it reads [type] and [id] of the stored record, and so
    does [patch]; [replaceKey], which reads them from the operation, returns
    its inverse in the same state. *)
Theorem inverse_replaceAttribute_of_absent_record_raises :
  let c := Example.emptyCache Example.schema in
  InversePatchOperators.replaceAttribute c Example.jupiter "name" (VStr "Jupiter")
  = Throw TypeError
  /\ patch defaultProcessors 5
       (inl (ReplaceAttribute Example.jupiter "name" (VStr "Jupiter"))) c
     = Throw TypeError
  /\ InversePatchOperators.replaceKey c Example.jupiter "remoteId" (VStr "j")
     = Ok (Some (ReplaceKey Example.jupiter "remoteId" VUndefined)).
Proof. repeat split; reflexivity. Qed.

(** ** The patch operators *)

(** The value of a field of a grouping, when the grouping has it. *)
Definition field {V} (grouping : option (gmap string V)) (name : string) : option V :=
  grouping ≫= (fun g => g !! name).

Lemma getRecord_setRecord c rec :
  is_Some (_records c !! type (identity rec)) ->
  exists c',
    setRecord rec c = Ok (tt, c')
    /\ getRecord c' (identity rec) = Ok (Some rec)
    /\ (forall i, i <> identity rec -> getRecord c' i = getRecord c i)
    /\ _inverseRelationships c' = _inverseRelationships c
    /\ _schema c' = _schema c.
Proof.
  intros [bucket Hbucket]. unfold setRecord. rewrite Hbucket.
  eexists. split; [reflexivity|]. unfold getRecord. cbn.
  repeat split.
  - by rewrite lookup_insert_eq, lookup_insert_eq.
  - intros [t i] Hne. cbn.
    destruct (decide (type (identity rec) = t)) as [<-|Ht].
    + rewrite lookup_insert_eq, Hbucket. rewrite lookup_insert_ne; [done|].
      intros <-. apply Hne. by destruct (identity rec).
    + by rewrite lookup_insert_ne.
Qed.

Lemma getRecord_pushRecord c rec :
  exists c',
    pushRecord rec c = Ok (tt, c') /\ _records c' = _records c
    /\ _inverseRelationships c' = _inverseRelationships c.
Proof. eexists. repeat split. Qed.

Lemma getRecord_bucket c i r : getRecord c i = Ok r -> is_Some (_records c !! type i).
Proof. unfold getRecord. destruct (_records c !! type i); [eauto | discriminate]. Qed.

Lemma field_mergeGrouping {V} (current updates : option (gmap string V)) name :
  field (mergeGrouping current updates) name
  = match field updates name with
    | Some v => Some v
    | None => field current name
    end.
Proof.
  destruct current as [cur|], updates as [upd|]; cbn; unfold merge; cbn.
  - rewrite lookup_union, lookup_union, lookup_empty.
    destruct (upd !! name), (cur !! name); reflexivity.
  - rewrite lookup_union, lookup_empty. by destruct (cur !! name).
  - rewrite lookup_union, lookup_empty. by destruct (upd !! name).
  - reflexivity.
Qed.

(** C4.  [replaceRecord(r)] stores, as the record of [r]'s identity, the
    merge of [r] into the existing record: in each of [attributes], [keys]
    and [relationships] a field that [r] mentions has [r]'s value and every
    other field keeps the existing value; when no record exists, [r] itself
    is stored.  The other records of the store are left as they are.  (The
    existing record is the one stored under its own identity.) *)
Theorem replaceRecord_stores_merge c r current :
  getRecord c (identity r) = Ok current ->
  (forall cur, current = Some cur -> identity cur = identity r) ->
  exists stored c',
    PatchOperators.replaceRecord r c = Ok (Some stored, c')
    /\ getRecord c' (identity r) = Ok (Some stored)
    /\ (forall i, i <> identity r -> getRecord c' i = getRecord c i)
    /\ match current with
       | None => stored = r
       | Some cur =>
           forall name,
             field (attributes stored) name
             = match field (attributes r) name with
               | Some v => Some v
               | None => field (attributes cur) name
               end
             /\ field (keys stored) name
                = match field (keys r) name with
                  | Some v => Some v
                  | None => field (keys cur) name
                  end
             /\ field (relationships stored) name
                = match field (relationships r) name with
                  | Some v => Some v
                  | None => field (relationships cur) name
                  end
       end.
Proof.
  intros Hcurrent Hidentity.
  set (merged := mergeRecords current r).
  assert (identity merged = identity r) as Hmerged.
  { subst merged. destruct current as [cur|]; cbn; [|done].
    rewrite <- (Hidentity cur eq_refl). by destruct (identity cur). }
  destruct (getRecord_setRecord c merged) as (c1 & Hset & Hget & Hframe & _).
  { rewrite Hmerged. by eapply getRecord_bucket. }
  destruct (getRecord_pushRecord c1 merged) as (c2 & Hpush & Hrecords & _).
  exists merged, c2. unfold PatchOperators.replaceRecord.
  rewrite (bind_Ok _ _ _ _ _ (read_Ok _ _ _ Hcurrent)).
  fold merged. rewrite (bind_Ok _ _ _ _ _ Hset), (bind_Ok _ _ _ _ _ Hpush).
  split; [reflexivity|].
  assert (forall i, getRecord c2 i = getRecord c1 i) as Hsame.
  { intros i. unfold getRecord. by rewrite Hrecords. }
  repeat split.
  - by rewrite Hsame, <- Hmerged.
  - intros i Hne. rewrite Hsame. apply Hframe. by rewrite Hmerged.
  - subst merged. destruct current as [cur|]; [|reflexivity].
    intros name. cbn [mergeRecords attributes keys relationships].
    by rewrite !field_mergeGrouping.
Qed.

(** Scenario 2: Jupiter with a name and a moon, replaced by a record with a
    classification and a solar system. *)
Lemma replaceRecord_stores_merge_witness :
  let existing :=
    mkRecord Example.jupiter None (Some {["name" := VStr "Jupiter"]})
      (Some {["moons" := DataMany [mkIdentity "moon" "moon1"]]}) in
  let r :=
    mkRecord Example.jupiter None (Some {["classification" := VStr "gas giant"]})
      (Some {["solarSystem" := DataOne (mkIdentity "solarSystem" "ss1")]}) in
  exists stored c',
    PatchOperators.replaceRecord r (Example.cacheOf Example.schema [existing])
    = Ok (Some stored, c')
    /\ field (attributes stored) "name" = Some (VStr "Jupiter")
    /\ field (attributes stored) "classification" = Some (VStr "gas giant")
    /\ field (relationships stored) "moons" = Some (DataMany [mkIdentity "moon" "moon1"])
    /\ field (relationships stored) "solarSystem"
       = Some (DataOne (mkIdentity "solarSystem" "ss1")).
Proof.
  intros existing r.
  destruct (replaceRecord_stores_merge
              (Example.cacheOf Example.schema [existing]) r (Some existing))
    as (stored & c' & Hrun & _ & _ & Hfields).
  - reflexivity.
  - by intros cur [= <-].
  - exists stored, c'. split; [exact Hrun|].
    repeat split.
    + by rewrite (proj1 (Hfields "name")).
    + by rewrite (proj1 (Hfields "classification")).
    + by rewrite (proj2 (proj2 (Hfields "moons"))).
    + by rewrite (proj2 (proj2 (Hfields "solarSystem"))).
Defined.

(** ** Copies and deep equality *)

(** Induction on values, with the items of an array. *)
Lemma value_nested_ind (P : value -> Prop) :
  P VUndefined -> P VNull -> (forall b, P (VBool b)) -> (forall n, P (VNum n)) ->
  (forall s, P (VStr s)) ->
  (forall r items, Forall P items -> P (VArr r items)) ->
  forall v, P v.
Proof.
  intros Hu Hn Hb Hz Hs Ha. fix IH 1.
  intros [| |b|n|s|r items];
    [exact Hu | exact Hn | apply Hb | apply Hz | apply Hs | apply Ha].
  induction items as [|x items IHitems]; constructor; [apply IH | exact IHitems].
Qed.

Lemma same_structure_erase a b :
  Utils.same_structure a b = true <-> Utils.erase a = Utils.erase b.
Proof.
  revert b. induction a as [| |x|x|x|r xs IH] using value_nested_ind;
    intros [| |y|y|y|s ys]; cbn; try (split; [discriminate | done || discriminate]);
    try (split; done).
  - rewrite Bool.eqb_true_iff. split; congruence.
  - rewrite Z.eqb_eq. split; congruence.
  - rewrite String.eqb_eq. split; congruence.
  - transitivity (map Utils.erase xs = map Utils.erase ys); [|split; congruence].
    revert ys. induction IH as [|x xs Hx _ IHxs]; intros [|y ys]; cbn;
      try (split; [discriminate | done || discriminate]); [done|].
    rewrite andb_true_iff, Hx, IHxs. split; [intros [-> ->]; done | intros [=]; done].
Qed.

Lemma eq_erase a b : Utils.eq a b = true <-> Utils.erase a = Utils.erase b.
Proof. apply same_structure_erase. Qed.

Lemma erase_clone v n : Utils.erase (Utils.clone v n).1 = Utils.erase v.
Proof.
  revert n. induction v as [| |x|x|x|r xs IH] using value_nested_ind; intros n;
    try reflexivity.
  cbn.
  match goal with
  | |- context [(fix go (xs : list value) (n : positive) {struct xs} := _) xs ?m] =>
      generalize m
  end.
  intros m.
  assert (forall m,
             map Utils.erase
               ((fix go (xs : list value) (n : positive) {struct xs}
                   : list value * positive :=
                   match xs with
                   | [] => ([], n)
                   | x :: xs' =>
                       let '(x', n1) := Utils.clone x n in
                       let '(xs'', n2) := go xs' n1 in (x' :: xs'', n2)
                   end) xs m).1
             = map Utils.erase xs) as Hitems.
  { clear m. induction IH as [|x xs Hx _ IHxs]; intros m; [reflexivity|].
    specialize (Hx m). destruct (Utils.clone x m) as [x' n1]. cbn in Hx.
    specialize (IHxs n1).
    destruct ((fix go (xs : list value) (n : positive) {struct xs}
                 : list value * positive :=
                 match xs with
                 | [] => ([], n)
                 | x :: xs' =>
                     let '(x', n1) := Utils.clone x n in
                     let '(xs'', n2) := go xs' n1 in (x' :: xs'', n2)
                 end) xs n1) as [xs'' n2].
    cbn in *. by rewrite Hx, IHxs. }
  specialize (Hitems m).
  destruct ((fix go (xs : list value) (n : positive) {struct xs}
               : list value * positive :=
               match xs with
               | [] => ([], n)
               | x :: xs' =>
                   let '(x', n1) := Utils.clone x n in
                   let '(xs'', n2) := go xs' n1 in (x' :: xs'', n2)
               end) xs m) as [items' n'].
  cbn in *. by rewrite Hitems.
Qed.

Definition erase_dict (d : gmap string value) : gmap string value :=
  Utils.erase <$> d.

Lemma erase_clone_dict d n : erase_dict (Utils.clone_dict d n).1 = erase_dict d.
Proof.
  unfold Utils.clone_dict, erase_dict.
  rewrite <- (list_to_map_to_list d) at 2.
  induction (map_to_list d) as [|[k v] l IH]; cbn.
  - by rewrite fmap_empty.
  - destruct (fold_right _ _ l) as [acc m]. cbn in IH.
    pose proof (erase_clone v m) as Hv. destruct (Utils.clone v m) as [v' m'].
    cbn in *. by rewrite !fmap_insert, Hv, IH.
Qed.

(** The record with the identities of the objects in its keys and
    attributes forgotten. *)
Definition erase_record (r : Record_) : Record_ :=
  {| identity := identity r;
     keys := erase_dict <$> keys r;
     attributes := erase_dict <$> attributes r;
     relationships := relationships r |}.

Lemma erase_clone_grouping g n :
  erase_dict <$> (clone_grouping g n).1 = erase_dict <$> g.
Proof.
  destruct g as [d|]; [|reflexivity]. unfold clone_grouping.
  pose proof (erase_clone_dict d n) as Hd.
  destruct (Utils.clone_dict d n) as [d' n']. cbn [fst] in *.
  change (Some (erase_dict d') = Some (erase_dict d)). by rewrite Hd.
Qed.

Lemma clone_record_spec rec c :
  exists rec' n,
    clone_record rec c
    = Ok (rec', {| _schema := _schema c; _keyMap := _keyMap c; _records := _records c;
                   _inverseRelationships := _inverseRelationships c;
                   emitted := emitted c; allocator := n |})
    /\ erase_record rec' = erase_record rec.
Proof.
  unfold clone_record.
  pose proof (erase_clone_grouping (keys rec) (allocator c)) as Hk.
  destruct (clone_grouping (keys rec) (allocator c)) as [k n1].
  pose proof (erase_clone_grouping (attributes rec) n1) as Ha.
  destruct (clone_grouping (attributes rec) n1) as [a n2].
  eexists _, _. split; [reflexivity|].
  unfold erase_record. cbn [identity keys attributes relationships fst] in *.
  by rewrite Hk, Ha.
Qed.

(** ** Operations no processor reacts to *)

(** The processor returns no operation for [op] and does nothing else. *)
Definition quiet (op : RecordOperation) (p : SyncOperationProcessor) : Prop :=
  before p op = mret [] /\ after p op = mret []
  /\ immediate p op = mret tt /\ finally p op = mret [].

(** The state with the [patch] event of an operation recorded. *)
Definition withEvent (operation : RecordOperation) (d : PatchResultData) (c : Cache)
  : Cache :=
  {| _schema := _schema c; _keyMap := _keyMap c; _records := _records c;
     _inverseRelationships := _inverseRelationships c;
     emitted := emitted c ++ [(operation, d)];
     allocator := allocator c |}.

Section Quiet.

Variable processors : list SyncOperationProcessor.
Variable op : RecordOperation.
Hypothesis Hquiet : Forall (quiet op) processors.





End Quiet.

(** ** Undoing replacements of keys and attributes *)



Lemma getRecord_stored c i rec : stored c i = Some rec -> getRecord c i = Ok (Some rec).
Proof.
  unfold stored, getRecord. destruct (_records c !! type i); cbn; [congruence|done].
Qed.

Lemma cloneRecordIdentity_id i : cloneRecordIdentity i = i.
Proof. by destruct i. Qed.





























Lemma foldlM_app {A B} (f : B -> A -> M B) l1 l2 b c :
  foldlM f (l1 ++ l2) b c
  = match foldlM f l1 b c with
    | Ok (b', c') => foldlM f l2 b' c'
    | Throw e => Throw e
    | OutOfFuel => OutOfFuel
    end.
Proof.
  revert b c. induction l1 as [|a l1 IH]; intros b c; [reflexivity|].
  cbn [app foldlM]. unfold mbind, M_bind.
  destruct (f b a c) as [[b' c']| |]; [apply IH|reflexivity|reflexivity].
Qed.

Lemma applyOperations_one processors fuel op result primary c :
  _applyOperations processors fuel [op] result primary c
  = _applyOperation processors fuel op result primary c.
Proof.
  unfold _applyOperations. cbn [foldlM]. unfold mbind, M_bind.
  by destruct (_applyOperation processors fuel op result primary c) as [[b' c']| |].
Qed.


(** *** What the reads return, objects in keys and attributes aside *)










Module UndoExample.

(** Jupiter with a name and a remote id. *)
Definition jupiter : Record_ :=
  mkRecord Example.jupiter (Some {["remoteId" := VStr "j"]})
    (Some {["name" := VStr "Jupiter"]}) None.

Definition cache : Cache := Example.cacheOf Example.schema [jupiter].





End UndoExample.



(** ** Removing a record *)

Module RemovalExample.

(** Moons name their planet through [planet], whose declared inverse is
    [moons]; [moons] itself declares no inverse. *)
Definition planet : Schema.ModelDefinition :=
  Schema.mkModel ["remoteId"] ["name"]
    {["moons" := Schema.mkRelationship Schema.hasMany "moon" None]}.

Definition schema : Schema.t :=
  Schema.mkSchema (<["planet" := planet]> {["moon" := Example.moon]}).

Definition jupiter : Record_ := mkRecord Example.jupiter None None None.

Definition io : Record_ :=
  mkRecord Example.io None None (Some {["planet" := DataOne Example.jupiter]}).


Definition after (processors : list SyncOperationProcessor)
  (operations : list RecordOperation) (c : Cache) : Cache :=
  Example.stateAfter (patch processors 10 (inr operations)) c.


(** Jupiter and Io added, with the default processors. *)
Definition added : Cache :=
  after defaultProcessors [AddRecord jupiter; AddRecord io] (Example.emptyCache schema).


(** The same with the schema of the scenarios, where [moons] and [planet]
    are each other's inverse, and the cache integrity processor alone. *)
Definition added' : Cache :=
  after [CacheIntegrityProcessor.processor] [AddRecord jupiter; AddRecord io]
    (Example.emptyCache Example.schema).


End RemovalExample.


(** ** Removing the references to a record *)

(** [a] names [x] in the data of its relationship [R]. *)
Definition names (c : Cache) (a : RecordIdentity) (R : string) (x : RecordIdentity)
  : Prop :=
  exists rec,
    stored c a = Some rec
    /\ match deepGet_data rec R with
       | Some (DataOne y) => y = x
       | Some (DataMany ys) => x ∈ ys
       | _ => False
       end.

(** The back-references filed under [y] in the inverse index. *)
Definition backrefs (c : Cache) (y : RecordIdentity) : list RelatedRecordIdentity :=
  default [] (_inverseRelationships c !! type y ≫= (fun bucket => bucket !! id y)).

(** Every record is stored under its own identity. *)
Definition wellKeyed (c : Cache) : Prop :=
  forall a rec, stored c a = Some rec -> identity rec = a.

(** The operations that take references away: they remove an identity from
    a hasMany relationship or set a hasOne relationship to [null]. *)
Definition removal (op : RecordOperation) : Prop :=
  match op with
  | RemoveFromRelatedRecords _ _ _ => True
  | ReplaceRelatedRecord _ _ DataNull => True
  | _ => False
  end.

(** What a removal leaves: its record no longer names the identity
    removed, or, for a hasOne relationship, any identity. *)
Definition cleared (op : RecordOperation) (c : Cache) : Prop :=
  match op with
  | RemoveFromRelatedRecords a R x => ~ names c a R x
  | ReplaceRelatedRecord a R _ => forall y, ~ names c a R y
  | _ => True
  end.

(** From [c] to [c'] no reference and no back-reference is added. *)
Record shrinks (c c' : Cache) : Prop := mkShrinks {
  shrinks_keyed : wellKeyed c';
  shrinks_schema : _schema c' = _schema c;
  shrinks_names : forall a R y, names c' a R y -> names c a R y;
  shrinks_backrefs : forall y r, r ∈ backrefs c' y -> r ∈ backrefs c y
}.

Lemma shrinks_refl c : wellKeyed c -> shrinks c c.
Proof. by constructor. Qed.

Lemma shrinks_trans c1 c2 c3 : shrinks c1 c2 -> shrinks c2 c3 -> shrinks c1 c3.
Proof.
  intros [? H1 H2 H3] [? H1' H2' H3']. constructor; [done|congruence|auto|auto].
Qed.

Lemma cleared_shrinks op c c' : cleared op c -> shrinks c c' -> cleared op c'.
Proof.
  intros Hc [_ _ Hnames _]. destruct op; cbn in *; try done.
  - intros H. by apply Hc, Hnames.
  - intros y H. by apply (Hc y), Hnames.
Qed.

(** The records and the index as they are in another state. *)
Lemma shrinks_same c c' :
  wellKeyed c -> _schema c' = _schema c -> _records c' = _records c ->
  _inverseRelationships c' = _inverseRelationships c ->
  shrinks c c'.
Proof.
  intros Hkeyed Hs Hr Hi.
  assert (forall a, stored c' a = stored c a) as Hstored
      by (intros a; unfold stored; by rewrite Hr).
  constructor; [|done| |].
  - intros a rec. rewrite Hstored. apply Hkeyed.
  - intros a R y (rec & Hrec & H). exists rec. by rewrite <- Hstored.
  - intros y r. unfold backrefs. by rewrite Hi.
Qed.

(** *** Results of a computation *)

Lemma bind_inv {A B} (m : M A) (f : A -> M B) c b c' :
  (m ≫= f) c = Ok (b, c') -> exists a c1, m c = Ok (a, c1) /\ f a c1 = Ok (b, c').
Proof.
  unfold mbind, M_bind. destruct (m c) as [[a c1]| |]; [eauto|done|done].
Qed.

Lemma read_inv {A} (f : Cache -> outcome A) c a c' :
  read f c = Ok (a, c') -> f c = Ok a /\ c' = c.
Proof. unfold read. destruct (f c); [|done|done]. by intros [= -> ->]. Qed.

Lemma ret_inv {A} (a b : A) (c c' : Cache) :
  (mret a : M A) c = Ok (b, c') -> b = a /\ c' = c.
Proof. by intros [= -> ->]. Qed.

Lemma obind_inv {A B} (x : outcome A) (f : A -> outcome B) b :
  (x ≫= f) = Ok b -> exists a, x = Ok a /\ f a = Ok b.
Proof. destruct x; [eauto|done|done]. Qed.

Lemma getRecord_inv c a r : getRecord c a = Ok r -> stored c a = r.
Proof. apply getRecord_answers. Qed.

Lemma setRecord_inv rec c u c' :
  setRecord rec c = Ok (u, c') ->
  exists bucket,
    _records c !! type (identity rec) = Some bucket
    /\ c' = set_records
              <[type (identity rec) := <[id (identity rec) := rec]> bucket]> c.
Proof.
  unfold setRecord. destruct (_records c !! type (identity rec)) as [bucket|]; [|done].
  intros [= <- <-]. eauto.
Qed.

Lemma stored_set_records c t i rec bucket a :
  _records c !! t = Some bucket ->
  stored (set_records <[t := <[i := rec]> bucket]> c) a
  = if decide (a = mkIdentity t i) then Some rec else stored c a.
Proof.
  intros Hbucket. unfold stored. cbn. destruct a as [t' i']. cbn.
  case_decide as Heq.
  - injection Heq as -> ->. rewrite lookup_insert_eq. cbn. apply lookup_insert_eq.
  - destruct (decide (t = t')) as [->|Ht].
    + rewrite lookup_insert_eq, Hbucket. cbn. rewrite lookup_insert_ne; [done|].
      intros ->. by apply Heq.
    + by rewrite lookup_insert_ne.
Qed.

(** Storing, under its identity, a record whose relationships name nothing
    that the record of this identity did not name. *)
Lemma shrinks_setRecord c0 c rec u c' :
  shrinks c0 c ->
  (forall R y, match deepGet_data rec R with
               | Some (DataOne z) => z = y
               | Some (DataMany zs) => y ∈ zs
               | _ => False
               end -> names c (identity rec) R y) ->
  setRecord rec c = Ok (u, c') ->
  shrinks c0 c' /\ stored c' (identity rec) = Some rec.
Proof.
  intros Hshrinks Hless Hset.
  destruct (setRecord_inv _ _ _ _ Hset) as (bucket & Hbucket & ->).
  assert (mkIdentity (type (identity rec)) (id (identity rec)) = identity rec) as Heta
      by (by destruct (identity rec)).
  split.
  - apply (shrinks_trans _ c); [done|]. constructor.
    + intros a r. rewrite (stored_set_records _ _ _ _ _ _ Hbucket), Heta.
      case_decide; [by intros [= <-] | apply (shrinks_keyed _ _ Hshrinks)].
    + reflexivity.
    + intros a R y (r & Hr & H).
      rewrite (stored_set_records _ _ _ _ _ _ Hbucket), Heta in Hr.
      case_decide; [|by exists r]. injection Hr as <-. subst a. by apply Hless.
    + intros y r. done.
  - rewrite (stored_set_records _ _ _ _ _ _ Hbucket), Heta. by rewrite decide_True.
Qed.

Lemma clone_record_inv rec c rec' c' :
  clone_record rec c = Ok (rec', c') ->
  identity rec' = identity rec /\ relationships rec' = relationships rec
  /\ _schema c' = _schema c /\ _records c' = _records c
  /\ _inverseRelationships c' = _inverseRelationships c.
Proof.
  destruct (clone_record_spec rec c) as (r & n & H & Herase). rewrite H.
  intros [= <- <-]. repeat split; try done.
  - exact (f_equal identity Herase).
  - exact (f_equal relationships Herase).
Qed.

(** The identities a record names through a relationship. *)
Definition pointsTo (rec : Record_) (R : string) (y : RecordIdentity) : Prop :=
  match deepGet_data rec R with
  | Some (DataOne z) => z = y
  | Some (DataMany zs) => y ∈ zs
  | _ => False
  end.

Lemma names_stored c a rec R y :
  stored c a = Some rec -> names c a R y <-> pointsTo rec R y.
Proof.
  intros Hrec. unfold names. split.
  - intros (rec' & Hrec' & H). by replace rec with rec' by congruence.
  - intros H. by exists rec.
Qed.

Lemma names_absent c a R y : stored c a = None -> ~ names c a R y.
Proof. intros Hnone (rec & Hrec & _). congruence. Qed.

Lemma deepGet_deepSet rec R d R' :
  deepGet_data (deepSet_data rec R d).2 R'
  = if decide (R' = R) then Some d else deepGet_data rec R'.
Proof.
  unfold deepGet_data, deepSet_data. cbn. case_decide as H.
  - subst. apply lookup_insert_eq.
  - rewrite lookup_insert_ne by done. by destruct (relationships rec).
Qed.

Lemma sameIdentity_eq a b :
  equalRecordIdentities (Some (DataOne a)) (Some (DataOne b)) = true <-> a = b.
Proof.
  unfold equalRecordIdentities. cbn. rewrite andb_true_iff, !String.eqb_eq.
  destruct a, b; cbn. split; [intros [-> ->]; done | intros [= -> ->]; done].
Qed.

Lemma shrinks_clone c0 c rec rec' c1 :
  shrinks c0 c -> clone_record rec c = Ok (rec', c1) ->
  shrinks c0 c1 /\ (forall a, stored c1 a = stored c a)
  /\ identity rec' = identity rec /\ relationships rec' = relationships rec.
Proof.
  intros Hshrinks Hclone.
  destruct (clone_record_inv _ _ _ _ Hclone) as (Hid & Hrels & Hs & Hr & Hi).
  split_and!; try done.
  - apply (shrinks_trans _ c); [done|].
    apply shrinks_same; [apply (shrinks_keyed _ _ Hshrinks)|done..].
  - intros a. unfold stored. by rewrite Hr.
Qed.

(** The main operator of a removal takes the reference away and adds
    none. *)
Lemma patch_removal op c0 c d c' :
  removal op -> shrinks c0 c ->
  PatchOperators.apply op c = Ok (d, c') ->
  shrinks c0 c' /\ cleared op c'.
Proof.
  intros Hop Hshrinks Hrun.
  pose proof (shrinks_keyed _ _ Hshrinks) as Hkeyed.
  destruct op as [| | | | | |a R x| |a R [| |]]; try done; cbn in Hrun.
  - (* removeFromRelatedRecords *)
    unfold PatchOperators.removeFromRelatedRecords in Hrun.
    apply bind_inv in Hrun as (st & ? & Hst & Hrun).
    apply read_inv in Hst as [Hst ->]. apply getRecord_inv in Hst.
    destruct st as [rec|].
    + apply bind_inv in Hrun as (rec' & c1 & Hclone & Hrun).
      destruct (shrinks_clone _ _ _ _ _ Hshrinks Hclone) as (Hs1 & Hsame & Hid & Hrels).
      assert (forall R', deepGet_data rec' R' = deepGet_data rec R') as Hdata
          by (intros R'; unfold deepGet_data; by rewrite Hrels).
      assert (stored c1 a = Some rec) as Hrec by (by rewrite Hsame).
      destruct (deepGet_data rec' R) as [[|z|zs]|] eqn:HR.
      * apply ret_inv in Hrun as [_ ->].
        split; [done|]. cbn. rewrite (names_stored _ _ _ _ _ Hrec).
        unfold pointsTo. rewrite <- Hdata, HR. tauto.
      * discriminate Hrun.
      * pose proof (deepGet_deepSet rec' R
                      (DataMany
                         (List.filter
                            (fun r => negb (equalRecordIdentities (Some (DataOne r))
                                              (Some (DataOne x)))) zs))) as Hget.
        destruct (deepSet_data rec' R _) as [changed rec2] eqn:Hset.
        assert (changed = true /\ identity rec2 = identity rec') as [-> Hid2'].
        { injection Hset as <- <-. split; [|done].
          apply negb_true_iff, bool_decide_eq_false. by intros [_ ?]. }
        cbn [snd] in Hget.
        apply bind_inv in Hrun as (u & c2 & Hstore & Hrun).
        apply ret_inv in Hrun as [_ ->].
        assert (identity rec2 = a) as Hid2.
        { rewrite Hid2', Hid. by apply Hkeyed. }
        destruct (shrinks_setRecord c0 c1 rec2 u c2 Hs1) as (Hs2 & Hrec2); [|done|].
        -- intros R' y. rewrite Hid2, (names_stored _ _ _ _ _ Hrec).
           unfold pointsTo. rewrite Hget.
           case_decide as HR'; [|by rewrite Hdata].
           subst R'. rewrite <- Hdata, HR. rewrite !list_elem_of_In.
           rewrite filter_In. tauto.
        -- split; [done|]. cbn. rewrite Hid2 in Hrec2.
           rewrite (names_stored _ _ _ _ _ Hrec2). unfold pointsTo.
           rewrite Hget, decide_True by done.
           rewrite list_elem_of_In, filter_In. intros [_ Hx].
           rewrite (proj2 (sameIdentity_eq x x) eq_refl) in Hx. done.
      * apply ret_inv in Hrun as [_ ->].
        split; [done|]. cbn. rewrite (names_stored _ _ _ _ _ Hrec).
        unfold pointsTo. rewrite <- Hdata, HR. tauto.
    + apply ret_inv in Hrun as [_ ->]. split; [done|]. cbn. by apply names_absent.
  - (* replaceRelatedRecord (null) *)
    unfold PatchOperators.replaceRelatedRecord in Hrun.
    apply bind_inv in Hrun as (st & ? & Hst & Hrun).
    apply read_inv in Hst as [Hst ->]. apply getRecord_inv in Hst.
    apply bind_inv in Hrun as (rec' & c1 & Hclone & Hrun).
    assert (shrinks c0 c1
            /\ (forall b, stored c1 b = stored c b)
            /\ identity rec' = a
            /\ forall R' y, pointsTo rec' R' y -> names c1 a R' y)
      as (Hs1 & Hsame & Hid & Hless).
    { destruct st as [rec|]; cbn in Hclone.
      - destruct (shrinks_clone _ _ _ _ _ Hshrinks Hclone) as (Hs1 & Hsame & Hid & Hrels).
        split_and!; [done|done|rewrite Hid; by apply Hkeyed|].
        intros R' y. rewrite (names_stored c1 a rec) by (by rewrite Hsame).
        unfold pointsTo, deepGet_data. by rewrite Hrels.
      - apply ret_inv in Hclone as [-> ->].
        split_and!; [done|done|apply cloneRecordIdentity_id|].
        intros R' y. unfold pointsTo, deepGet_data. cbn. done. }
    pose proof (deepGet_deepSet rec' R DataNull) as Hget.
    destruct (deepSet_data rec' R DataNull) as [changed rec2] eqn:Hset.
    assert (identity rec2 = a) as Hid2 by (by injection Hset as _ <-).
    cbn [snd] in Hget.
    apply bind_inv in Hrun as (u & c2 & Hstore & Hrun).
    apply ret_inv in Hrun as [_ ->].
    destruct changed.
    + destruct (shrinks_setRecord c0 c1 rec2 u c2 Hs1) as (Hs2 & Hrec2); [|done|].
      * intros R' y. rewrite Hid2. intros Hpoints. apply Hless.
        unfold pointsTo in *. rewrite Hget in Hpoints.
        case_decide; [done|exact Hpoints].
      * split; [done|]. cbn. intros y. rewrite Hid2 in Hrec2.
        rewrite (names_stored _ _ _ _ _ Hrec2).
        unfold pointsTo. rewrite Hget, decide_True by done. tauto.
    + apply ret_inv in Hstore as [_ ->]. split; [done|]. cbn. intros y.
      injection Hset as Hchanged _.
      apply negb_false_iff, bool_decide_eq_true in Hchanged as [Hdata _].
      intros (rec & Hrec & Hpoints). rewrite Hsame in Hrec. rewrite Hrec in Hst.
      subst st. cbn in Hclone.
      destruct (clone_record_inv _ _ _ _ Hclone) as (_ & Hrels & _).
      unfold pointsTo, deepGet_data in *. rewrite <- Hrels in Hpoints.
      by rewrite Hdata in Hpoints.
Qed.

(** A removal that has no inverse finds nothing to take away. *)
Lemma cleared_without_inverse op c :
  removal op -> InversePatchOperators.apply c op = Ok None -> cleared op c.
Proof.
  destruct op as [| | | | | |a R x| |a R [| |]]; try done; intros _; cbn.
  - unfold InversePatchOperators.removeFromRelatedRecords, relatedRecordsInclude,
      getRelatedRecords.
    intros Hinv (rec & Hrec & Hpoints).
    rewrite (currentData_present _ _ _ _ (getRecord_stored _ _ _ Hrec)) in Hinv.
    unfold pointsTo in Hpoints. cbn in Hinv.
    destruct (deepGet_data rec R) as [[|y|ys]|]; try done. cbn in Hinv.
    assert (existsb
              (fun r => equalRecordIdentities (Some (DataOne r)) (Some (DataOne x))) ys
            = true) as Hfound.
    { apply existsb_exists. exists x. split; [by apply list_elem_of_In|].
      by apply sameIdentity_eq. }
    unfold equalRecordIdentities in Hfound. cbn in Hfound. by rewrite Hfound in Hinv.
  - unfold InversePatchOperators.replaceRelatedRecord, getRelatedRecord.
    intros Hinv y (rec & Hrec & Hpoints).
    rewrite (currentData_present _ _ _ _ (getRecord_stored _ _ _ Hrec)) in Hinv.
    unfold pointsTo in Hpoints. cbn in Hinv.
    destruct (deepGet_data rec R) as [[|z|zs]|]; done.
Qed.

(** A hook of a processor, on a removal in a well-keyed state, adds no
    reference and no back-reference and returns removals only. *)
Definition tameHook (hook : RecordOperation -> M (list RecordOperation)) : Prop :=
  forall op c ops c',
    removal op -> wellKeyed c -> hook op c = Ok (ops, c') ->
    shrinks c c' /\ Forall removal ops.

Definition tame (p : SyncOperationProcessor) : Prop :=
  tameHook (before p) /\ tameHook (after p) /\ tameHook (finally p)
  /\ forall op c u c',
       removal op -> wellKeyed c -> immediate p op c = Ok (u, c') -> shrinks c c'.

Section Removals.

Variable processors : list SyncOperationProcessor.
Hypothesis Htame : Forall tame processors.

Lemma validate_inv c op u c' :
  forEach (fun p => read (fun c => validate p c op)) processors c = Ok (u, c') ->
  c' = c.
Proof.
  clear Htame. induction processors as [|p ps IH]; cbn [forEach].
  - by intros [_ ->]%ret_inv.
  - intros (? & ? & [_ ->]%read_inv & H)%bind_inv. by apply IH.
Qed.

Lemma hooks_tame (select : SyncOperationProcessor -> RecordOperation -> M (list RecordOperation))
    op c0 c opss c' :
  Forall (fun p => tameHook (select p)) processors ->
  removal op -> shrinks c0 c ->
  mapM_ (fun p => select p op) processors c = Ok (opss, c') ->
  shrinks c0 c' /\ Forall (Forall removal) opss.
Proof.
  clear Htame. intros Hall Hop. revert c opss.
  induction Hall as [|p ps Hp _ IH]; intros c opss Hs; cbn [mapM_].
  - intros [-> ->]%ret_inv. by split.
  - intros (ops & c1 & Hhook & (opss' & c2 & Hrest & [-> ->]%ret_inv)%bind_inv)%bind_inv.
    destruct (Hp op c ops c1 Hop (shrinks_keyed _ _ Hs) Hhook) as [Hs1 Hops].
    destruct (IH c1 opss' (shrinks_trans _ _ _ Hs Hs1) Hrest) as [Hs2 Hopss].
    split; [done|by constructor].
Qed.

Lemma immediate_tame op c0 c u c' :
  removal op -> shrinks c0 c ->
  forEach (fun p => immediate p op) processors c = Ok (u, c') ->
  shrinks c0 c'.
Proof.
  intros Hop. revert c. pose proof Htame as H. clear Htame.
  induction H as [|p ps (_ & _ & _ & Hp) _ IH]; intros c Hs; cbn [forEach].
  - by intros [_ ->]%ret_inv.
  - intros (? & c1 & Himm & Hrest)%bind_inv.
    apply (IH c1); [|done].
    apply (shrinks_trans _ c); [done|].
    exact (Hp op c _ c1 Hop (shrinks_keyed _ _ Hs) Himm).
Qed.

(** Removals applied one after the other: nothing is added, and what each
    of them clears stays cleared. *)
Lemma removals_applied (apply : PatchResult -> RecordOperation -> M PatchResult) ops :
  (forall op result c0 c result' c',
      removal op -> shrinks c0 c -> apply result op c = Ok (result', c') ->
      shrinks c0 c' /\ cleared op c') ->
  forall result c0 c result' c',
    Forall removal ops -> shrinks c0 c ->
    foldlM apply ops result c = Ok (result', c') ->
    shrinks c0 c' /\ Forall (fun op => cleared op c') ops.
Proof.
  intros Happly. induction ops as [|op ops IH]; intros result c0 c result' c' Hops Hs;
    cbn [foldlM].
  - intros [_ ->]%ret_inv. by split.
  - apply Forall_cons in Hops as [Hop Hops].
    intros (result1 & c1 & H1 & Hrest)%bind_inv.
    destruct (Happly _ _ _ _ _ _ Hop Hs H1) as [Hs1 Hcleared].
    destruct (IH _ c1 c1 _ _ Hops (shrinks_refl _ (shrinks_keyed _ _ Hs1)) Hrest)
      as [Hs2 Hall].
    split; [by apply (shrinks_trans _ c1)|].
    constructor; [by apply (cleared_shrinks _ c1)|done].
Qed.

Lemma removals_applied_all
    (apply : PatchResult -> RecordOperation -> M PatchResult) opss :
  (forall op result c0 c result' c',
      removal op -> shrinks c0 c -> apply result op c = Ok (result', c') ->
      shrinks c0 c' /\ cleared op c') ->
  forall result c0 c result' c',
    Forall (Forall removal) opss -> shrinks c0 c ->
    foldlM (fun result ops => foldlM apply ops result) opss result c = Ok (result', c') ->
    shrinks c0 c' /\ Forall (Forall (fun op => cleared op c')) opss.
Proof.
  intros Happly. induction opss as [|ops opss IH];
    intros result c0 c result' c' Hopss Hs; cbn [foldlM].
  - intros [_ ->]%ret_inv. by split.
  - apply Forall_cons in Hopss as [Hops Hopss].
    intros (result1 & c1 & H1 & Hrest)%bind_inv.
    destruct (removals_applied apply ops Happly _ _ _ _ _ Hops Hs H1) as [Hs1 Hcleared].
    destruct (IH _ c1 c1 _ _ Hopss (shrinks_refl _ (shrinks_keyed _ _ Hs1)) Hrest)
      as [Hs2 Hall].
    split; [by apply (shrinks_trans _ c1)|].
    constructor; [|done].
    eapply Forall_impl; [exact Hcleared|]. intros op Hop.
    by apply (cleared_shrinks _ c1).
Qed.

(** A removal through the pipeline: its record no longer names what was
    removed, and no reference or back-reference has been added anywhere. *)
Lemma removal_applied fuel :
  forall op result primary c0 c result' c',
    removal op -> shrinks c0 c ->
    _applyOperation processors fuel op result primary c = Ok (result', c') ->
    shrinks c0 c' /\ cleared op c'.
Proof.
  induction fuel as [|fuel IH]; intros op result primary c0 c result' c' Hop Hs;
    [done|].
  assert (forall op result c0 c result' c',
             removal op -> shrinks c0 c ->
             _applyOperation processors fuel op result false c = Ok (result', c') ->
             shrinks c0 c' /\ cleared op c') as Hsub by (intros; by eapply IH).
  pose proof (Forall_impl _ _ _ Htame (fun p H => proj1 H)) as Hbefore.
  pose proof (Forall_impl _ _ _ Htame (fun p H => proj1 (proj2 H))) as Hafter.
  pose proof (Forall_impl _ _ _ Htame (fun p H => proj1 (proj2 (proj2 H)))) as Hfinally.
  cbn [_applyOperation].
  intros (? & ? & ->%validate_inv & Hrun)%bind_inv.
  apply bind_inv in Hrun as (inverseOp & ? & [Hinverse ->]%read_inv & Hrun).
  destruct inverseOp as [inverseOp|].
  - apply bind_inv in Hrun as (befores & c1 & Hb & Hrun).
    destruct (hooks_tame before op c0 c befores c1 Hbefore Hop Hs Hb) as [Hs1 Hbs].
    apply bind_inv in Hrun as (result1 & c2 & Hba & Hrun).
    destruct (removals_applied_all _ befores (fun op result => Hsub op result)
                _ _ _ _ _ Hbs Hs1 Hba) as [Hs2 _].
    apply bind_inv in Hrun as (prepared & c3 & Ha & Hrun).
    destruct (hooks_tame after op c0 c2 prepared c3 Hafter Hop Hs2 Ha) as [Hs3 Hps].
    apply bind_inv in Hrun as (d & c4 & Hmain & Hrun).
    destruct (patch_removal op c0 c3 d c4 Hop Hs3 Hmain) as [Hs4 Hcleared].
    apply bind_inv in Hrun as (? & c5 & Himm & Hrun).
    pose proof (immediate_tame op c0 c4 _ c5 Hop Hs4 Himm) as Hs5.
    apply bind_inv in Hrun as (? & c6 & Hemit & Hrun).
    injection Hemit as _ <-.
    assert (shrinks c0 (withEvent op d c5)) as Hs6.
    { apply (shrinks_trans _ c5); [done|].
      by apply shrinks_same; [apply (shrinks_keyed _ _ Hs5)|..]. }
    apply bind_inv in Hrun as (result2 & c7 & Hpa & Hrun).
    destruct (removals_applied_all _ prepared (fun op result => Hsub op result)
                _ _ _ _ _ Hps Hs6 Hpa) as [Hs7 _].
    apply bind_inv in Hrun as (finals & c8 & Hf & Hrun).
    destruct (hooks_tame finally op c0 c7 finals c8 Hfinally Hop Hs7 Hf) as [Hs8 Hfs].
    destruct (removals_applied_all _ finals (fun op result => Hsub op result)
                _ _ _ _ _ Hfs Hs8 Hrun) as [Hs9 _].
    split; [done|].
    apply (cleared_shrinks _ c4); [done|].
    (* from the state after the main operator on, nothing is added *)
    pose proof (shrinks_refl c4 (shrinks_keyed _ _ Hs4)) as Hr4.
    pose proof (immediate_tame op c4 c4 _ c5 Hop Hr4 Himm) as Hr5.
    assert (shrinks c4 (withEvent op d c5)) as Hr6.
    { apply (shrinks_trans _ c5); [done|].
      by apply shrinks_same; [apply (shrinks_keyed _ _ Hr5)|..]. }
    destruct (removals_applied_all _ prepared (fun op result => Hsub op result)
                _ _ _ _ _ Hps Hr6 Hpa) as [Hr7 _].
    destruct (hooks_tame finally op c4 c7 finals c8 Hfinally Hop Hr7 Hf) as [Hr8 _].
    by destruct (removals_applied_all _ finals (fun op result => Hsub op result)
                   _ _ _ _ _ Hfs Hr8 Hrun) as [Hr9 _].
  - apply ret_inv in Hrun as [_ ->]. split; [done|].
    apply (cleared_shrinks _ c); [by apply cleared_without_inverse|].
    apply shrinks_refl, (shrinks_keyed _ _ Hs).
Qed.

End Removals.

(** *** The hooks of the processors on removals *)

(** The computation keeps the state in relation [Rel] with an earlier one,
    and its result satisfies [P]. *)
Definition keeps {A} (Rel : Cache -> Cache -> Prop) (m : M A) (P : A -> Prop) : Prop :=
  forall c0 c a c', Rel c0 c -> m c = Ok (a, c') -> Rel c0 c' /\ P a.

Section Keeps.

Variable Rel : Cache -> Cache -> Prop.

Lemma keeps_ret {A} (a : A) (P : A -> Prop) : P a -> keeps Rel (mret a) P.
Proof. intros HP c0 c b c' Hs [-> ->]%ret_inv. by split. Qed.

Lemma keeps_bind {A B} (m : M A) (f : A -> M B) (Q : A -> Prop) (P : B -> Prop) :
  keeps Rel m Q -> (forall a, Q a -> keeps Rel (f a) P) -> keeps Rel (m ≫= f) P.
Proof.
  intros Hm Hf c0 c b c' Hs (a & c1 & H1 & H2)%bind_inv.
  destruct (Hm _ _ _ _ Hs H1) as [Hs1 HQ]. by apply (Hf a HQ c0 c1).
Qed.

Lemma keeps_read {A} (f : Cache -> outcome A) : keeps Rel (read f) (fun _ => True).
Proof. intros c0 c a c' Hs [_ ->]%read_inv. by split. Qed.

Lemma keeps_throw {A} e (P : A -> Prop) : keeps Rel (throw e) P.
Proof. intros c0 c a c' _ H. discriminate H. Qed.

Lemma keeps_weaken {A} (m : M A) (P Q : A -> Prop) :
  keeps Rel m P -> (forall a, P a -> Q a) -> keeps Rel m Q.
Proof. intros Hm HPQ c0 c a c' Hs H. destruct (Hm _ _ _ _ Hs H). split; auto. Qed.

Lemma keeps_mapM_ {A B} (f : A -> M B) (P : B -> Prop) l :
  (forall a, keeps Rel (f a) P) -> keeps Rel (mapM_ f l) (Forall P).
Proof.
  intros Hf. induction l as [|a l IH]; cbn [mapM_].
  - by apply keeps_ret.
  - eapply keeps_bind; [apply Hf|]. intros b Hb.
    eapply keeps_bind; [apply IH|]. intros bs Hbs. apply keeps_ret. by constructor.
Qed.


(** The schema consistency processor reads the state and returns
    removals, whatever the relation. *)
Lemma keeps_removeOp related inverseName rec :
  keeps Rel (SchemaConsistencyProcessor.removeOp related inverseName rec) removal.
Proof.
  unfold SchemaConsistencyProcessor.removeOp, relationshipDef.
  eapply keeps_bind; [apply keeps_read|]. intros def _.
  destruct (Schema.type def); by apply keeps_ret.
Qed.

Lemma keeps_removals rec R old new :
  keeps Rel (SchemaConsistencyProcessor.removals rec R old new) (Forall removal).
Proof.
  unfold SchemaConsistencyProcessor.removals, relationshipDef.
  eapply keeps_bind; [apply keeps_read|]. intros def _.
  destruct (Schema.inverse def) as [inverseName|]; [|by apply keeps_ret].
  destruct (hasInverse def); [|by apply keeps_ret].
  apply keeps_mapM_. intros related. apply keeps_removeOp.
Qed.

Lemma keeps_no_additions rec R old :
  keeps Rel (SchemaConsistencyProcessor.additions rec R old []) (Forall removal).
Proof.
  unfold SchemaConsistencyProcessor.additions, relationshipDef.
  eapply keeps_bind; [apply keeps_read|]. intros def _.
  destruct (Schema.inverse def) as [inverseName|]; [|by apply keeps_ret].
  destruct (hasInverse def); by apply keeps_ret.
Qed.


End Keeps.

Lemma keeps_tameHook hook :
  (forall op, removal op -> keeps shrinks (hook op) (Forall removal)) -> tameHook hook.
Proof.
  intros H op c ops c' Hop Hkeyed Hrun.
  exact (H op Hop c c ops c' (shrinks_refl c Hkeyed) Hrun).
Qed.

Lemma tame_SchemaValidationProcessor : tame SchemaValidationProcessor.processor.
Proof.
  split_and!; try (apply keeps_tameHook; intros op _; by apply keeps_ret).
  intros op c u c' _ Hkeyed [_ ->]%ret_inv. by apply shrinks_refl.
Qed.

Lemma tame_SchemaConsistencyProcessor : tame SchemaConsistencyProcessor.processor.
Proof.
  split_and!.
  - apply keeps_tameHook. intros [| | | | | |a R x| |a R [| |]]; try done; intros _; cbn.
    + by apply keeps_ret.
    + unfold SchemaConsistencyProcessor.current.
      eapply keeps_bind; [apply keeps_read|]. intros old _. apply keeps_removals.
  - apply keeps_tameHook. intros [| | | | | |a R x| |a R [| |]]; try done; intros _; cbn.
    + apply keeps_removals.
    + unfold SchemaConsistencyProcessor.current.
      eapply keeps_bind; [apply keeps_read|]. intros old _. apply keeps_no_additions.
  - apply keeps_tameHook. intros op _. by apply keeps_ret.
  - intros op c u c' _ Hkeyed [_ ->]%ret_inv. by apply shrinks_refl.
Qed.

(** *** The inverse index under the methods that take entries away *)

Lemma backrefs_set c t i l bucket y :
  _inverseRelationships c !! t = Some bucket ->
  backrefs (set_inverseRelationships <[t := <[i := l]> bucket]> c) y
  = if decide (y = mkIdentity t i) then l else backrefs c y.
Proof.
  intros Hbucket. destruct y as [t' i']. unfold backrefs. cbn.
  destruct (decide (t' = t)) as [->|Ht].
  - rewrite lookup_insert_eq, Hbucket. cbn.
    destruct (decide (i' = i)) as [->|Hi].
    + rewrite lookup_insert_eq. by rewrite decide_True.
    + rewrite lookup_insert_ne by done. rewrite decide_False; [done|congruence].
  - rewrite lookup_insert_ne by done. rewrite decide_False; [done|congruence].
Qed.

Lemma backrefs_delete c x bucket y :
  _inverseRelationships c !! type x = Some bucket ->
  backrefs (set_inverseRelationships <[type x := delete (id x) bucket]> c) y
  = if decide (y = x) then [] else backrefs c y.
Proof.
  destruct x as [t i], y as [t' i']. cbn. intros Hbucket. unfold backrefs. cbn.
  destruct (decide (t' = t)) as [->|Ht].
  - rewrite lookup_insert_eq, Hbucket. cbn.
    destruct (decide (i' = i)) as [->|Hi].
    + rewrite lookup_delete_eq. by rewrite decide_True.
    + rewrite lookup_delete_ne by done. rewrite decide_False; [done|congruence].
  - rewrite lookup_insert_ne by done. rewrite decide_False; [done|congruence].
Qed.

(** A change of the index alone that adds no entry. *)
Lemma shrinks_index c0 c f :
  shrinks c0 c ->
  (forall y r, r ∈ backrefs (set_inverseRelationships f c) y -> r ∈ backrefs c y) ->
  shrinks c0 (set_inverseRelationships f c).
Proof.
  intros Hs Hsub. apply (shrinks_trans _ c); [done|].
  constructor; [|done| |done].
  - exact (shrinks_keyed _ _ Hs).
  - by intros a R y H.
Qed.

Lemma keeps_removeInverselyRelatedRecord y r :
  keeps shrinks (removeInverselyRelatedRecord y r) (fun _ => True).
Proof.
  intros c0 c u c' Hs. unfold removeInverselyRelatedRecord.
  destruct (_inverseRelationships c !! type y) as [bucket|] eqn:Hbucket; [|done].
  destruct (bucket !! id y) as [rels|] eqn:Hrels.
  - intros [= _ <-]. split; [|done]. apply shrinks_index; [done|].
    intros y' r'. rewrite (backrefs_set _ _ _ _ _ _ Hbucket).
    destruct (decide _) as [->|_]; [|done].
    intros [Hin _]%list_elem_of_In%filter_In. apply list_elem_of_In in Hin.
    unfold backrefs. cbn. rewrite Hbucket. cbn. by rewrite Hrels.
  - intros [= _ <-]. by split.
Qed.


Lemma keeps_removeInverseRelationship a R related :
  keeps shrinks (CacheIntegrityProcessor.removeInverseRelationship a R related)
    (fun _ => True).
Proof.
  unfold CacheIntegrityProcessor.removeInverseRelationship, relationshipDef.
  eapply keeps_bind; [apply keeps_read|]. intros def _.
  destruct (hasInverse def); [|by apply keeps_ret].
  destruct related as [r|]; [apply keeps_removeInverselyRelatedRecord|].
  eapply keeps_bind; [apply keeps_read|]. intros [[|r|rs]|] _; cbn.
  - by apply keeps_ret.
  - apply keeps_removeInverselyRelatedRecord.
  - apply keeps_throw.
  - by apply keeps_ret.
Qed.

Lemma tame_CacheIntegrityProcessor : tame CacheIntegrityProcessor.processor.
Proof.
  split_and!.
  - apply keeps_tameHook. intros op _. by apply keeps_ret.
  - apply keeps_tameHook. intros [| | | | | |a R x| |a R [| |]]; try done; intros _; cbn.
    + eapply keeps_bind; [apply keeps_removeInverseRelationship|].
      intros _ _. by apply keeps_ret.
    + eapply keeps_bind; [apply keeps_removeInverseRelationship|].
      intros _ _. by apply keeps_ret.
  - apply keeps_tameHook. intros [| | | | | |a R x| |a R [| |]]; try done; intros _; cbn.
    + by apply keeps_ret.
    + eapply (keeps_bind _ _ _ (fun _ => True)); [by apply keeps_ret|].
      intros _ _. by apply keeps_ret.
  - intros op c u c' _ Hkeyed [_ ->]%ret_inv. by apply shrinks_refl.
Qed.

Lemma tame_defaultProcessors : Forall tame defaultProcessors.
Proof.
  unfold defaultProcessors. repeat apply Forall_cons_2; [| | |apply Forall_nil_2].
  - apply tame_SchemaValidationProcessor.
  - apply tame_SchemaConsistencyProcessor.
  - apply tame_CacheIntegrityProcessor.
Qed.

(** *** Removing a record *)











(** [wellKeyed] and [indexed] as checks over the maps of a state. *)
Lemma wellKeyed_checked c :
  map_Forall
    (fun t bucket => map_Forall (fun i rec => identity rec = mkIdentity t i) bucket)
    (_records c) ->
  wellKeyed c.
Proof.
  intros H [t i] rec. unfold stored. cbn.
  destruct (_records c !! t) as [bucket|] eqn:Hbucket; [|done]. cbn. intros Hrec.
  exact (H t bucket Hbucket i rec Hrec).
Qed.




(* ===================================================================== *)
(** * Further properties *)
(* ===================================================================== *)

(** ** Record identities (record.ts) *)

(** The string has no occurrence of the character. *)
Fixpoint lacks (c : Ascii.ascii) (s : string) : bool :=
  match s with
  | EmptyString => true
  | String a s' => negb (Ascii.eqb a c) && lacks c s'
  end.

(** An identity whose [type] and [id] have no [":"]. *)
Definition plain (r : RecordIdentity) : Prop :=
  lacks ":" (type r) = true /\ lacks ":" (id r) = true.

Lemma split_cons c s : exists h t, split c s = h :: t.
Proof.
  induction s as [|a s (h & t & IH)]; cbn [split]; [by eauto|].
  destruct (Ascii.eqb a c); [by eauto|]. rewrite IH. eauto.
Qed.

Lemma split_lacks c s : lacks c s = true -> split c s = [s].
Proof.
  induction s as [|a s IH]; cbn [split lacks]; [done|].
  intros [Ha Hs]%andb_true_iff. apply negb_true_iff in Ha. rewrite Ha.
  by rewrite (IH Hs).
Qed.

Lemma split_separator c s t :
  lacks c s = true -> split c (s +:+ String c t) = s :: split c t.
Proof.
  induction s as [|a s IH]; simpl.
  - intros _. by rewrite Ascii.eqb_refl.
  - intros [Ha Hs]%andb_true_iff. apply negb_true_iff in Ha. rewrite Ha.
    by rewrite (IH Hs).
Qed.

Lemma append_inj_r (s t1 t2 : string) : s +:+ t1 = s +:+ t2 -> t1 = t2.
Proof. induction s as [|a s IH]; cbn; [done|]. intros [= H]. by apply IH. Qed.

Lemma split_serialized r :
  lacks ":" (type r) = true ->
  split ":" (serializeRecordIdentity r) = type r :: split ":" (id r).
Proof. intros H. unfold serializeRecordIdentity. cbn. by apply split_separator. Qed.

(** Deserialization reads the [type] back, and of the [id] the part before
    its first [":"]. *)
Lemma deserialize_serialize r :
  lacks ":" (type r) = true ->
  deserializeRecordIdentity (serializeRecordIdentity r)
  = mkIdentity (type r) (hd "" (split ":" (id r))).
Proof.
  intros H. unfold deserializeRecordIdentity. rewrite (split_serialized r H).
  by destruct (split_cons ":" (id r)) as (h & t & ->).
Qed.

Lemma deserialize_serialize_plain r :
  plain r -> deserializeRecordIdentity (serializeRecordIdentity r) = r.
Proof.
  intros [Ht Hi]. rewrite (deserialize_serialize r Ht), (split_lacks _ _ Hi).
  by destruct r.
Qed.

Lemma serialize_inj a b :
  lacks ":" (type a) = true -> lacks ":" (type b) = true ->
  serializeRecordIdentity a = serializeRecordIdentity b -> a = b.
Proof.
  intros Ha Hb Heq.
  pose proof (f_equal (split ":") Heq) as Hsplit.
  rewrite (split_serialized a Ha), (split_serialized b Hb) in Hsplit.
  injection Hsplit as Htype _.
  unfold serializeRecordIdentity in Heq. rewrite Htype in Heq.
  apply append_inj_r in Heq. injection Heq as Hid.
  change (id a = id b) in Hid. destruct a, b. simpl in *. congruence.
Qed.

Lemma includes_serialized rs r :
  lacks ":" (type r) = true -> Forall (fun x => lacks ":" (type x) = true) rs ->
  includes (map serializeRecordIdentity rs) (serializeRecordIdentity r)
  = bool_decide (r ∈ rs).
Proof.
  intros Hr. unfold includes. induction 1 as [|x rs Hx _ IH]; cbn; [done|].
  rewrite IH. destruct (String.eqb_spec (serializeRecordIdentity r)
                          (serializeRecordIdentity x)) as [Heq|Hne]; cbn.
  - apply (serialize_inj _ _ Hr Hx) in Heq as ->.
    symmetry. apply bool_decide_eq_true. by left.
  - apply bool_decide_ext. rewrite elem_of_cons. split; [by right|].
    intros [->|H]; [done|done].
Qed.

Lemma exclusive_serialized rs1 rs2 :
  Forall (fun x => lacks ":" (type x) = true) rs1 ->
  Forall (fun x => lacks ":" (type x) = true) rs2 ->
  exclusiveIdentities (map serializeRecordIdentity rs1) (map serializeRecordIdentity rs2)
  = map serializeRecordIdentity
      (List.filter (fun r => negb (bool_decide (r ∈ rs2))) rs1).
Proof.
  intros H1 H2. unfold exclusiveIdentities.
  induction H1 as [|r rs1 Hr _ IH]; cbn; [done|].
  rewrite (includes_serialized _ _ Hr H2), IH.
  by destruct (bool_decide (r ∈ rs2)).
Qed.

(** The identity read back from the serialized form of [r]. *)
Definition cut (r : RecordIdentity) : RecordIdentity :=
  mkIdentity (type r) (hd "" (split ":" (id r))).

Lemma filter_nil {A} (f : A -> bool) l :
  List.filter f l = [] <-> forall x, x ∈ l -> f x = false.
Proof.
  induction l as [|a l IH]; cbn.
  - split; [by intros _ x ?%elem_of_nil | done].
  - destruct (f a) eqn:Ha.
    + split; [done|]. intros H. specialize (H a (list_elem_of_here _ _)). congruence.
    + rewrite IH. split.
      * intros H x [->|Hin]%elem_of_cons; auto.
      * intros H x Hin. apply H. by right.
Qed.

Lemma map_nil_iff {A B} (f : A -> B) l : map f l = [] <-> l = [].
Proof. by destruct l. Qed.

(** X1.  The serialized form [type:id] of an identity is read back as the
    same identity when neither its [type] nor its [id] has a [":"]. *)
Theorem serialized_identity_round_trip r :
  plain r -> deserializeRecordIdentity (serializeRecordIdentity r) = r.
Proof. apply deserialize_serialize_plain. Qed.

Lemma serialized_identity_round_trip_witness :
  deserializeRecordIdentity (serializeRecordIdentity (mkIdentity "moon" "io"))
  = mkIdentity "moon" "io".
Proof.
  apply (serialized_identity_round_trip (mkIdentity "moon" "io")).
  split; reflexivity.
Defined.

(** X2.  [exclusiveOfRecordIdentitySet] returns the identities of the
    first array that are not in the second, in the order of the first and
    with their repetitions, when no [type] has a [":"] and no [id] of the
    first array has one. *)
Theorem exclusiveOfRecordIdentitySet_difference rs1 rs2 :
  Forall plain rs1 ->
  Forall (fun x => lacks ":" (type x) = true) rs2 ->
  exclusiveOfRecordIdentitySet (Some (DataMany rs1)) (Some (DataMany rs2))
  = Ok (List.filter (fun r => negb (bool_decide (r ∈ rs2))) rs1).
Proof.
  intros H1 H2. unfold exclusiveOfRecordIdentitySet. cbn.
  rewrite exclusive_serialized; [|by eapply Forall_impl; [exact H1|intros ? []]|done].
  f_equal. rewrite map_map.
  assert (Forall plain (List.filter (fun r => negb (bool_decide (r ∈ rs2))) rs1)) as H.
  { rewrite Forall_forall in H1. apply Forall_forall.
    intros r [Hin _]%list_elem_of_In%filter_In. by apply H1, list_elem_of_In. }
  induction H as [|r rs Hr _ IH]; cbn; [done|].
  by rewrite (deserialize_serialize_plain r Hr), IH.
Qed.

Lemma exclusiveOfRecordIdentitySet_difference_witness :
  exclusiveOfRecordIdentitySet
    (Some (DataMany [mkIdentity "planet" "p1"; mkIdentity "moon" "m1";
                     mkIdentity "planet" "p1"]))
    (Some (DataMany [mkIdentity "moon" "m1"]))
  = Ok (List.filter
          (fun r => negb (bool_decide (r ∈ [mkIdentity "moon" "m1"])))
          [mkIdentity "planet" "p1"; mkIdentity "moon" "m1"; mkIdentity "planet" "p1"]).
Proof.
  apply exclusiveOfRecordIdentitySet_difference.
  - repeat constructor.
  - repeat constructor.
Defined.

(** X3.  An [id] with a [":"] does not survive: the identities that
    [exclusiveOfRecordIdentitySet] returns have their [id] cut at its first
    [":"], so they need not be among those passed in. *)
Theorem exclusiveOfRecordIdentitySet_cuts_ids rs1 rs2 :
  Forall (fun x => lacks ":" (type x) = true) rs1 ->
  Forall (fun x => lacks ":" (type x) = true) rs2 ->
  exclusiveOfRecordIdentitySet (Some (DataMany rs1)) (Some (DataMany rs2))
  = Ok (map cut (List.filter (fun r => negb (bool_decide (r ∈ rs2))) rs1)).
Proof.
  intros H1 H2. unfold exclusiveOfRecordIdentitySet. cbn.
  rewrite exclusive_serialized by done. f_equal. rewrite map_map.
  assert (Forall (fun x => lacks ":" (type x) = true)
            (List.filter (fun r => negb (bool_decide (r ∈ rs2))) rs1)) as H.
  { rewrite Forall_forall in H1. apply Forall_forall.
    intros r [Hin _]%list_elem_of_In%filter_In. by apply H1, list_elem_of_In. }
  induction H as [|r rs Hr _ IH]; cbn; [done|].
  by rewrite (deserialize_serialize r Hr), IH.
Qed.

Lemma exclusiveOfRecordIdentitySet_cuts_ids_witness :
  exclusiveOfRecordIdentitySet (Some (DataMany [mkIdentity "moon" "io:1"]))
    (Some (DataMany []))
  = Ok (map cut
          (List.filter (fun r => negb (bool_decide (r ∈ [])))
             [mkIdentity "moon" "io:1"])).
Proof.
  apply exclusiveOfRecordIdentitySet_cuts_ids; repeat constructor.
Defined.

Lemma equalRecordIdentitySets_lists rs1 rs2 :
  Forall (fun x => lacks ":" (type x) = true) rs1 ->
  Forall (fun x => lacks ":" (type x) = true) rs2 ->
  exists b,
    equalRecordIdentitySets (Some (DataMany rs1)) (Some (DataMany rs2)) = Ok b
    /\ (b = true <->
        length rs1 = length rs2 /\ forall r, r ∈ rs1 <-> r ∈ rs2).
Proof.
  intros H1 H2. unfold equalRecordIdentitySets. cbn.
  destruct (decide (Some (length rs1) = Some (length rs2))) as [Hlen|Hlen].
  - injection Hlen as Hlen.
    destruct (decide (Some (length rs1) = Some 0%nat)) as [Hzero|Hzero].
    + injection Hzero as Hzero. exists true. split; [done|]. split; [|done].
      intros _. split; [done|].
      rewrite Hzero in Hlen. symmetry in Hlen.
      apply length_zero_iff_nil in Hzero as ->, Hlen as ->. done.
    + eexists. split; [reflexivity|].
      rewrite andb_true_iff, !bool_decide_eq_true.
      rewrite !exclusive_serialized by done.
      rewrite !map_nil_iff, !filter_nil.
      split.
      * intros [H12 H21]. split; [done|]. intros r. split; intros Hin.
        -- specialize (H12 r Hin). apply negb_false_iff, bool_decide_eq_true in H12.
           done.
        -- specialize (H21 r Hin). apply negb_false_iff, bool_decide_eq_true in H21.
           done.
      * intros [_ Hsame]. split; intros r Hin;
          apply negb_false_iff, bool_decide_eq_true; by apply Hsame.
  - exists false. split; [done|]. split; [done|]. intros [Hl _]. congruence.
Qed.

(** X4.  On two arrays of identities whose [type]s have no [":"],
    [equalRecordIdentitySets] answers [true] exactly when the arrays have
    the same length and the same members; how often a member is repeated
    does not count. *)
Theorem equalRecordIdentitySets_members rs1 rs2 :
  Forall (fun x => lacks ":" (type x) = true) rs1 ->
  Forall (fun x => lacks ":" (type x) = true) rs2 ->
  exists b,
    equalRecordIdentitySets (Some (DataMany rs1)) (Some (DataMany rs2)) = Ok b
    /\ (b = true <->
        length rs1 = length rs2 /\ forall r, r ∈ rs1 <-> r ∈ rs2).
Proof. apply equalRecordIdentitySets_lists. Qed.

Lemma equalRecordIdentitySets_members_witness :
  exists b,
    equalRecordIdentitySets
      (Some (DataMany [mkIdentity "moon" "a"; mkIdentity "moon" "a";
                       mkIdentity "moon" "b"]))
      (Some (DataMany [mkIdentity "moon" "a"; mkIdentity "moon" "b";
                       mkIdentity "moon" "b"]))
    = Ok b
    /\ (b = true <->
        length [mkIdentity "moon" "a"; mkIdentity "moon" "a"; mkIdentity "moon" "b"]
        = length [mkIdentity "moon" "a"; mkIdentity "moon" "b"; mkIdentity "moon" "b"]
        /\ forall r,
             r ∈ [mkIdentity "moon" "a"; mkIdentity "moon" "a"; mkIdentity "moon" "b"]
             <-> r ∈ [mkIdentity "moon" "a"; mkIdentity "moon" "b";
                      mkIdentity "moon" "b"]).
Proof.
  apply equalRecordIdentitySets_members; repeat constructor.
Defined.

(** X5.  [recordIdentitySetIncludes] on an array of identities answers
    whether the identity is a member of the array. *)
Theorem recordIdentitySetIncludes_member rs x :
  recordIdentitySetIncludes (Some (DataMany rs)) x = Ok (bool_decide (x ∈ rs)).
Proof.
  unfold recordIdentitySetIncludes. f_equal.
  induction rs as [|r rs IH]; [done|]. cbn [existsb]. rewrite IH.
  destruct (equalRecordIdentities (Some (DataOne r)) (Some (DataOne x))) eqn:Heq.
  - apply sameIdentity_eq in Heq as ->. symmetry. apply bool_decide_eq_true. by left.
  - cbn. apply bool_decide_ext. rewrite elem_of_cons. split; [by right|].
    intros [->|H]; [|done].
    assert (equalRecordIdentities (Some (DataOne r)) (Some (DataOne r)) = true)
      by by apply sameIdentity_eq.
    congruence.
Qed.

(** ** The store and the inverse index ([Cache]) *)

(** X6.  [setRecord] files a record under its [type] and [id]: [getRecord]
    of that identity then returns it, every other identity and the inverse
    index read as before; when the schema has no model of the record's
    [type] (no bucket), [setRecord] raises a TypeError. *)
Theorem setRecord_then_getRecord c rec :
  match _records c !! type (identity rec) with
  | Some _ =>
      exists c',
        setRecord rec c = Ok (tt, c')
        /\ getRecord c' (identity rec) = Ok (Some rec)
        /\ (forall i, i <> identity rec -> getRecord c' i = getRecord c i)
        /\ (forall y, getInverselyRelatedRecords c' y = getInverselyRelatedRecords c y)
  | None => setRecord rec c = Throw TypeError
  end.
Proof.
  destruct (_records c !! type (identity rec)) as [bucket|] eqn:Hbucket.
  - destruct (getRecord_setRecord c rec) as (c' & Hset & Hget & Hother & Hindex & _);
      [by rewrite Hbucket|].
    exists c'. split_and!; [done|done|done|].
    intros y. unfold getInverselyRelatedRecords. by rewrite Hindex.
  - unfold setRecord. by rewrite Hbucket.
Qed.

(** X7.  [removeRecord] returns the record stored under the identity and
    takes it out of the store, leaving the other records; when there is
    none it returns [null] and the state is as before. *)
Theorem removeRecord_then_getRecord c x r :
  getRecord c x = Ok r ->
  exists c',
    removeRecord x c = Ok (r, c')
    /\ getRecord c' x = Ok None
    /\ (forall i, i <> x -> getRecord c' i = getRecord c i)
    /\ (r = None -> c' = c).
Proof.
  unfold getRecord, removeRecord.
  destruct (_records c !! type x) as [bucket|] eqn:Hbucket; [|done].
  intros [= <-]. destruct (bucket !! id x) as [rec|] eqn:Hrec.
  - eexists. split; [reflexivity|]. cbn. split_and!; [| |done].
    + by rewrite lookup_insert_eq, lookup_delete_eq.
    + intros [t i] Hne. cbn. destruct (decide (t = type x)) as [->|Ht].
      * rewrite lookup_insert_eq, Hbucket. rewrite lookup_delete_ne; [done|].
        intros <-. apply Hne. by destruct x.
      * by rewrite lookup_insert_ne.
  - exists c. split_and!; [done| |done|done]. by rewrite Hbucket, Hrec.
Qed.

Lemma removeRecord_then_getRecord_witness :
  exists c',
    removeRecord Example.jupiter RemovalExample.added
    = Ok (Some (mkRecord Example.jupiter None None
                  (Some {["moons" := DataMany [Example.io]]})), c')
    /\ getRecord c' Example.jupiter = Ok None
    /\ (forall i, i <> Example.jupiter ->
                  getRecord c' i = getRecord RemovalExample.added i)
    /\ (Some (mkRecord Example.jupiter None None
                (Some {["moons" := DataMany [Example.io]]})) = None ->
        c' = RemovalExample.added).
Proof.
  apply (removeRecord_then_getRecord RemovalExample.added Example.jupiter).
  by vm_compute.
Defined.

Lemma lookup_deletes {V} (ks : list string) (m : gmap string V) k :
  fold_right (fun k m => delete k m) m ks !! k
  = if bool_decide (k ∈ ks) then None else m !! k.
Proof.
  induction ks as [|k' ks IH]; cbn; [done|].
  destruct (decide (k = k')) as [->|Hne].
  - rewrite lookup_delete_eq. rewrite bool_decide_eq_true_2; [done|by left].
  - rewrite lookup_delete_ne by done. rewrite IH.
    apply (f_equal (fun b : bool => if b then None else m !! k)).
    apply bool_decide_ext. rewrite elem_of_cons.
    split; [intros ?; by right | by intros [->|?]].
Qed.

(** X8.  [removeRecords(type, identities)] looks the identities up in the
    bucket of [type] by their [id] alone, whatever their own [type]; it
    returns the record found for each identity, in order and once per
    occurrence, and afterwards the bucket has no record under any of the
    [id]s, the rest of the store being as before. *)
Theorem removeRecords_by_id c t ids bucket :
  _records c !! t = Some bucket ->
  exists c',
    removeRecords t ids c = Ok (omap (fun i => bucket !! id i) ids, c')
    /\ (forall k,
          getRecord c' (mkIdentity t k)
          = Ok (if bool_decide (k ∈ map id ids) then None else bucket !! k))
    /\ (forall i, type i <> t -> getRecord c' i = getRecord c i).
Proof.
  intros Hbucket. unfold removeRecords. rewrite Hbucket. eexists.
  split; [|split].
  - f_equal. f_equal. induction ids as [|i ids IH]; [done|]. cbn.
    destruct (bucket !! id i); cbn; by rewrite IH.
  - intros k. unfold getRecord. cbn. rewrite lookup_insert_eq. f_equal.
    rewrite lookup_deletes.
    case_bool_decide as Hdeleted; case_bool_decide as Hlisted; try done.
    + (* deleted, so listed *)
      exfalso. apply Hlisted.
      apply list_elem_of_In, in_map_iff in Hdeleted as ([k' r] & Hk & Hfound).
      cbn in Hk. subst k'.
      apply list_elem_of_In, list_elem_of_omap in Hfound as (i & Hi & Hr).
      destruct (bucket !! id i); [|done]. injection Hr as <- _.
      apply list_elem_of_In, in_map_iff. exists i. split; [done|].
      by apply list_elem_of_In.
    + (* listed and not deleted: there was no record *)
      apply list_elem_of_In, in_map_iff in Hlisted as (i & <- & Hin).
      destruct (bucket !! id i) as [r|] eqn:Hr; [|done].
      exfalso. apply Hdeleted. apply list_elem_of_In, in_map_iff.
      exists (id i, r). split; [done|]. apply list_elem_of_In.
      apply list_elem_of_omap. exists i. split; [by apply list_elem_of_In|].
      by rewrite Hr.
  - intros i Hne. unfold getRecord. cbn. by rewrite lookup_insert_ne.
Qed.

Lemma removeRecords_by_id_witness :
  exists c',
    removeRecords "moon" [mkIdentity "planet" "io"; Example.io] RemovalExample.added
    = Ok (omap (fun i => ({["io" := RemovalExample.io]} : gmap string Record_) !! id i)
            [mkIdentity "planet" "io"; Example.io], c')
    /\ (forall k,
          getRecord c' (mkIdentity "moon" k)
          = Ok (if bool_decide (k ∈ map id [mkIdentity "planet" "io"; Example.io])
                then None
                else ({["io" := RemovalExample.io]} : gmap string Record_) !! k))
    /\ (forall i, type i <> "moon" -> getRecord c' i = getRecord RemovalExample.added i).
Proof.
  apply (removeRecords_by_id RemovalExample.added "moon"
           [mkIdentity "planet" "io"; Example.io]).
  by vm_compute.
Defined.

Lemma same_related_eq e r : same_related e r = bool_decide (e = r).
Proof.
  unfold same_related. destruct e as [[t i] R], r as [[t' i'] R']. cbn.
  destruct (String.eqb_spec t t') as [->|Ht]; cbn;
    [|by rewrite bool_decide_eq_false_2; [|congruence]].
  destruct (String.eqb_spec i i') as [->|Hi]; cbn;
    [|by rewrite bool_decide_eq_false_2; [|congruence]].
  destruct (String.eqb_spec R R') as [->|HR]; cbn;
    [|by rewrite bool_decide_eq_false_2; [|congruence]].
  by rewrite bool_decide_eq_true_2.
Qed.

Lemma getInverselyRelatedRecords_backrefs c y l :
  getInverselyRelatedRecords c y = Ok l -> backrefs c y = l.
Proof.
  unfold getInverselyRelatedRecords, backrefs.
  destruct (_inverseRelationships c !! type y); [|done]. by intros [= <-].
Qed.

Lemma backrefs_getInverselyRelatedRecords c y bucket :
  _inverseRelationships c !! type y = Some bucket ->
  getInverselyRelatedRecords c y = Ok (backrefs c y).
Proof.
  intros H. unfold getInverselyRelatedRecords, backrefs. by rewrite H.
Qed.

(** X9.  [addInverselyRelatedRecord] appends the back-reference to those
    filed under the record, without looking for a copy of it;
    [removeInverselyRelatedRecord] then takes out every copy, so that the
    two calls leave the earlier list only if the back-reference was not in
    it.  The lists of the other records are as before. *)
Theorem addInverselyRelatedRecord_then_remove c y r old :
  getInverselyRelatedRecords c y = Ok old ->
  exists c1 c2,
    addInverselyRelatedRecord y r c = Ok (tt, c1)
    /\ getInverselyRelatedRecords c1 y = Ok (old ++ [r])
    /\ removeInverselyRelatedRecord y r c1 = Ok (tt, c2)
    /\ getInverselyRelatedRecords c2 y
       = Ok (List.filter (fun e => negb (bool_decide (e = r))) old)
    /\ (forall z, z <> y ->
          getInverselyRelatedRecords c2 z = getInverselyRelatedRecords c z).
Proof.
  intros Hold. pose proof (getInverselyRelatedRecords_backrefs _ _ _ Hold) as Hback.
  unfold getInverselyRelatedRecords in Hold.
  destruct (_inverseRelationships c !! type y) as [bucket|] eqn:Hbucket; [|done].
  injection Hold as Hold.
  unfold addInverselyRelatedRecord. rewrite Hbucket, Hold.
  eexists. eexists. split; [reflexivity|].
  unfold removeInverselyRelatedRecord, getInverselyRelatedRecords. cbn.
  rewrite !lookup_insert_eq. cbn. rewrite ?lookup_insert_eq. cbn.
  split_and!; [done|reflexivity| |]; cbn; rewrite ?lookup_insert_eq; cbn;
    rewrite ?lookup_insert_eq; cbn.
  - f_equal. rewrite List.filter_app. cbn.
    rewrite same_related_eq, bool_decide_eq_true_2 by done. cbn.
    rewrite app_nil_r. apply filter_ext. intros e. by rewrite same_related_eq.
  - intros [t i] Hne. cbn. destruct (decide (t = type y)) as [->|Ht].
    + rewrite !lookup_insert_eq, Hbucket. f_equal.
      rewrite insert_insert_eq, lookup_insert_ne; [done|].
      intros <-. apply Hne. by destruct y.
    + by rewrite !lookup_insert_ne.
Qed.

Lemma addInverselyRelatedRecord_then_remove_witness :
  exists c1 c2,
    addInverselyRelatedRecord Example.jupiter (mkRelated Example.io "planet")
      RemovalExample.added = Ok (tt, c1)
    /\ getInverselyRelatedRecords c1 Example.jupiter
       = Ok ([mkRelated Example.io "planet"] ++ [mkRelated Example.io "planet"])
    /\ removeInverselyRelatedRecord Example.jupiter (mkRelated Example.io "planet") c1
       = Ok (tt, c2)
    /\ getInverselyRelatedRecords c2 Example.jupiter
       = Ok (List.filter
               (fun e => negb (bool_decide (e = mkRelated Example.io "planet")))
               [mkRelated Example.io "planet"])
    /\ (forall z, z <> Example.jupiter ->
          getInverselyRelatedRecords c2 z
          = getInverselyRelatedRecords RemovalExample.added z).
Proof.
  apply (addInverselyRelatedRecord_then_remove RemovalExample.added Example.jupiter
           (mkRelated Example.io "planet") [mkRelated Example.io "planet"]).
  by vm_compute.
Defined.

(** ** The results of [patch] *)

(** A result with inverse operations and data appended. *)
Definition extended (result : PatchResult) (invs : list RecordOperation)
  (ds : list PatchResultData) : PatchResult :=
  {| inverse := inverse result ++ invs; data := data result ++ ds |}.

Lemma extended_nothing result : extended result [] [] = result.
Proof. destruct result. unfold extended. cbn. by rewrite !app_nil_r. Qed.

Lemma extended_extended result invs ds invs' ds' :
  extended (extended result invs ds) invs' ds'
  = extended result (invs ++ invs') (ds ++ ds').
Proof. unfold extended. cbn. by rewrite !app_assoc. Qed.

(** A step on the result that, when it completes, has appended [n] data
    and some inverse operations to it, and would have appended the same to
    any other result, reaching the same state. *)
Definition appends (n : nat) (step : PatchResult -> M PatchResult) : Prop :=
  forall result c result' c',
    step result c = Ok (result', c') ->
    exists invs ds,
      length ds = n
      /\ forall result0, step result0 c = Ok (extended result0 invs ds, c').

Lemma appends_result n step result c result' c' :
  appends n step -> step result c = Ok (result', c') ->
  exists invs ds, length ds = n /\ result' = extended result invs ds.
Proof.
  intros Hstep Hrun. destruct (Hstep _ _ _ _ Hrun) as (invs & ds & Hn & Hall).
  exists invs, ds. split; [done|]. specialize (Hall result). congruence.
Qed.

Lemma appends_foldlM {A} n (f : PatchResult -> A -> M PatchResult) l :
  (forall a, appends n (fun result => f result a)) ->
  appends (length l * n) (fun result => foldlM f l result).
Proof.
  intros Hf. induction l as [|a l IH]; intros result c result' c'; cbn [foldlM length].
  - intros [-> ->]%ret_inv. exists [], []. split; [done|].
    intros result0. by rewrite extended_nothing.
  - intros (result1 & c1 & H1 & Hrest)%bind_inv.
    destruct (Hf a _ _ _ _ H1) as (invs1 & ds1 & Hn1 & Hall1).
    destruct (IH _ _ _ _ Hrest) as (invs2 & ds2 & Hn2 & Hall2).
    exists (invs1 ++ invs2), (ds1 ++ ds2). split; [rewrite length_app; cbn; lia|].
    intros result0. rewrite (bind_Ok _ _ _ _ _ (Hall1 result0)), Hall2.
    by rewrite extended_extended.
Qed.

Lemma appends_nothing_nil step result c result' c' :
  appends 0 step -> step result c = Ok (result', c') ->
  exists invs, forall result0, step result0 c = Ok (extended result0 invs [], c').
Proof.
  intros Hstep Hrun. destruct (Hstep _ _ _ _ Hrun) as (invs & ds & Hn & Hall).
  apply length_zero_iff_nil in Hn as ->. eauto.
Qed.

Section Results.

Variable processors : list SyncOperationProcessor.

(** An operation appends its inverse operations and, when it is primary,
    one datum to the result, whatever the result holds. *)
Lemma applyOperation_appends fuel :
  forall op primary,
    appends (if primary : bool then 1 else 0)
      (fun result => _applyOperation processors fuel op result primary).
Proof.
  induction fuel as [|fuel IH]; intros op primary result c result' c'; [done|].
  assert (forall opss,
             appends 0
               (fun result =>
                  foldlM
                    (fun result ops =>
                       foldlM (fun result op =>
                                 _applyOperation processors fuel op result false)
                         ops result)
                    opss result)) as Hall.
  { intros opss.
    replace 0%nat with (length opss * 0)%nat by lia.
    apply appends_foldlM. intros ops.
    replace 0%nat with (length ops * 0)%nat by lia.
    apply appends_foldlM. intros op'. apply (IH op' false). }
  cbn [_applyOperation].
  intros (u & c1 & Hvalidate & Hrun)%bind_inv.
  apply bind_inv in Hrun as (inverseOp & ? & [Hinverse ->]%read_inv & Hrun).
  destruct inverseOp as [inverseOp|].
  - apply bind_inv in Hrun as (befores & c2 & Hb & Hrun).
    apply bind_inv in Hrun as (result1 & c3 & Hba & Hrun).
    destruct (appends_nothing_nil _ _ _ _ _ (Hall befores) Hba) as (invs1 & H1).
    pose proof (H1 (pushInverse result inverseOp)) as Hresult1.
    rewrite Hba in Hresult1. injection Hresult1 as ->.
    apply bind_inv in Hrun as (prepared & c4 & Ha & Hrun).
    apply bind_inv in Hrun as (d & c5 & Hmain & Hrun).
    apply bind_inv in Hrun as (u1 & c6 & Himm & Hrun).
    apply bind_inv in Hrun as (u2 & c7 & Hemit & Hrun).
    apply bind_inv in Hrun as (result2 & c8 & Hpa & Hrun).
    destruct (appends_nothing_nil _ _ _ _ _ (Hall prepared) Hpa) as (invs2 & H2).
    apply bind_inv in Hrun as (finals & c9 & Hf & Hrun).
    destruct (appends_nothing_nil _ _ _ _ _ (Hall finals) Hrun) as (invs3 & H3).
    exists ([inverseOp] ++ invs1 ++ invs2 ++ invs3), (if primary then [d] else []).
    split; [by destruct primary|].
    intros result0.
    rewrite (bind_Ok _ _ _ _ _ Hvalidate).
    rewrite (bind_Ok _ _ _ _ _ (read_Ok _ _ _ Hinverse)).
    rewrite (bind_Ok _ _ _ _ _ Hb).
    rewrite (bind_Ok _ _ _ _ _ (H1 _)).
    rewrite (bind_Ok _ _ _ _ _ Ha).
    rewrite (bind_Ok _ _ _ _ _ Hmain).
    rewrite (bind_Ok _ _ _ _ _ Himm).
    rewrite (bind_Ok _ _ _ _ _ Hemit).
    rewrite (bind_Ok _ _ _ _ _ (H2 _)).
    rewrite (bind_Ok _ _ _ _ _ Hf).
    rewrite H3. f_equal. f_equal.
    unfold extended, pushInverse, pushData. destruct primary; cbn;
      rewrite ?app_nil_r, <- ?app_assoc; reflexivity.
  - apply ret_inv in Hrun as [-> ->].
    exists [], (if primary then [None] else []). split; [by destruct primary|].
    intros result0.
    rewrite (bind_Ok _ _ _ _ _ Hvalidate).
    rewrite (bind_Ok _ _ _ _ _ (read_Ok _ _ _ Hinverse)).
    unfold extended, pushData. destruct primary; cbn; [by rewrite app_nil_r|].
    destruct result0. cbn. by rewrite !app_nil_r.
Qed.

Lemma applyOperations_appends fuel ops :
  appends (length ops)
    (fun result => _applyOperations processors fuel ops result true).
Proof.
  unfold _applyOperations.
  replace (length ops) with (length ops * 1)%nat by lia.
  apply appends_foldlM. intros op. apply (applyOperation_appends fuel op true).
Qed.

(** X10.  The result of [patch] has one datum per operation passed: one
    for a single operation, as many as the array has operations; the
    operations that the processors add contribute none. *)
Theorem patch_data_per_operation fuel operationOrOperations c result c' :
  patch processors fuel operationOrOperations c = Ok (result, c') ->
  length (data result)
  = match operationOrOperations with
    | inl _ => 1%nat
    | inr ops => length ops
    end.
Proof.
  unfold patch. intros (result1 & ? & Hrun & [-> ->]%ret_inv)%bind_inv. cbn.
  destruct operationOrOperations as [op|ops].
  - destruct (appends_result _ _ _ _ _ _ (applyOperation_appends fuel op true) Hrun)
      as (invs & ds & Hn & ->).
    done.
  - destruct (appends_result _ _ _ _ _ _ (applyOperations_appends fuel ops) Hrun)
      as (invs & ds & Hn & ->).
    done.
Qed.

(** X11.  [patch] of an array of operations is [patch] of a first part
    followed, in the state reached, by [patch] of the rest: the data are
    those of the first part and then those of the rest, and the inverse
    operations those of the rest and then those of the first part. *)
Theorem patch_of_concatenation fuel ops1 ops2 c result c'' :
  patch processors fuel (inr (ops1 ++ ops2)) c = Ok (result, c'')
  <-> exists result1 c' result2,
        patch processors fuel (inr ops1) c = Ok (result1, c')
        /\ patch processors fuel (inr ops2) c' = Ok (result2, c'')
        /\ result = {| inverse := inverse result2 ++ inverse result1;
                       data := data result1 ++ data result2 |}.
Proof.
  unfold patch, _applyOperations. split.
  - intros (result0 & ? & Hrun & [-> ->]%ret_inv)%bind_inv.
    rewrite foldlM_app in Hrun.
    destruct (foldlM _ ops1 _ c) as [[result1 c']| |] eqn:H1; [|done|done].
    destruct (appends_result _ _ _ _ _ _ (applyOperations_appends fuel ops1) H1)
      as (invs1 & ds1 & _ & ->).
    destruct (applyOperations_appends fuel ops2 _ _ _ _ Hrun)
      as (invs2 & ds2 & _ & H2).
    pose proof (H2 (extended {| inverse := []; data := [] |} invs1 ds1)) as Hresult.
    unfold _applyOperations in Hresult. rewrite Hrun in Hresult.
    injection Hresult as ->.
    eexists _, c', _. split_and!.
    + rewrite (bind_Ok _ _ _ _ _ H1). reflexivity.
    + rewrite (bind_Ok _ _ _ _ _ (H2 {| inverse := []; data := [] |})). reflexivity.
    + cbn [extended inverse data app]. by rewrite reverse_app.
  - intros (result1 & c' & result2 & H1 & H2 & ->).
    apply bind_inv in H1 as (r1 & ? & H1 & [-> <-]%ret_inv).
    apply bind_inv in H2 as (r2 & ? & H2 & [-> <-]%ret_inv).
    destruct (appends_result _ _ _ _ _ _ (applyOperations_appends fuel ops1) H1)
      as (invs1 & ds1 & _ & ->).
    destruct (applyOperations_appends fuel ops2 _ _ _ _ H2)
      as (invs2 & ds2 & _ & Hall2).
    pose proof (Hall2 {| inverse := []; data := [] |}) as Hresult.
    unfold _applyOperations in Hresult. rewrite H2 in Hresult.
    injection Hresult as ->.
    assert (foldlM (fun result op => _applyOperation processors fuel op result true)
              (ops1 ++ ops2) {| inverse := []; data := [] |} c
            = Ok (extended (extended {| inverse := []; data := [] |} invs1 ds1)
                    invs2 ds2, c'')) as Hrun.
    { rewrite foldlM_app, H1. apply Hall2. }
    rewrite (bind_Ok _ _ _ _ _ Hrun). cbn [extended inverse data app].
    by rewrite reverse_app.
Qed.

(** A single operation is patched as the array that holds just that
    operation. *)
Lemma patch_of_one_operation fuel op c :
  patch processors fuel (inl op) c = patch processors fuel (inr [op]) c.
Proof.
  unfold patch, mbind, M_bind. by rewrite applyOperations_one.
Qed.


End Results.

Lemma patch_data_per_operation_witness :
  exists result c',
    patch defaultProcessors 10
      (inr [AddRecord RemovalExample.jupiter; AddRecord RemovalExample.io])
      (Example.emptyCache Example.schema) = Ok (result, c')
    /\ length (data result) = 2%nat.
Proof.
  destruct (patch defaultProcessors 10
              (inr [AddRecord RemovalExample.jupiter; AddRecord RemovalExample.io])
              (Example.emptyCache Example.schema)) as [[result c']| |] eqn:Hrun;
    [|by vm_compute in Hrun..].
  exists result, c'. split; [reflexivity|].
  exact (patch_data_per_operation defaultProcessors 10
           (inr [AddRecord RemovalExample.jupiter; AddRecord RemovalExample.io])
           _ result c' Hrun).
Defined.


(** ** [replaceRecord] with a relationship that is new to the record *)






(** ** Patches that take references away *)

(** X14.  A patch, by a cache with the default processors, of operations
    that remove an identity from a hasMany relationship or set a hasOne
    relationship to [null] adds nothing: every reference and every
    back-reference of the state reached was there before, and the record
    of each operation no longer names what the operation removed. *)
Theorem removals_add_nothing fuel ops c result c' :
  wellKeyed c ->
  Forall removal ops ->
  patch defaultProcessors fuel (inr ops) c = Ok (result, c') ->
  (forall a R y, names c' a R y -> names c a R y)
  /\ (forall y r, r ∈ backrefs c' y -> r ∈ backrefs c y)
  /\ Forall (fun op => cleared op c') ops.
Proof.
  intros Hkeyed Hops. unfold patch, _applyOperations.
  intros (result1 & ? & Hrun & [_ ->]%ret_inv)%bind_inv.
  destruct (removals_applied (fun result op =>
                                _applyOperation defaultProcessors fuel op result true)
              ops
              (fun op result =>
                 removal_applied defaultProcessors tame_defaultProcessors fuel
                   op result true)
              _ _ _ _ _ Hops (shrinks_refl c Hkeyed) Hrun) as [Hs Hcleared].
  split_and!; [apply (shrinks_names _ _ Hs) | apply (shrinks_backrefs _ _ Hs) | done].
Qed.

Lemma removals_add_nothing_witness :
  exists result c',
    patch defaultProcessors 10 (inr [ReplaceRelatedRecord Example.io "planet" DataNull])
      RemovalExample.added = Ok (result, c')
    /\ (forall a R y, names c' a R y -> names RemovalExample.added a R y)
    /\ (forall y r, r ∈ backrefs c' y -> r ∈ backrefs RemovalExample.added y)
    /\ Forall (fun op => cleared op c')
         [ReplaceRelatedRecord Example.io "planet" DataNull].
Proof.
  destruct (patch defaultProcessors 10
              (inr [ReplaceRelatedRecord Example.io "planet" DataNull])
              RemovalExample.added) as [[result c']| |] eqn:Hrun;
    [|by vm_compute in Hrun..].
  exists result, c'. split; [reflexivity|].
  apply (removals_add_nothing 10 [ReplaceRelatedRecord Example.io "planet" DataNull]
           RemovalExample.added result c').
  - apply wellKeyed_checked. apply (bool_decide_unpack _). by vm_compute.
  - by repeat constructor.
  - exact Hrun.
Defined.

(** ** Filters and sort specifiers (query-operators.ts) *)

Section Queries.

Variable lessThan : value -> value -> option bool.
Variable nativeSort : forall A : Type, (A -> A -> Z) -> list A -> list A.

Local Abbreviation applyFilter := (QueryOperators.applyFilter lessThan).
Local Abbreviation filterRecords := (QueryOperators.filterRecords lessThan).
Local Abbreviation sortRecords := (QueryOperators.sortRecords lessThan nativeSort).
Local Abbreviation compareValues := (QueryOperators.compareValues lessThan).

Lemma every_app {A} (f : A -> outcome bool) l1 l2 :
  QueryOperators.every f (l1 ++ l2)
  = (b ← QueryOperators.every f l1;
     if b : bool then QueryOperators.every f l2 else Ok false).
Proof.
  induction l1 as [|a l1 IH]; cbn; [by destruct (QueryOperators.every f l2)|].
  destruct (f a) as [[|]| |]; cbn; [exact IH|done..].
Qed.

(** X15.  Filtering by a list of filters is filtering by a first part of
    the list and then filtering what is left by the rest: with the same
    records returned whenever either side completes. *)
Theorem filterRecords_of_concatenation records filters1 filters2 out :
  filterRecords records (filters1 ++ filters2) = Ok out
  <-> exists kept,
        filterRecords records filters1 = Ok kept
        /\ filterRecords kept filters2 = Ok out.
Proof.
  revert out. induction records as [|rec records IH]; intros out; cbn.
  - split; [intros [= <-]; by exists [] | by intros (kept & [= <-] & [= <-])].
  - rewrite every_app. split.
    + intros (keep & Hkeep & (rest & Hrest & [= <-])%obind_inv)%obind_inv.
      apply IH in Hrest as (kept & Hkept & Hout).
      apply obind_inv in Hkeep as (b1 & H1 & Hkeep). rewrite H1, Hkept. cbn.
      destruct b1.
      * eexists. split; [reflexivity|]. cbn. by rewrite Hkeep, Hout.
      * injection Hkeep as <-. by exists kept.
    + intros (kept' & (b1 & H1 & (kept & Hkept & [= <-])%obind_inv)%obind_inv & Hout).
      rewrite H1. cbn. destruct b1.
      * cbn in Hout.
        apply obind_inv in Hout as (b2 & H2 & (rest & Hrest & [= <-])%obind_inv).
        rewrite H2. cbn.
        assert (QueryOperators.filterRecords lessThan records (filters1 ++ filters2)
                = Ok rest) as -> by (apply IH; eauto).
        reflexivity.
      * assert (QueryOperators.filterRecords lessThan records (filters1 ++ filters2)
                = Ok out) as -> by (apply IH; eauto).
        reflexivity.
Qed.

Lemma someMatches_member actual e :
  QueryOperators.someMatches (DataMany actual) e = Ok (bool_decide (e ∈ actual)).
Proof.
  unfold QueryOperators.someMatches. f_equal.
  induction actual as [|a actual IH]; [done|]. cbn [existsb]. rewrite IH.
  destruct a as [t i], e as [t' i']. cbn.
  destruct (String.eqb_spec i i') as [->|Hi], (String.eqb_spec t t') as [->|Ht]; cbn.
  - symmetry. apply bool_decide_eq_true. by left.
  - apply bool_decide_ext. rewrite elem_of_cons. split; [by right|].
    intros [[= ?]|?]; done.
  - apply bool_decide_ext. rewrite elem_of_cons. split; [by right|].
    intros [[= ?]|?]; done.
  - apply bool_decide_ext. rewrite elem_of_cons. split; [by right|].
    intros [[= ?]|?]; done.
Qed.

Lemma every_answers {A} (f : A -> outcome bool) (g : A -> bool) l :
  (forall a, f a = Ok (g a)) -> QueryOperators.every f l = Ok (forallb g l).
Proof.
  intros Hf. induction l as [|a l IH]; [done|]. cbn. rewrite Hf. cbn.
  destruct (g a); [exact IH | done].
Qed.

Lemma some_answers {A} (f : A -> outcome bool) (g : A -> bool) l :
  (forall a, f a = Ok (g a)) -> QueryOperators.some f l = Ok (existsb g l).
Proof.
  intros Hf. induction l as [|a l IH]; [done|]. cbn. rewrite Hf. cbn.
  destruct (g a); [done | exact IH].
Qed.

(** X16.  The [relatedRecords] filter on a record whose relationship
    lists [actual] (nothing, when the record has no such relationship):
    [all] holds when every expected identity is listed, [some] when one of
    them is, [none] when none is, and [equal] when every expected identity
    is listed and the two arrays have the same length, which does not make
    them hold the same identities. *)
Theorem relatedRecords_filter_ops rec relation actual expected :
  default (DataMany []) (deepGet_data rec relation) = DataMany actual ->
  let listed e := bool_decide (e ∈ actual) in
  applyFilter rec (RelatedRecordsFilter relation "all" expected)
  = Ok (forallb listed expected)
  /\ applyFilter rec (RelatedRecordsFilter relation "some" expected)
     = Ok (existsb listed expected)
  /\ applyFilter rec (RelatedRecordsFilter relation "none" expected)
     = Ok (negb (existsb listed expected))
  /\ applyFilter rec (RelatedRecordsFilter relation "equal" expected)
     = Ok (bool_decide (length actual = length expected) && forallb listed expected).
Proof.
  intros Hactual listed. unfold QueryOperators.applyFilter. rewrite Hactual. cbn.
  rewrite (every_answers _ listed), (some_answers _ listed)
    by apply someMatches_member.
  split_and!; try reflexivity.
  case_decide as Hlen.
  - injection Hlen as Hlen. by rewrite bool_decide_eq_true_2.
  - rewrite bool_decide_eq_false_2; [done|]. intros Heq. apply Hlen. by rewrite Heq.
Qed.

Lemma comparisonValues_raises rec specifiers s :
  s ∈ specifiers -> kind s <> "attribute" ->
  QueryOperators.comparisonValues rec specifiers = Throw QueryExpressionParseError.
Proof.
  intros Hin Hkind. induction Hin as [s specifiers|s s' specifiers _ IH]; cbn.
  - by rewrite (proj2 (String.eqb_neq _ _) Hkind).
  - destruct (String.eqb (kind s') "attribute"); [|done]. by rewrite IH.
Qed.

(** X17.  Filters and sort specifiers are only looked at for the records
    there are: [findRecords] of a type that has no record returns the empty
    sequence whatever its filters and sort specifiers, recognized or not,
    and raises only for a page without [limit].  (Sorting the empty array
    gives the empty array.) *)
Theorem findRecords_of_empty_type c e :
  (forall A cmp, nativeSort A cmp [] = []) ->
  getRecords c (findType e) = Ok [] ->
  QueryOperators.findRecords lessThan nativeSort c e
  = match page e with
    | Some p =>
        match limit p with
        | Some _ => Ok []
        | None => Throw QueryExpressionParseError
        end
    | None => Ok []
    end.
Proof.
  intros Hsort Hnone.
  unfold QueryOperators.findRecords, QueryOperators.sortRecords,
    QueryOperators.paginateRecords.
  rewrite Hnone.
  assert (forall o n, slice ([] : list Record_) o n = []) as Hslice
      by (intros o n; unfold slice; by rewrite skipn_nil, firstn_nil).
  destruct (filter e), (sort e), (page e) as [p|]; cbn; rewrite ?Hsort; cbn;
    try done; destruct (limit p); by rewrite ?Hslice.
Qed.

(** X18.  With at least one record to sort, a sort specifier of a kind
    other than [attribute] makes [sortRecords] raise
    [QueryExpressionParseError]. *)
Theorem sortRecords_unknown_specifier rec records specifiers s :
  s ∈ specifiers -> kind s <> "attribute" ->
  sortRecords (rec :: records) specifiers = Throw QueryExpressionParseError.
Proof.
  intros Hin Hkind. unfold QueryOperators.sortRecords. cbn.
  by rewrite (comparisonValues_raises rec _ _ Hin Hkind).
Qed.

(** X19.  The comparison function that [sortRecords] passes to [sort] is
    antisymmetric: comparing two records the other way round gives the
    opposite number, provided [<] never holds both ways between two
    values. *)
Theorem compareValues_antisymmetric values1 values2 orders :
  (forall a b, lessThan a b = Some true -> lessThan b a <> Some true) ->
  compareValues values2 values1 orders = (- compareValues values1 values2 orders)%Z.
Proof.
  intros Hasym. revert values2 orders.
  induction values1 as [|v1 values1 IH]; intros [|v2 values2] [|o orders];
    cbn; try reflexivity.
  unfold QueryOperators.lt, QueryOperators.gt.
  pose proof (Hasym v1 v2) as H12.
  destruct (lessThan v1 v2) as [[|]|], (lessThan v2 v1) as [[|]|]; cbn;
    try (exfalso; by apply H12); try lia;
    destruct (Utils.isNone v1), (Utils.isNone v2); cbn; try lia; apply IH.
Qed.

End Queries.

Lemma relatedRecords_filter_ops_witness :
  let rec := mkRecord Example.jupiter None None
               (Some {["moons" := DataMany [Example.io; Example.europa]]}) in
  let expected := [Example.io; Example.io] in
  let listed e := bool_decide (e ∈ [Example.io; Example.europa]) in
  QueryOperators.applyFilter Example.lessThan rec
    (RelatedRecordsFilter "moons" "all" expected) = Ok (forallb listed expected)
  /\ QueryOperators.applyFilter Example.lessThan rec
       (RelatedRecordsFilter "moons" "some" expected) = Ok (existsb listed expected)
  /\ QueryOperators.applyFilter Example.lessThan rec
       (RelatedRecordsFilter "moons" "none" expected)
     = Ok (negb (existsb listed expected))
  /\ QueryOperators.applyFilter Example.lessThan rec
       (RelatedRecordsFilter "moons" "equal" expected)
     = Ok (bool_decide (length [Example.io; Example.europa] = length expected)
           && forallb listed expected).
Proof.
  apply (relatedRecords_filter_ops Example.lessThan
           (mkRecord Example.jupiter None None
              (Some {["moons" := DataMany [Example.io; Example.europa]]}))
           "moons" [Example.io; Example.europa] [Example.io; Example.io]).
  reflexivity.
Defined.

Lemma findRecords_of_empty_type_witness :
  QueryOperators.findRecords Example.lessThan Example.insertionSort
    (Example.emptyCache Example.schema)
    {| findType := "planet";
       filter := Some [AttributeFilter "name" "like" (VStr "J")];
       sort := Some [mkSort "relationship" "moons" "ascending"];
       page := None |}
  = Ok [].
Proof.
  apply (findRecords_of_empty_type Example.lessThan Example.insertionSort
           (Example.emptyCache Example.schema)
           {| findType := "planet";
              filter := Some [AttributeFilter "name" "like" (VStr "J")];
              sort := Some [mkSort "relationship" "moons" "ascending"];
              page := None |}).
  - reflexivity.
  - by vm_compute.
Defined.

Lemma sortRecords_unknown_specifier_witness :
  QueryOperators.sortRecords Example.lessThan Example.insertionSort
    [PageExample.planet "a" 5] [mkSort "relationship" "moons" "ascending"]
  = Throw QueryExpressionParseError.
Proof.
  apply (sortRecords_unknown_specifier Example.lessThan Example.insertionSort
           (PageExample.planet "a" 5) []
           [mkSort "relationship" "moons" "ascending"]
           (mkSort "relationship" "moons" "ascending")).
  - by left.
  - done.
Defined.

Lemma lessThan_asymmetric a b :
  Example.lessThan a b = Some true -> Example.lessThan b a <> Some true.
Proof.
  destruct a as [| | |x|s|? ?], b as [| | |y|t|? ?]; cbn; try done.
  - intros [= H1] [= H2]. apply Z.ltb_lt in H1, H2. lia.
  - intros [= H1] [= H2]. apply bool_decide_eq_true in H1, H2.
    unfold String.ltb in *. rewrite String.compare_antisym in H2.
    by destruct (String.compare s t).
Qed.

Lemma compareValues_antisymmetric_witness :
  QueryOperators.compareValues Example.lessThan [VNum 3; VNull] [VNum 3; VStr "x"] [1; -1]
  = (- QueryOperators.compareValues Example.lessThan
         [VNum 3; VStr "x"] [VNum 3; VNull] [1; -1])%Z.
Proof.
  apply (compareValues_antisymmetric Example.lessThan
           [VNum 3; VStr "x"] [VNum 3; VNull] [1; -1]).
  exact lessThan_asymmetric.
Defined.

(** ** The inverse index under the cache integrity processor *)

(** The computation leaves the records as they are and adds to the index
    the back-references that [P] gives. *)
Definition files (m : M unit) (P : RecordIdentity -> RelatedRecordIdentity -> Prop)
  : Prop :=
  forall c u c',
    m c = Ok (u, c') ->
    _records c' = _records c
    /\ forall y r, r ∈ backrefs c' y <-> r ∈ backrefs c y \/ P y r.

(** The computation leaves the records as they are and takes out of the
    index the back-references that [P] gives. *)
Definition strips (m : M unit) (P : RecordIdentity -> RelatedRecordIdentity -> Prop)
  : Prop :=
  forall c u c',
    m c = Ok (u, c') ->
    _records c' = _records c
    /\ forall y r, r ∈ backrefs c' y <-> r ∈ backrefs c y /\ ~ P y r.

Lemma files_ret : files (mret tt) (fun _ _ => False).
Proof. intros c u c' [_ ->]%ret_inv. split; [done|]. intros y r. tauto. Qed.

Lemma files_bind m m' P Q :
  files m P -> files m' Q -> files (m ≫= fun _ => m') (fun y r => P y r \/ Q y r).
Proof.
  intros Hm Hm' c u c' (? & c1 & H1 & H2)%bind_inv.
  destruct (Hm _ _ _ H1) as [Hr1 Hi1], (Hm' _ _ _ H2) as [Hr2 Hi2].
  split; [congruence|]. intros y r. rewrite Hi2, Hi1. tauto.
Qed.

Lemma files_ext m P Q : files m P -> (forall y r, P y r <-> Q y r) -> files m Q.
Proof.
  intros Hm HPQ c u c' Hrun. destruct (Hm _ _ _ Hrun) as [Hr Hi].
  split; [done|]. intros y r. rewrite Hi, HPQ. tauto.
Qed.

Lemma files_forEach {A} (f : A -> M unit) (P : A -> _) l :
  (forall a, files (f a) (P a)) ->
  files (forEach f l) (fun y r => exists a, a ∈ l /\ P a y r).
Proof.
  intros Hf. induction l as [|a l IH]; cbn [forEach].
  - eapply files_ext; [apply files_ret|]. intros y r. split; [done|].
    by intros (a & ?%elem_of_nil & _).
  - eapply files_ext; [exact (files_bind _ _ _ _ (Hf a) IH)|]. intros y r. split.
    + intros [H|(a' & Hin & H)]; [exists a; split; [by left|done]|].
      exists a'. split; [by right|done].
    + intros (a' & [->|Hin]%elem_of_cons & H); [by left|]. right. eauto.
Qed.

Lemma files_addInverselyRelatedRecord y0 r0 :
  files (addInverselyRelatedRecord y0 r0) (fun y r => y = y0 /\ r = r0).
Proof.
  intros c u c'. unfold addInverselyRelatedRecord.
  destruct (_inverseRelationships c !! type y0) as [bucket|] eqn:Hbucket; [|done].
  intros [= _ <-]. split; [done|]. intros y r.
  rewrite (backrefs_set _ _ _ _ _ _ Hbucket).
  assert (mkIdentity (type y0) (id y0) = y0) as -> by by destruct y0.
  case_decide as Hy.
  - subst y. assert (default [] (bucket !! id y0) = backrefs c y0) as ->.
    { unfold backrefs. by rewrite Hbucket. }
    rewrite elem_of_app, list_elem_of_singleton. tauto.
  - tauto.
Qed.

Lemma strips_ret : strips (mret tt) (fun _ _ => False).
Proof. intros c u c' [_ ->]%ret_inv. split; [done|]. intros y r. tauto. Qed.

Lemma strips_bind m m' P Q :
  strips m P -> strips m' Q -> strips (m ≫= fun _ => m') (fun y r => P y r \/ Q y r).
Proof.
  intros Hm Hm' c u c' (? & c1 & H1 & H2)%bind_inv.
  destruct (Hm _ _ _ H1) as [Hr1 Hi1], (Hm' _ _ _ H2) as [Hr2 Hi2].
  split; [congruence|]. intros y r. rewrite Hi2, Hi1. tauto.
Qed.

Lemma strips_ext m P Q : strips m P -> (forall y r, P y r <-> Q y r) -> strips m Q.
Proof.
  intros Hm HPQ c u c' Hrun. destruct (Hm _ _ _ Hrun) as [Hr Hi].
  split; [done|]. intros y r. rewrite Hi, HPQ. tauto.
Qed.

Lemma strips_forEach {A} (f : A -> M unit) (P : A -> _) l :
  (forall a, strips (f a) (P a)) ->
  strips (forEach f l) (fun y r => exists a, a ∈ l /\ P a y r).
Proof.
  intros Hf. induction l as [|a l IH]; cbn [forEach].
  - eapply strips_ext; [apply strips_ret|]. intros y r. split; [done|].
    by intros (a & ?%elem_of_nil & _).
  - eapply strips_ext; [exact (strips_bind _ _ _ _ (Hf a) IH)|]. intros y r. split.
    + intros [H|(a' & Hin & H)]; [exists a; split; [by left|done]|].
      exists a'. split; [by right|done].
    + intros (a' & [->|Hin]%elem_of_cons & H); [by left|]. right. eauto.
Qed.

Lemma strips_removeInverselyRelatedRecord y0 r0 :
  strips (removeInverselyRelatedRecord y0 r0) (fun y r => y = y0 /\ r = r0).
Proof.
  intros c u c'. unfold removeInverselyRelatedRecord.
  destruct (_inverseRelationships c !! type y0) as [bucket|] eqn:Hbucket; [|done].
  destruct (bucket !! id y0) as [rels|] eqn:Hrels.
  - intros [= _ <-]. split; [done|]. intros y r.
    rewrite (backrefs_set _ _ _ _ _ _ Hbucket).
    assert (mkIdentity (type y0) (id y0) = y0) as -> by by destruct y0.
    case_decide as Hy; [|tauto]. subst y.
    assert (backrefs c y0 = rels) as ->.
    { unfold backrefs. rewrite Hbucket. cbn. by rewrite Hrels. }
    rewrite list_elem_of_In, filter_In, <- list_elem_of_In, same_related_eq.
    rewrite negb_true_iff, bool_decide_eq_false. tauto.
  - intros [= _ <-]. split; [done|]. intros y r. split; [|tauto].
    intros Hin. split; [done|]. intros [-> ->].
    unfold backrefs in Hin. rewrite Hbucket in Hin. cbn in Hin.
    rewrite Hrels in Hin. by apply elem_of_nil in Hin.
Qed.

Lemma strips_cache_removeInverseRelationships x :
  strips (removeInverseRelationships x) (fun y _ => y = x).
Proof.
  intros c u c'. unfold removeInverseRelationships.
  destruct (_inverseRelationships c !! type x) as [bucket|] eqn:Hbucket; [|done].
  intros [= _ <-]. split; [done|]. intros y r.
  rewrite (backrefs_delete _ _ _ _ Hbucket). case_decide; [|tauto].
  split; [by intros ?%elem_of_nil | tauto].
Qed.

(** What [eachRelated] visits: the identities that the data names. *)
Definition named (d : RelData) (y : RecordIdentity) : Prop :=
  match d with
  | DataNull => False
  | DataOne z => z = y
  | DataMany zs => y ∈ zs
  end.

Lemma files_eachRelated r d :
  files
    (CacheIntegrityProcessor.eachRelated
       (fun related => addInverselyRelatedRecord related r) d)
    (fun y r' => named d y /\ r' = r).
Proof.
  destruct d as [|z|zs]; cbn.
  - eapply files_ext; [apply files_ret|]. tauto.
  - eapply files_ext; [apply files_addInverselyRelatedRecord|]. intros y r'. cbn.
    split; [by intros [-> ->] | by intros [-> ->]].
  - eapply files_ext; [apply files_forEach; intros z; apply files_addInverselyRelatedRecord|].
    intros y r'. cbn. split.
    + by intros (z & Hin & -> & ->).
    + intros [Hin ->]. eauto.
Qed.

Lemma strips_eachRelated r d :
  strips
    (CacheIntegrityProcessor.eachRelated
       (fun related => removeInverselyRelatedRecord related r) d)
    (fun y r' => named d y /\ r' = r).
Proof.
  destruct d as [|z|zs]; cbn.
  - eapply strips_ext; [apply strips_ret|]. tauto.
  - eapply strips_ext; [apply strips_removeInverselyRelatedRecord|]. intros y r'. cbn.
    split; [by intros [-> ->] | by intros [-> ->]].
  - eapply strips_ext;
      [apply strips_forEach; intros z; apply strips_removeInverselyRelatedRecord|].
    intros y r'. cbn. split.
    + by intros (z & Hin & -> & ->).
    + intros [Hin ->]. eauto.
Qed.

Lemma pointsTo_named rec R y :
  pointsTo rec R y <-> exists d, deepGet_data rec R = Some d /\ named d y.
Proof.
  unfold pointsTo. destruct (deepGet_data rec R) as [[|z|zs]|]; cbn.
  - split; [done | by intros (d & [= <-] & ?)].
  - split; [intros ->; by eexists | by intros (d & [= <-] & ?)].
  - split; [intros ?; by eexists | by intros (d & [= <-] & ?)].
  - split; [done | by intros (d & ? & ?)].
Qed.

(** What [addAllInverseRelationships] leaves in the index. *)
Lemma addAllInverseRelationships_index rec c u c' :
  CacheIntegrityProcessor.addAllInverseRelationships rec c = Ok (u, c') ->
  _records c' = _records c
  /\ forall y r,
       r ∈ backrefs c' y
       <-> r ∈ backrefs c y
           \/ exists R, r = mkRelated (identity rec) R /\ pointsTo rec R y.
Proof.
  revert c u c'.
  change (files (CacheIntegrityProcessor.addAllInverseRelationships rec)
            (fun y r => exists R, r = mkRelated (identity rec) R /\ pointsTo rec R y)).
  unfold CacheIntegrityProcessor.addAllInverseRelationships.
  rewrite cloneRecordIdentity_id.
  destruct (relationships rec) as [rels|] eqn:Hrels.
  - eapply files_ext.
    + apply (files_forEach _
               (fun '(R, d) y r => named d y /\ r = mkRelated (identity rec) R)).
      intros [R d]. apply files_eachRelated.
    + intros y r. split.
      * intros ([R d] & Hin%elem_of_map_to_list & Hnamed & ->).
        exists R. split; [done|]. apply pointsTo_named. exists d.
        unfold deepGet_data. by rewrite Hrels.
      * intros (R & -> & (d & Hd & Hnamed)%pointsTo_named).
        unfold deepGet_data in Hd. rewrite Hrels in Hd. cbn in Hd.
        exists (R, d). split; [by apply elem_of_map_to_list|done].
  - eapply files_ext; [apply files_ret|]. intros y r. split; [done|].
    intros (R & _ & H). unfold pointsTo, deepGet_data in H. by rewrite Hrels in H.
Qed.

(** X20.  [addAllInverseRelationships(record)] files, under every
    identity that the record names in the data of one of its
    relationships, the back-reference from that relationship of the record,
    whether or not the schema declares an inverse for it; it files nothing
    else, takes nothing out and leaves the records as they are. *)
Theorem addAllInverseRelationships_files rec c u c' :
  CacheIntegrityProcessor.addAllInverseRelationships rec c = Ok (u, c') ->
  _records c' = _records c
  /\ forall y r,
       r ∈ backrefs c' y
       <-> r ∈ backrefs c y
           \/ exists R, r = mkRelated (identity rec) R /\ pointsTo rec R y.
Proof. apply addAllInverseRelationships_index. Qed.

Lemma strips_forward x rels :
  strips
    (forEach
       (fun '(relationship, relationshipData) =>
          CacheIntegrityProcessor.eachRelated
            (fun relatedRecord =>
               removeInverselyRelatedRecord relatedRecord (mkRelated x relationship))
            relationshipData)
       (map_to_list rels))
    (fun y r => exists R d, rels !! R = Some d /\ named d y /\ r = mkRelated x R).
Proof.
  eapply strips_ext.
  - apply (strips_forEach _ (fun '(R, d) y r => named d y /\ r = mkRelated x R)).
    intros [R d]. apply strips_eachRelated.
  - intros y r. split.
    + intros ([R d] & Hin%elem_of_map_to_list & Hnamed & ->). eauto.
    + intros (R & d & Hd & Hnamed & ->). exists (R, d).
      split; [by apply elem_of_map_to_list|done].
Qed.

(** X21.  [removeAllInverseRelationships(x)] takes out of the index the
    back-references from the relationships of the stored record of [x],
    under the identities that record names, and every back-reference filed
    under [x] itself, those that other records hold to [x] included; the
    rest of the index and the records are as before. *)
Theorem removeAllInverseRelationships_strips x c u c' :
  CacheIntegrityProcessor.removeAllInverseRelationships x c = Ok (u, c') ->
  _records c' = _records c
  /\ forall y r,
       r ∈ backrefs c' y
       <-> r ∈ backrefs c y
           /\ y <> x
           /\ ~ (exists R, r = mkRelated x R /\ names c x R y).
Proof.
  unfold CacheIntegrityProcessor.removeAllInverseRelationships.
  intros (rels & ? & [Hread ->]%read_inv & Hrun)%bind_inv.
  apply obind_inv in Hread as (current & Hcurrent%getRecord_inv & [= <-]).
  assert (forall y R,
             names c x R y
             <-> exists rels d,
                   current ≫= relationships = Some rels
                   /\ rels !! R = Some d /\ named d y) as Hnames.
  { intros y R. unfold names. rewrite Hcurrent. split.
    - intros (rec & -> & (d & Hd & Hnamed)%pointsTo_named). cbn.
      unfold deepGet_data in Hd. destruct (relationships rec) as [rels|]; [|done].
      cbn in Hd. eauto.
    - intros (rels & d & Hrels & Hd & Hnamed). destruct current as [rec|]; [|done].
      cbn in Hrels. exists rec. split; [done|]. apply pointsTo_named. exists d.
      unfold deepGet_data. by rewrite Hrels. }
  destruct (current ≫= relationships) as [rels|] eqn:Hrels.
  - destruct (strips_bind _ _ _ _ (strips_forward x rels)
                (strips_cache_removeInverseRelationships x) _ _ _ Hrun)
      as [Hrecords Hindex].
    split; [done|]. intros y r. rewrite Hindex. split.
    + intros (Hin & Hnot). split_and!; [done|tauto|].
      intros (R & -> & (rels' & d & [= <-] & Hd & Hnamed)%Hnames).
      apply Hnot. left. eauto.
    + intros (Hin & Hy & Hnot). split; [done|].
      intros [(R & d & Hd & Hnamed & ->)|Hx]; [|done].
      apply Hnot. exists R. split; [done|]. apply Hnames. eauto.
  - destruct (strips_bind _ _ _ _ strips_ret
                (strips_cache_removeInverseRelationships x) _ _ _ Hrun)
      as [Hrecords Hindex].
    split; [done|]. intros y r. rewrite Hindex. split.
    + intros (Hin & Hnot). split_and!; [done|tauto|].
      by intros (R & -> & (rels' & d & [=] & _)%Hnames).
    + intros (Hin & Hy & Hnot). split; [done|]. tauto.
Qed.

Lemma addAllInverseRelationships_files_witness :
  exists c',
    CacheIntegrityProcessor.addAllInverseRelationships RemovalExample.io
      (Example.emptyCache RemovalExample.schema) = Ok (tt, c')
    /\ _records c' = _records (Example.emptyCache RemovalExample.schema)
    /\ forall y r,
         r ∈ backrefs c' y
         <-> r ∈ backrefs (Example.emptyCache RemovalExample.schema) y
             \/ exists R, r = mkRelated (identity RemovalExample.io) R
                          /\ pointsTo RemovalExample.io R y.
Proof.
  destruct (CacheIntegrityProcessor.addAllInverseRelationships RemovalExample.io
              (Example.emptyCache RemovalExample.schema)) as [[[] c']| |] eqn:Hrun;
    [|by vm_compute in Hrun..].
  exists c'. split; [reflexivity|].
  exact (addAllInverseRelationships_files RemovalExample.io _ tt c' Hrun).
Defined.

Lemma removeAllInverseRelationships_strips_witness :
  exists c',
    CacheIntegrityProcessor.removeAllInverseRelationships Example.jupiter
      RemovalExample.added = Ok (tt, c')
    /\ _records c' = _records RemovalExample.added
    /\ forall y r,
         r ∈ backrefs c' y
         <-> r ∈ backrefs RemovalExample.added y
             /\ y <> Example.jupiter
             /\ ~ (exists R, r = mkRelated Example.jupiter R
                             /\ names RemovalExample.added Example.jupiter R y).
Proof.
  destruct (CacheIntegrityProcessor.removeAllInverseRelationships Example.jupiter
              RemovalExample.added) as [[[] c']| |] eqn:Hrun;
    [|by vm_compute in Hrun..].
  exists c'. split; [reflexivity|].
  exact (removeAllInverseRelationships_strips Example.jupiter _ tt c' Hrun).
Defined.

(** ** Operations on the data of a relationship *)

Section RelatedRecords.

Variable processors : list SyncOperationProcessor.


(** X23.  [replaceRelatedRecords] with an array that has the length and
    the members of the current one is skipped: the state is as before, so
    that the identities stay in the order they were in, no inverse is
    returned and the datum is [null].  (No [type] has a [":"].) *)
Theorem replaceRelatedRecords_with_same_members fuel c a R current replacement :
  accepted processors c (ReplaceRelatedRecords a R (DataMany replacement)) ->
  getRelatedRecords c a R = Ok (DataMany current) ->
  Forall (fun x => lacks ":" (type x) = true) current ->
  Forall (fun x => lacks ":" (type x) = true) replacement ->
  length current = length replacement ->
  (forall r, r ∈ current <-> r ∈ replacement) ->
  patch processors (S fuel) (inl (ReplaceRelatedRecords a R (DataMany replacement))) c
  = Ok ({| inverse := []; data := [None] |}, c).
Proof.
  intros Hvalid Hcurrent Hplain1 Hplain2 Hlength Hmembers.
  assert (InversePatchOperators.apply c
            (ReplaceRelatedRecords a R (DataMany replacement)) = Ok None) as Hinverse.
  { destruct (equalRecordIdentitySets_lists current replacement Hplain1 Hplain2)
      as (b & Hsame & Hb).
    rewrite (proj2 Hb (conj Hlength Hmembers)) in Hsame.
    cbn [InversePatchOperators.apply].
    unfold InversePatchOperators.replaceRelatedRecords. rewrite Hcurrent.
    cbn [mbind outcome_bind obind]. by rewrite Hsame. }
  unfold patch.
  by rewrite (bind_Ok _ _ _ _ _
                (applyOperation_skip processors fuel _ _ true c Hvalid Hinverse)).
Qed.

End RelatedRecords.


Module OrderExample.

(** Jupiter with two moons, Io listed first. *)
Definition jupiter : Record_ :=
  mkRecord Example.jupiter None None
    (Some {["moons" := DataMany [Example.io; Example.europa]]}).

Definition cache : Cache := Example.cacheOf Example.schema [jupiter].

End OrderExample.

Lemma replaceRelatedRecords_with_same_members_witness :
  patch defaultProcessors 1
    (inl (ReplaceRelatedRecords Example.jupiter "moons"
            (DataMany [Example.europa; Example.io])))
    OrderExample.cache
  = Ok ({| inverse := []; data := [None] |}, OrderExample.cache).
Proof.
  apply (replaceRelatedRecords_with_same_members defaultProcessors 0 OrderExample.cache
           Example.jupiter "moons" [Example.io; Example.europa]
           [Example.europa; Example.io]).
  - repeat constructor.
  - by vm_compute.
  - repeat constructor.
  - repeat constructor.
  - reflexivity.
  - intros r. rewrite !elem_of_cons, !elem_of_nil. tauto.
Defined.

(** ** Adding a record and taking it back *)

(** The related identities of a record with, for each, the back-reference
    that the cache integrity processor files under it: one pair for each
    identity in the data of each relationship, in the order of the
    visits. *)
Definition references (x : RecordIdentity) (rels : option (gmap string RelData))
  : list (RecordIdentity * RelatedRecordIdentity) :=
  flat_map
    (fun '(R, d) =>
       map (fun z => (z, mkRelated x R)) (SchemaConsistencyProcessor.recordArray (Some d)))
    (map_to_list (default ∅ rels)).

Lemma forEach_ext {A} (f g : A -> M unit) l c :
  (forall a c, f a c = g a c) -> forEach f l c = forEach g l c.
Proof.
  intros Hfg. revert c. induction l as [|a l IH]; intros c; [done|].
  cbn [forEach]. unfold mbind, M_bind. rewrite Hfg.
  destruct (g a c) as [[u c']| |]; [apply IH|done|done].
Qed.

Lemma forEach_app {A} (f : A -> M unit) l1 l2 c :
  forEach f (l1 ++ l2) c = (forEach f l1 ≫= fun _ => forEach f l2) c.
Proof.
  revert c. induction l1 as [|a l1 IH]; intros c; [done|].
  cbn [forEach app]. unfold mbind, M_bind.
  destruct (f a c) as [[u c']| |]; [|done|done]. apply IH.
Qed.

Lemma forEach_map {A B} (f : B -> M unit) (g : A -> B) l c :
  forEach f (map g l) c = forEach (fun a => f (g a)) l c.
Proof.
  revert c. induction l as [|a l IH]; intros c; [done|].
  cbn [forEach map]. unfold mbind, M_bind.
  destruct (f (g a) c) as [[u c']| |]; [apply IH|done|done].
Qed.

Lemma forEach_flat_map {A B} (f : B -> M unit) (g : A -> list B) l c :
  forEach f (flat_map g l) c = forEach (fun a => forEach f (g a)) l c.
Proof.
  revert c. induction l as [|a l IH]; intros c; [done|].
  cbn [forEach flat_map]. rewrite forEach_app. unfold mbind, M_bind.
  destruct (forEach f (g a) c) as [[u c']| |]; [apply IH|done|done].
Qed.

Lemma eachRelated_forEach (f : RecordIdentity -> M unit) d c :
  CacheIntegrityProcessor.eachRelated f d c
  = forEach f (SchemaConsistencyProcessor.recordArray (Some d)) c.
Proof.
  destruct d as [|z|zs]; cbn; [done| |done].
  unfold mbind, M_bind. by destruct (f z c) as [[[] c']| |].
Qed.

(** The visits of [addAllInverseRelationships] and of
    [removeAllInverseRelationships], as one sequence of calls. *)
Lemma addAllInverseRelationships_references rec c :
  CacheIntegrityProcessor.addAllInverseRelationships rec c
  = forEach (fun p => addInverselyRelatedRecord p.1 p.2)
      (references (identity rec) (relationships rec)) c.
Proof.
  unfold CacheIntegrityProcessor.addAllInverseRelationships, references.
  rewrite cloneRecordIdentity_id, forEach_flat_map.
  destruct (relationships rec) as [rels|]; cbn [default].
  - apply forEach_ext. intros [R d] c'. rewrite forEach_map.
    apply eachRelated_forEach.
  - by rewrite map_to_list_empty.
Qed.

Lemma removeAllInverseRelationships_references x rec c :
  stored c x = Some rec ->
  CacheIntegrityProcessor.removeAllInverseRelationships x c
  = (forEach (fun p => removeInverselyRelatedRecord p.1 p.2)
       (references x (relationships rec))
     ≫= fun _ => removeInverseRelationships x) c.
Proof.
  intros Hrec.
  unfold CacheIntegrityProcessor.removeAllInverseRelationships, references.
  assert (getRecord c x = Ok (Some rec)) as Hget by by apply getRecord_stored.
  unfold mbind at 1, M_bind at 1, read. rewrite Hget. cbn [mbind outcome_bind obind].
  cbn [mbind option_bind]. unfold mbind, M_bind.
  rewrite forEach_flat_map.
  destruct (relationships rec) as [rels|]; cbn [default].
  - erewrite forEach_ext; [reflexivity|]. intros [R d] c'. rewrite forEach_map.
    apply eachRelated_forEach.
  - by rewrite map_to_list_empty.
Qed.

Lemma getInverselyRelatedRecords_dom c y :
  getInverselyRelatedRecords c y
  = if decide (type y ∈ dom (_inverseRelationships c))
    then Ok (backrefs c y) else Throw TypeError.
Proof.
  unfold getInverselyRelatedRecords, backrefs.
  destruct (_inverseRelationships c !! type y) as [bucket|] eqn:Hbucket.
  - rewrite decide_True; [done|]. apply elem_of_dom. by eexists.
  - rewrite decide_False; [done|]. by apply not_elem_of_dom.
Qed.

Lemma filter_all {A} (f : A -> bool) l :
  (forall a, a ∈ l -> f a = true) -> List.filter f l = l.
Proof.
  induction l as [|a l IH]; intros H; cbn; [done|].
  rewrite (H a) by by left. rewrite IH; [done|]. intros a' Hin. apply H. by right.
Qed.

Lemma addInverselyRelatedRecord_list y0 r0 c u c' :
  addInverselyRelatedRecord y0 r0 c = Ok (u, c') ->
  _records c' = _records c
  /\ dom (_inverseRelationships c') = dom (_inverseRelationships c)
  /\ type y0 ∈ dom (_inverseRelationships c)
  /\ forall y, backrefs c' y
               = backrefs c y ++ (if bool_decide (y0 = y) then [r0] else []).
Proof.
  unfold addInverselyRelatedRecord.
  destruct (_inverseRelationships c !! type y0) as [bucket|] eqn:Hbucket; [|done].
  intros [= _ <-]. split_and!; [done| | |].
  - cbn. apply dom_insert_lookup_L. by eexists.
  - apply elem_of_dom. by eexists.
  - intros y. rewrite (backrefs_set _ _ _ _ _ _ Hbucket).
    assert (mkIdentity (type y0) (id y0) = y0) as -> by by destruct y0.
    case_decide as Hy.
    + subst y. rewrite bool_decide_eq_true_2 by done.
      unfold backrefs. by rewrite Hbucket.
    + rewrite bool_decide_eq_false_2 by done. by rewrite app_nil_r.
Qed.

Lemma removeInverselyRelatedRecord_list y0 r0 c :
  type y0 ∈ dom (_inverseRelationships c) ->
  exists c',
    removeInverselyRelatedRecord y0 r0 c = Ok (tt, c')
    /\ _records c' = _records c
    /\ dom (_inverseRelationships c') = dom (_inverseRelationships c)
    /\ forall y, backrefs c' y
                 = List.filter (fun r => negb (bool_decide ((y0, r0) = (y, r))))
                     (backrefs c y).
Proof.
  intros [bucket Hbucket]%elem_of_dom. unfold removeInverselyRelatedRecord.
  rewrite Hbucket.
  assert (forall y, y <> y0 ->
            List.filter (fun r => negb (bool_decide ((y0, r0) = (y, r)))) (backrefs c y)
            = backrefs c y) as Hother.
  { intros y Hy. apply filter_all. intros r _.
    rewrite bool_decide_eq_false_2; [done|]. intros [= ? ?]. by apply Hy. }
  destruct (bucket !! id y0) as [rels|] eqn:Hrels.
  - eexists. split; [reflexivity|]. split_and!; [done| |].
    + cbn. apply dom_insert_lookup_L. by eexists.
    + intros y. rewrite (backrefs_set _ _ _ _ _ _ Hbucket).
      assert (mkIdentity (type y0) (id y0) = y0) as -> by by destruct y0.
      case_decide as Hy; [|by rewrite Hother].
      subst y. assert (backrefs c y0 = rels) as ->.
      { unfold backrefs. rewrite Hbucket. cbn. by rewrite Hrels. }
      apply filter_ext. intros r. rewrite same_related_eq. f_equal.
      apply bool_decide_ext. split; [by intros -> | by intros [= ->]].
  - exists c. split_and!; [done|done|done|]. intros y.
    destruct (decide (y = y0)) as [->|Hy]; [|by rewrite Hother].
    unfold backrefs. rewrite Hbucket. cbn. by rewrite Hrels.
Qed.

Lemma removeInverseRelationships_list x c :
  type x ∈ dom (_inverseRelationships c) ->
  exists c',
    removeInverseRelationships x c = Ok (tt, c')
    /\ _records c' = _records c
    /\ dom (_inverseRelationships c') = dom (_inverseRelationships c)
    /\ forall y, backrefs c' y = if bool_decide (y = x) then [] else backrefs c y.
Proof.
  intros [bucket Hbucket]%elem_of_dom. unfold removeInverseRelationships.
  rewrite Hbucket. eexists. split; [reflexivity|]. split_and!; [done| |].
  - cbn. apply dom_insert_lookup_L. by eexists.
  - intros y. rewrite (backrefs_delete _ _ _ _ Hbucket).
    case_decide; [by rewrite bool_decide_eq_true_2 | by rewrite bool_decide_eq_false_2].
Qed.

Lemma addInverselyRelatedRecords_list pairs :
  forall c u c',
    forEach (fun p => addInverselyRelatedRecord p.1 p.2) pairs c = Ok (u, c') ->
    _records c' = _records c
    /\ dom (_inverseRelationships c') = dom (_inverseRelationships c)
    /\ Forall (fun p => type p.1 ∈ dom (_inverseRelationships c)) pairs
    /\ forall y,
         backrefs c' y
         = backrefs c y ++ map snd (List.filter (fun p => bool_decide (p.1 = y)) pairs).
Proof.
  induction pairs as [|[y0 r0] pairs IH]; intros c u c'; cbn [forEach].
  - intros [_ ->]%ret_inv. split_and!; [done|done|done|].
    intros y. cbn. by rewrite app_nil_r.
  - intros (? & c1 & H1 & Hrest)%bind_inv.
    destruct (addInverselyRelatedRecord_list _ _ _ _ _ H1) as (Hr1 & Hd1 & Hin1 & Hb1).
    destruct (IH _ _ _ Hrest) as (Hr2 & Hd2 & Hin2 & Hb2).
    split_and!; [congruence|congruence| |].
    + constructor; [done|]. eapply Forall_impl; [exact Hin2|].
      intros p Hp. cbn in Hp. by rewrite Hd1 in Hp.
    + intros y. rewrite Hb2, Hb1. cbn [List.filter fst].
      destruct (bool_decide (y0 = y)); cbn; by rewrite <- app_assoc.
Qed.

Lemma removeInverselyRelatedRecords_list pairs :
  forall c,
    Forall (fun p => type p.1 ∈ dom (_inverseRelationships c)) pairs ->
    exists c',
      forEach (fun p => removeInverselyRelatedRecord p.1 p.2) pairs c = Ok (tt, c')
      /\ _records c' = _records c
      /\ dom (_inverseRelationships c') = dom (_inverseRelationships c)
      /\ forall y,
           backrefs c' y
           = List.filter (fun r => negb (bool_decide ((y, r) ∈ pairs))) (backrefs c y).
Proof.
  induction pairs as [|[y0 r0] pairs IH]; intros c Hdom; cbn [forEach].
  - exists c. split_and!; [done|done|done|]. intros y. symmetry. apply filter_all.
    intros r _. rewrite bool_decide_eq_false_2; [done|]. by intros ?%elem_of_nil.
  - apply Forall_cons in Hdom as [H0 Hdom]. cbn in H0.
    destruct (removeInverselyRelatedRecord_list y0 r0 c H0) as (c1 & H1 & Hr1 & Hd1 & Hb1).
    destruct (IH c1) as (c2 & H2 & Hr2 & Hd2 & Hb2).
    { eapply Forall_impl; [exact Hdom|]. intros p Hp. cbn in Hp. by rewrite Hd1. }
    exists c2. split_and!; [|congruence|congruence|].
    + by rewrite (bind_Ok _ _ _ _ _ H1).
    + intros y. rewrite Hb2, Hb1.
      induction (backrefs c y) as [|r l IHl]; cbn; [done|].
      destruct (decide ((y0, r0) = (y, r))) as [Heq|Hne].
      * rewrite (bool_decide_eq_true_2 _ Heq). cbn.
        rewrite (bool_decide_eq_true_2 ((y, r) ∈ (y0, r0) :: pairs));
          [|rewrite Heq; by left].
        cbn. exact IHl.
      * rewrite (bool_decide_eq_false_2 _ Hne). cbn. rewrite IHl.
        assert (bool_decide ((y, r) ∈ (y0, r0) :: pairs) = bool_decide ((y, r) ∈ pairs))
          as ->; [|done].
        apply bool_decide_ext. rewrite elem_of_cons. split; [|tauto].
        intros [Heq|Hin]; [by symmetry in Heq|done].
Qed.

Lemma references_spec x rels z r :
  (z, r) ∈ references x rels
  <-> exists R d,
        r = mkRelated x R /\ rels ≫= (fun m => m !! R) = Some d /\ named d z.
Proof.
  unfold references. rewrite list_elem_of_In, in_flat_map. split.
  - intros ([R d] & Hin%list_elem_of_In%elem_of_map_to_list & Hz).
    apply in_map_iff in Hz as (z' & [= <- <-] & Hz%list_elem_of_In).
    exists R, d. split; [done|]. split.
    + destruct rels as [m|]; cbn in *; [done|]. by rewrite lookup_empty in Hin.
    + destruct d as [|w|ws]; cbn in *; [by apply elem_of_nil in Hz| |done].
      by apply list_elem_of_singleton in Hz.
  - intros (R & d & -> & Hd & Hnamed). exists (R, d). split.
    + apply list_elem_of_In, elem_of_map_to_list. by destruct rels.
    + apply in_map_iff. exists z. split; [done|]. apply list_elem_of_In.
      destruct d as [|w|ws]; cbn in *; [done| |done]. subst. by left.
Qed.

(** [removeRecord] in a cache whose only processor is the cache integrity
    processor, for a record that has no back-reference filed under it. *)
Lemma removeRecord_unreferenced fuel x rec result c cR c2 :
  getRecord c x = Ok (Some rec) ->
  getInverselyRelatedRecords c x = Ok [] ->
  CacheIntegrityProcessor.removeAllInverseRelationships x c = Ok (tt, cR) ->
  removeRecord x cR = Ok (Some rec, c2) ->
  _applyOperation [CacheIntegrityProcessor.processor] (S fuel) (RemoveRecord x)
    result true c
  = Ok (pushData (pushInverse result (AddRecord rec)) (Some rec),
        withEvent (RemoveRecord x) (Some rec) c2).
Proof.
  intros Hget Hnone Hstrip Hremove. cbn [_applyOperation].
  rewrite (bind_Ok _ _ c tt c) by reflexivity.
  rewrite (bind_Ok _ _ c (Some (AddRecord rec)) c).
  2:{ apply read_Ok. cbn. unfold InversePatchOperators.removeRecord. by rewrite Hget. }
  rewrite (bind_Ok _ _ c [[]] c) by reflexivity.
  rewrite (bind_Ok _ _ c _ c) by reflexivity.
  assert (CacheIntegrityProcessor.after (RemoveRecord x) c = Ok ([], cR)) as Hafter.
  { cbn [CacheIntegrityProcessor.after].
    unfold CacheIntegrityProcessor.clearInverseRelationshipOps.
    rewrite (bind_Ok _ _ c [] c).
    2:{ rewrite (bind_Ok _ _ c [] c) by by apply read_Ok. reflexivity. }
    by rewrite (bind_Ok _ _ _ _ _ Hstrip). }
  rewrite (bind_Ok _ _ c [[]] cR).
  2:{ cbn [mapM_ after CacheIntegrityProcessor.processor].
      by rewrite (bind_Ok _ _ _ _ _ Hafter). }
  rewrite (bind_Ok _ _ cR (Some rec) c2) by exact Hremove.
  rewrite (bind_Ok _ _ c2 tt c2) by reflexivity.
  rewrite (bind_Ok _ _ c2 tt (withEvent (RemoveRecord x) (Some rec) c2)) by reflexivity.
  rewrite (bind_Ok _ _ _ _ (withEvent (RemoveRecord x) (Some rec) c2)) by reflexivity.
  rewrite (bind_Ok _ _ _ [[]] (withEvent (RemoveRecord x) (Some rec) c2)) by reflexivity.
  reflexivity.
Qed.

(** X24.  A cache whose only processor is the cache integrity processor:
    [addRecord] of a record that is absent, that names no identity of its
    own and that no back-reference of the index is from or about, returns
    [removeRecord] of its identity as inverse; the patch of that inverse
    completes, returns [addRecord] of the record, and leaves every record
    and every list of back-references as they were before the record was
    added. *)
Theorem addRecord_then_inverse fuel c rec result1 c1 :
  let x := identity rec in
  getRecord c x = Ok None ->
  getInverselyRelatedRecords c x = Ok [] ->
  (forall y r, r ∈ backrefs c y -> record r <> x) ->
  (forall R, ~ pointsTo rec R x) ->
  patch [CacheIntegrityProcessor.processor] (S fuel) (inl (AddRecord rec)) c
  = Ok (result1, c1) ->
  inverse result1 = [RemoveRecord x]
  /\ getRecord c1 x = Ok (Some rec)
  /\ exists result2 c2,
       patch [CacheIntegrityProcessor.processor] (S fuel) (inr (inverse result1)) c1
       = Ok (result2, c2)
       /\ inverse result2 = [AddRecord rec]
       /\ (forall i, getRecord c2 i = getRecord c i)
       /\ (forall y, getInverselyRelatedRecords c2 y = getInverselyRelatedRecords c y).
Proof.
  intros x Habsent Hnone Hforeign Hself.
  (* the patch of [addRecord] *)
  unfold patch. intros (result0 & ? & Hrun & [-> ->]%ret_inv)%bind_inv.
  cbn [_applyOperation] in Hrun.
  apply bind_inv in Hrun as (? & ? & ->%validate_inv & Hrun).
  apply bind_inv in Hrun as (inverseOp & ? & [Hinverse ->]%read_inv & Hrun).
  cbn in Hinverse. unfold InversePatchOperators.addRecord in Hinverse.
  fold x in Hinverse. rewrite Habsent in Hinverse. cbn in Hinverse.
  injection Hinverse as <-.
  apply bind_inv in Hrun as (befores & ? & Hb & Hrun).
  cbn in Hb. injection Hb as <- <-.
  apply bind_inv in Hrun as (? & ? & Hba & Hrun).
  cbn in Hba. injection Hba as <- <-.
  apply bind_inv in Hrun as (prepared & ? & Ha & Hrun).
  cbn in Ha. injection Ha as <- <-.
  apply bind_inv in Hrun as (d & c4 & Hmain & Hrun).
  cbn [PatchOperators.apply] in Hmain. unfold PatchOperators.addRecord in Hmain.
  apply bind_inv in Hmain as (? & cS & Hset & Hmain).
  apply setRecord_inv in Hset as (bucket & Hbucket & ->).
  apply bind_inv in Hmain as (? & cP & Hpush & [-> ->]%ret_inv).
  injection Hpush as _ <-.
  apply bind_inv in Hrun as (? & ? & Himm & Hrun).
  cbn in Himm. injection Himm as _ <-.
  apply bind_inv in Hrun as (? & ? & Hemit & Hrun).
  injection Hemit as _ <-.
  apply bind_inv in Hrun as (? & ? & Hpa & Hrun).
  cbn in Hpa. injection Hpa as <- <-.
  apply bind_inv in Hrun as (finals & c8 & Hf & Hrun).
  cbn [mapM_ finally CacheIntegrityProcessor.processor CacheIntegrityProcessor.finally]
    in Hf.
  apply bind_inv in Hf as (? & ? & (? & c9 & Hadd & [-> ->]%ret_inv)%bind_inv & Hf).
  apply bind_inv in Hf as (? & ? & [-> ->]%ret_inv & [-> ->]%ret_inv).
  cbn in Hrun. injection Hrun as <- <-.
  (* the state reached *)
  rewrite addAllInverseRelationships_references in Hadd.
  apply addInverselyRelatedRecords_list in Hadd as (Hrecords1 & Hdom1 & Hbuckets & Hindex1).
  cbn [_records _inverseRelationships] in Hrecords1, Hdom1, Hbuckets.
  assert (forall y, backrefs c9 y
                    = backrefs c y
                      ++ map snd (List.filter (fun p => bool_decide (p.1 = y))
                                    (references x (relationships rec)))) as Hindex1'
      by exact Hindex1.
  clear Hindex1.
  assert (bucket !! id x = None) as Hfree.
  { unfold getRecord in Habsent. fold x in Hbucket. rewrite Hbucket in Habsent.
    by injection Habsent. }
  assert (type x ∈ dom (_inverseRelationships c)) as Htype.
  { rewrite getInverselyRelatedRecords_dom in Hnone. by case_decide. }
  assert (backrefs c x = []) as Hnone'
      by by apply getInverselyRelatedRecords_backrefs.
  assert (forall z r, (z, r) ∈ references x (relationships rec) ->
                      z <> x /\ record r = x) as Hrefs.
  { intros z r (R & d & -> & Hd & Hnamed)%references_spec. split; [|done].
    intros ->. apply (Hself R). apply pointsTo_named. eauto. }
  assert (getRecord c9 x = Ok (Some rec)) as Hpresent.
  { unfold getRecord. rewrite Hrecords1. fold x. rewrite lookup_insert_eq.
    by rewrite lookup_insert_eq. }
  assert (getInverselyRelatedRecords c9 x = Ok []) as Hnone1.
  { rewrite getInverselyRelatedRecords_dom, Hdom1, decide_True by done.
    rewrite Hindex1', Hnone'. cbn. f_equal. apply map_nil_iff, filter_nil.
    intros [z r] Hin. apply bool_decide_eq_false. cbn. intros ->.
    by destruct (Hrefs _ _ Hin). }
  (* the patch of the inverse *)
  destruct (removeInverselyRelatedRecords_list (references x (relationships rec)) c9)
    as (cF & Hforward & HrecordsF & HdomF & HindexF).
  { eapply Forall_impl; [exact Hbuckets|]. intros p Hp. cbn in Hp. by rewrite Hdom1. }
  destruct (removeInverseRelationships_list x cF) as (cR & Hwipe & HrecordsR & HdomR & HindexR).
  { by rewrite HdomF, Hdom1. }
  assert (CacheIntegrityProcessor.removeAllInverseRelationships x c9 = Ok (tt, cR))
    as Hstrip.
  { rewrite (removeAllInverseRelationships_references x rec);
      [|by apply getRecord_inv].
    by rewrite (bind_Ok _ _ _ _ _ Hforward). }
  assert (_records cR = <[type x := <[id x := rec]> bucket]> (_records c)) as Hstore
      by (by rewrite HrecordsR, HrecordsF, Hrecords1).
  assert (exists c2, removeRecord x cR = Ok (Some rec, c2)
                     /\ _records c2 = _records c
                     /\ _inverseRelationships c2 = _inverseRelationships cR)
    as (c2 & Hremove & Hrecords2 & Hindex2).
  { unfold removeRecord. rewrite Hstore, lookup_insert_eq, lookup_insert_eq.
    eexists. split; [reflexivity|]. cbn. split; [|done].
    rewrite Hstore, insert_insert_eq, delete_insert_id by done.
    by apply insert_id. }
  split_and!.
  - cbn. by rewrite cloneRecordIdentity_id.
  - exact Hpresent.
  - exists {| inverse := [AddRecord rec]; data := [Some rec] |},
      (withEvent (RemoveRecord x) (Some rec) c2).
    split_and!; [|done| |].
    + cbn [inverse pushData pushInverse app]. rewrite cloneRecordIdentity_id.
      unfold _applyOperations. cbn [reverse rev_append foldlM].
      pose proof (removeRecord_unreferenced fuel x rec {| inverse := []; data := [] |}
                    c9 cR c2 Hpresent Hnone1 Hstrip Hremove) as Hrun.
      rewrite (bind_Ok _ _ c9 _ (withEvent (RemoveRecord x) (Some rec) c2)
                 (eq_trans (bind_Ok _ _ _ _ _ Hrun) eq_refl)).
      reflexivity.
    + intros i. unfold getRecord. cbn. by rewrite Hrecords2.
    + intros y. rewrite !getInverselyRelatedRecords_dom.
      cbn [withEvent _inverseRelationships]. rewrite Hindex2, HdomR, HdomF, Hdom1.
      case_decide; [|done]. f_equal.
      assert (backrefs (withEvent (RemoveRecord x) (Some rec) c2) y = backrefs cR y)
        as -> by (unfold backrefs; cbn; by rewrite Hindex2).
      rewrite HindexR. case_bool_decide as Hy; [by subst y|].
      rewrite HindexF, Hindex1', List.filter_app.
      rewrite (filter_all _ (backrefs c y)).
      2:{ intros r Hin. apply negb_true_iff, bool_decide_eq_false.
          intros [_ Hfrom]%Hrefs. by apply (Hforeign y r). }
      rewrite (proj2 (filter_nil _ _)); [by rewrite app_nil_r|].
      intros r Hin. apply negb_false_iff, bool_decide_eq_true.
      apply list_elem_of_In, in_map_iff in Hin as ([z r'] & Hr & Hin).
      cbn in Hr. subst r'.
      apply filter_In in Hin as [Hin Hz]. apply bool_decide_eq_true in Hz.
      cbn in Hz. subst z. by apply list_elem_of_In.
Qed.

Lemma backrefs_checked (P : RelatedRecordIdentity -> Prop) c :
  map_Forall (fun _ bucket => map_Forall (fun _ l => Forall P l) bucket)
    (_inverseRelationships c) ->
  forall y r, r ∈ backrefs c y -> P r.
Proof.
  intros H y r. unfold backrefs.
  destruct (_inverseRelationships c !! type y) as [bucket|] eqn:Hbucket; cbn;
    [|by intros ?%elem_of_nil].
  destruct (bucket !! id y) as [l|] eqn:Hl; cbn; [|by intros ?%elem_of_nil].
  intros Hin. pose proof (H _ _ Hbucket _ _ Hl) as Hall.
  rewrite Forall_forall in Hall. by apply Hall.
Qed.

Module RoundTripExample.

(** Jupiter alone in the store, nothing in the index. *)
Definition cache : Cache := Example.cacheOf Example.schema [RemovalExample.jupiter].

Definition added : outcome (PatchResult * Cache) :=
  patch [CacheIntegrityProcessor.processor] 1 (inl (AddRecord RemovalExample.io)) cache.

End RoundTripExample.

Lemma addRecord_then_inverse_witness :
  exists result1 c1,
    RoundTripExample.added = Ok (result1, c1)
    /\ inverse result1 = [RemoveRecord Example.io]
    /\ getRecord c1 Example.io = Ok (Some RemovalExample.io)
    /\ exists result2 c2,
         patch [CacheIntegrityProcessor.processor] 1 (inr (inverse result1)) c1
         = Ok (result2, c2)
         /\ inverse result2 = [AddRecord RemovalExample.io]
         /\ (forall i, getRecord c2 i = getRecord RoundTripExample.cache i)
         /\ (forall y, getInverselyRelatedRecords c2 y
                       = getInverselyRelatedRecords RoundTripExample.cache y).
Proof.
  destruct RoundTripExample.added as [[result1 c1]| |] eqn:Hrun;
    [|by vm_compute in Hrun..].
  exists result1, c1. split; [reflexivity|].
  apply (addRecord_then_inverse 0 RoundTripExample.cache RemovalExample.io result1 c1).
  - vm_compute. reflexivity.
  - vm_compute. reflexivity.
  - apply backrefs_checked. apply (bool_decide_unpack _). vm_compute. exact I.
  - intros R. unfold pointsTo, deepGet_data.
    change (relationships RemovalExample.io)
      with (Some ({["planet" := DataOne Example.jupiter]} : gmap string RelData)).
    cbn [mbind option_bind].
    destruct (decide (R = "planet")) as [->|HR].
    + rewrite lookup_singleton_eq. discriminate.
    + rewrite lookup_singleton_ne by done. tauto.
  - exact Hrun.
Defined.

(** ** Adding a record *)

Lemma eq_dict_erased d1 d2 :
  (erase_dict <$> d1) = (erase_dict <$> d2) -> eq_dict d1 d2 = true.
Proof.
  destruct d1 as [a|], d2 as [b|]; cbn; try done. intros [= Heq].
  apply andb_true_iff. split.
  - apply bool_decide_eq_true. unfold erase_dict in Heq.
    by rewrite <- (dom_fmap_L Utils.erase a), Heq, dom_fmap_L.
  - apply forallb_forall. intros [k v] Hin%list_elem_of_In%elem_of_map_to_list.
    pose proof (f_equal (fun m : gmap string value => m !! k) Heq) as Hk.
    unfold erase_dict in Hk. cbn in Hk. rewrite !lookup_fmap, Hin in Hk. cbn in Hk.
    destruct (b !! k) as [v'|]; [|done]. cbn in *. injection Hk as Hk.
    by apply eq_erase.
Qed.

Lemma eq_record_erased current rec :
  erase_record current = erase_record rec -> eq_record current rec = true.
Proof.
  intros Heq. unfold eq_record.
  pose proof (f_equal identity Heq) as Hi. pose proof (f_equal keys Heq) as Hk.
  pose proof (f_equal attributes Heq) as Ha.
  pose proof (f_equal relationships Heq) as Hr. cbn in Hi, Hk, Ha, Hr.
  rewrite (eq_dict_erased _ _ Hk), (eq_dict_erased _ _ Ha).
  by rewrite !bool_decide_eq_true_2.
Qed.

(** X25.  [addRecord] of a record whose content is that of the stored
    one (the same keys, attributes and relationships, whatever the objects
    that hold the values) is skipped: the state is as before, no event is
    emitted, no inverse is returned and the datum is [null]. *)
Theorem addRecord_of_stored_content processors fuel c rec current :
  accepted processors c (AddRecord rec) ->
  getRecord c (identity rec) = Ok (Some current) ->
  erase_record current = erase_record rec ->
  patch processors (S fuel) (inl (AddRecord rec)) c
  = Ok ({| inverse := []; data := [None] |}, c).
Proof.
  intros Hvalid Hcurrent Hsame.
  assert (InversePatchOperators.apply c (AddRecord rec) = Ok None) as Hinverse.
  { cbn [InversePatchOperators.apply]. unfold InversePatchOperators.addRecord.
    rewrite Hcurrent. cbn [mbind outcome_bind obind].
    by rewrite (eq_record_erased _ _ Hsame). }
  unfold patch.
  by rewrite (bind_Ok _ _ _ _ _
                (applyOperation_skip processors fuel _ _ true c Hvalid Hinverse)).
Qed.

Lemma addRecord_of_stored_content_witness :
  patch defaultProcessors 1 (inl (AddRecord RemovalExample.io)) RemovalExample.added
  = Ok ({| inverse := []; data := [None] |}, RemovalExample.added).
Proof.
  apply (addRecord_of_stored_content defaultProcessors 0 RemovalExample.added
           RemovalExample.io RemovalExample.io).
  - repeat constructor.
  - vm_compute. reflexivity.
  - reflexivity.
Defined.

(** ** The index under [addRecord] *)

(** The index has the back-reference of every reference of the store. *)
Definition complete (c : Cache) : Prop :=
  forall a R y, names c a R y -> mkRelated a R ∈ backrefs c y.

(** [addRecord] in a cache whose only processor is the cache integrity
    processor: either it is skipped, or the record is stored and its
    references are filed. *)
Lemma addRecord_applied fuel rec result primary c result' c' :
  _applyOperation [CacheIntegrityProcessor.processor] (S fuel) (AddRecord rec)
    result primary c = Ok (result', c') ->
  c' = c
  \/ exists bucket cE,
       _records c !! type (identity rec) = Some bucket
       /\ _records cE = <[type (identity rec) := <[id (identity rec) := rec]> bucket]>
                          (_records c)
       /\ _inverseRelationships cE = _inverseRelationships c
       /\ CacheIntegrityProcessor.addAllInverseRelationships rec cE = Ok (tt, c').
Proof.
  cbn [_applyOperation]. intros Hrun.
  apply bind_inv in Hrun as (? & ? & ->%validate_inv & Hrun).
  apply bind_inv in Hrun as (inverseOp & ? & [Hinverse ->]%read_inv & Hrun).
  destruct inverseOp as [inverseOp|]; [|left; by apply ret_inv in Hrun as [_ ->]].
  right.
  apply bind_inv in Hrun as (befores & ? & Hb & Hrun).
  cbn in Hb. injection Hb as <- <-.
  apply bind_inv in Hrun as (? & ? & Hba & Hrun).
  cbn in Hba. injection Hba as <- <-.
  apply bind_inv in Hrun as (prepared & ? & Ha & Hrun).
  cbn in Ha. injection Ha as <- <-.
  apply bind_inv in Hrun as (d & c4 & Hmain & Hrun).
  cbn [PatchOperators.apply] in Hmain. unfold PatchOperators.addRecord in Hmain.
  apply bind_inv in Hmain as (? & cS & Hset & Hmain).
  apply setRecord_inv in Hset as (bucket & Hbucket & ->).
  apply bind_inv in Hmain as (? & cP & Hpush & [-> ->]%ret_inv).
  injection Hpush as _ <-.
  apply bind_inv in Hrun as (? & ? & Himm & Hrun).
  cbn in Himm. injection Himm as _ <-.
  apply bind_inv in Hrun as (? & ? & Hemit & Hrun).
  injection Hemit as _ <-.
  apply bind_inv in Hrun as (? & ? & Hpa & Hrun).
  cbn in Hpa. injection Hpa as <- <-.
  apply bind_inv in Hrun as (finals & c8 & Hf & Hrun).
  cbn [mapM_ finally CacheIntegrityProcessor.processor CacheIntegrityProcessor.finally]
    in Hf.
  apply bind_inv in Hf as (? & ? & ([] & c9 & Hadd & [-> ->]%ret_inv)%bind_inv & Hf).
  apply bind_inv in Hf as (? & ? & [-> ->]%ret_inv & [-> ->]%ret_inv).
  cbn in Hrun. injection Hrun as _ <-.
  eexists bucket, _. split; [done|]. split; [|split; [|exact Hadd]]; reflexivity.
Qed.

(** X26.  A cache whose only processor is the cache integrity processor
    and whose index has the back-reference of every reference: after a
    patch of [addRecord] the index again has the back-reference of every
    reference, those of the record added included. *)
Theorem addRecord_keeps_index_complete fuel c rec result c' :
  complete c ->
  patch [CacheIntegrityProcessor.processor] (S fuel) (inl (AddRecord rec)) c
  = Ok (result, c') ->
  complete c'.
Proof.
  intros Hcomplete. unfold patch.
  intros (result1 & ? & Hrun & [_ <-]%ret_inv)%bind_inv.
  apply addRecord_applied in Hrun
    as [-> | (bucket & cE & Hbucket & HrecordsE & HindexE & Hadd)]; [done|].
  destruct (addAllInverseRelationships_index rec cE tt c' Hadd)
    as [Hrecords Hindex].
  assert (forall a, stored c' a
                    = if decide (a = identity rec) then Some rec else stored c a)
    as Hstored.
  { intros a. unfold stored. rewrite Hrecords, HrecordsE.
    pose proof (stored_set_records c (type (identity rec)) (id (identity rec)) rec
                  bucket a Hbucket) as H.
    unfold stored in H. cbn in H.
    assert (mkIdentity (type (identity rec)) (id (identity rec)) = identity rec)
      as Heta by by destruct (identity rec).
    by rewrite Heta in H. }
  intros a R y (rec' & Hrec' & Hpoints). apply Hindex.
  rewrite Hstored in Hrec'. case_decide as Ha.
  - injection Hrec' as <-. subst a. right. eauto.
  - left. assert (backrefs cE y = backrefs c y) as ->
        by (unfold backrefs; by rewrite HindexE).
    apply Hcomplete. by exists rec'.
Qed.

Lemma complete_checked c :
  map_Forall
    (fun t bucket =>
       map_Forall
         (fun i rec =>
            map_Forall
              (fun R d =>
                 Forall (fun y => mkRelated (mkIdentity t i) R ∈ backrefs c y)
                   (SchemaConsistencyProcessor.recordArray (Some d)))
              (default ∅ (relationships rec)))
         bucket)
    (_records c) ->
  complete c.
Proof.
  intros H [t i] R y (rec & Hrec & Hpoints). unfold stored in Hrec. cbn in Hrec.
  destruct (_records c !! t) as [bucket|] eqn:Hbucket; [|done]. cbn in Hrec.
  pose proof (H t bucket Hbucket i rec Hrec) as Hrels.
  apply pointsTo_named in Hpoints as (d & Hd & Hnamed). unfold deepGet_data in Hd.
  destruct (relationships rec) as [rels|] eqn:Hsome; [|done]. cbn in Hd.
  assert (Forall (fun y => mkRelated (mkIdentity t i) R ∈ backrefs c y)
            (SchemaConsistencyProcessor.recordArray (Some d))) as Hall.
  { apply (Hrels R d). by rewrite Hsome. }
  rewrite Forall_forall in Hall. apply Hall.
  destruct d as [|z|zs]; cbn in *; [done| |done]. subst. by left.
Qed.

Module CompleteExample.

Definition europa : Record_ :=
  mkRecord Example.europa None None (Some {["planet" := DataOne Example.jupiter]}).

Definition added : outcome (PatchResult * Cache) :=
  patch [CacheIntegrityProcessor.processor] 1 (inl (AddRecord europa))
    RemovalExample.added'.

End CompleteExample.

Lemma addRecord_keeps_index_complete_witness :
  exists result c', CompleteExample.added = Ok (result, c') /\ complete c'.
Proof.
  destruct CompleteExample.added as [[result c']| |] eqn:Hrun.
  - exists result, c'. split; [reflexivity|].
    apply (addRecord_keeps_index_complete 0 RemovalExample.added'
             CompleteExample.europa result c').
    + apply complete_checked. apply (bool_decide_unpack _). vm_compute. exact I.
    + exact Hrun.
  - vm_compute in Hrun. discriminate Hrun.
  - vm_compute in Hrun. discriminate Hrun.
Defined.

(** ** Taking a related record out and putting it back *)

(** The operator [removeFromRelatedRecords] on a record that lists the
    identity: every copy of it is taken out of the list. *)
Lemma removeFromRelatedRecords_filters c a R x rec l :
  stored c a = Some rec -> identity rec = a ->
  deepGet_data rec R = Some (DataMany l) ->
  exists d c' rec',
    PatchOperators.removeFromRelatedRecords a R x c = Ok (d, c')
    /\ stored c' a = Some rec' /\ identity rec' = a
    /\ deepGet_data rec' R
       = Some (DataMany (List.filter (fun r => negb (bool_decide (r = x))) l)).
Proof.
  intros Hrec Hid Hdata. unfold PatchOperators.removeFromRelatedRecords.
  rewrite (bind_Ok _ _ c (Some rec) c) by (apply read_Ok; by apply getRecord_stored).
  destruct (clone_record_spec rec c) as (rec1 & n & Hclone & _).
  destruct (clone_record_inv _ _ _ _ Hclone) as (Hid1 & Hrels1 & _ & Hrecords1 & _).
  rewrite (bind_Ok _ _ _ _ _ Hclone).
  assert (deepGet_data rec1 R = Some (DataMany l)) as ->
      by (unfold deepGet_data in *; by rewrite Hrels1).
  destruct (deepSet_data rec1 R _) as [changed rec2] eqn:Hset.
  assert (changed = true) as ->.
  { unfold deepSet_data in Hset. injection Hset as <- _.
    apply negb_true_iff, bool_decide_eq_false. by intros [_ ?]. }
  assert (rec2 = (deepSet_data rec1 R
                    (DataMany
                       (List.filter
                          (fun r => negb (equalRecordIdentities (Some (DataOne r))
                                            (Some (DataOne x)))) l))).2)
    as Hrec2 by by rewrite Hset.
  assert (identity rec2 = a) as Hid2 by (rewrite Hrec2; cbn; congruence).
  assert (exists bucket, _records c !! type a = Some bucket) as [bucket Hbucket].
  { unfold stored in Hrec. destruct (_records c !! type a); [eauto|done]. }
  eexists _, _, rec2. split_and!.
  - unfold setRecord at 1. unfold mbind, M_bind. cbn [_records].
    rewrite Hid2, Hbucket. reflexivity.
  - unfold stored. cbn [_records set_records]. rewrite lookup_insert_eq. cbn.
    by rewrite lookup_insert_eq.
  - exact Hid2.
  - rewrite Hrec2, deepGet_deepSet, decide_True by done. f_equal. f_equal.
    apply filter_ext. intros r. f_equal.
    destruct (equalRecordIdentities _ _) eqn:Heq.
    + apply sameIdentity_eq in Heq. by rewrite bool_decide_eq_true_2.
    + rewrite bool_decide_eq_false_2; [done|]. intros ->.
      assert (equalRecordIdentities (Some (DataOne x)) (Some (DataOne x)) = true)
        by by apply sameIdentity_eq.
      congruence.
Qed.

(** The operator [addToRelatedRecords] on a record with a list: the
    identity is put at the end. *)
Lemma addToRelatedRecords_appends c a R x rec l :
  stored c a = Some rec -> identity rec = a ->
  deepGet_data rec R = Some (DataMany l) ->
  exists d c' rec',
    PatchOperators.addToRelatedRecords a R x c = Ok (d, c')
    /\ stored c' a = Some rec' /\ identity rec' = a
    /\ deepGet_data rec' R = Some (DataMany (l ++ [x])).
Proof.
  intros Hrec Hid Hdata. unfold PatchOperators.addToRelatedRecords.
  rewrite (bind_Ok _ _ c (Some rec) c) by (apply read_Ok; by apply getRecord_stored).
  destruct (clone_record_spec rec c) as (rec1 & n & Hclone & _).
  destruct (clone_record_inv _ _ _ _ Hclone) as (Hid1 & Hrels1 & _ & Hrecords1 & _).
  cbn [PatchOperators.cloneOrBare]. rewrite (bind_Ok _ _ _ _ _ Hclone).
  assert (deepGet_data rec1 R = Some (DataMany l)) as ->
      by (unfold deepGet_data in *; by rewrite Hrels1).
  set (rec2 := (deepSet_data rec1 R (DataMany (l ++ [x]))).2).
  assert (identity rec2 = a) as Hid2 by (unfold rec2; cbn; congruence).
  assert (exists bucket, _records c !! type a = Some bucket) as [bucket Hbucket].
  { unfold stored in Hrec. destruct (_records c !! type a); [eauto|done]. }
  eexists _, _, rec2. split_and!.
  - unfold setRecord at 1. unfold mbind, M_bind. cbn [_records].
    rewrite Hid2, Hbucket. reflexivity.
  - unfold stored. cbn [_records set_records]. rewrite lookup_insert_eq. cbn.
    by rewrite lookup_insert_eq.
  - exact Hid2.
  - unfold rec2. by rewrite deepGet_deepSet, decide_True.
Qed.

Lemma getRelatedRecords_stored c a R rec l :
  stored c a = Some rec -> deepGet_data rec R = Some (DataMany l) ->
  getRelatedRecords c a R = Ok (DataMany l).
Proof.
  intros Hrec Hdata. unfold getRelatedRecords.
  rewrite (currentData_present _ _ _ _ (getRecord_stored _ _ _ Hrec)), Hdata.
  reflexivity.
Qed.

(** X27.  [removeFromRelatedRecords] of an identity that the relationship
    of a stored record lists returns [addToRelatedRecords] as its inverse;
    the operator takes every copy of the identity out of the list, and the
    operator of the inverse then puts the identity at the end of the list,
    not where it was. *)
Theorem removeFromRelatedRecords_then_inverse c a R x rec l :
  stored c a = Some rec -> identity rec = a ->
  deepGet_data rec R = Some (DataMany l) ->
  x ∈ l ->
  let rest := List.filter (fun r => negb (bool_decide (r = x))) l in
  InversePatchOperators.removeFromRelatedRecords c a R x
  = Ok (Some (AddToRelatedRecords a R x))
  /\ exists d1 c1 d2 c2,
       PatchOperators.removeFromRelatedRecords a R x c = Ok (d1, c1)
       /\ getRelatedRecords c1 a R = Ok (DataMany rest)
       /\ PatchOperators.addToRelatedRecords a R x c1 = Ok (d2, c2)
       /\ getRelatedRecords c2 a R = Ok (DataMany (rest ++ [x])).
Proof.
  intros Hrec Hid Hdata Hin rest. split.
  - unfold InversePatchOperators.removeFromRelatedRecords, relatedRecordsInclude.
    rewrite (getRelatedRecords_stored _ _ _ _ _ Hrec Hdata).
    cbn [mbind outcome_bind obind recordIdentitySetIncludes].
    assert (existsb
              (fun r => equalRecordIdentities (Some (DataOne r)) (Some (DataOne x))) l
            = true) as ->; [|done].
    apply existsb_exists. exists x. split; [by apply list_elem_of_In|].
    by apply sameIdentity_eq.
  - destruct (removeFromRelatedRecords_filters c a R x rec l Hrec Hid Hdata)
      as (d1 & c1 & rec1 & Hremove & Hrec1 & Hid1 & Hdata1).
    destruct (addToRelatedRecords_appends c1 a R x rec1 rest Hrec1 Hid1 Hdata1)
      as (d2 & c2 & rec2 & Hadd & Hrec2 & Hid2 & Hdata2).
    exists d1, c1, d2, c2. split_and!; [done| |done|].
    + by apply (getRelatedRecords_stored _ _ _ rec1).
    + by apply (getRelatedRecords_stored _ _ _ rec2).
Qed.

Lemma removeFromRelatedRecords_then_inverse_witness :
  let rest :=
    List.filter (fun r => negb (bool_decide (r = Example.io)))
      [Example.io; Example.europa] in
  InversePatchOperators.removeFromRelatedRecords OrderExample.cache Example.jupiter
    "moons" Example.io
  = Ok (Some (AddToRelatedRecords Example.jupiter "moons" Example.io))
  /\ exists d1 c1 d2 c2,
       PatchOperators.removeFromRelatedRecords Example.jupiter "moons" Example.io
         OrderExample.cache = Ok (d1, c1)
       /\ getRelatedRecords c1 Example.jupiter "moons" = Ok (DataMany rest)
       /\ PatchOperators.addToRelatedRecords Example.jupiter "moons" Example.io c1
          = Ok (d2, c2)
       /\ getRelatedRecords c2 Example.jupiter "moons"
          = Ok (DataMany (rest ++ [Example.io])).
Proof.
  apply (removeFromRelatedRecords_then_inverse OrderExample.cache Example.jupiter
           "moons" Example.io OrderExample.jupiter [Example.io; Example.europa]).
  - vm_compute. reflexivity.
  - reflexivity.
  - vm_compute. reflexivity.
  - left.
Defined.
